(** * Shortest paths between pages: a model of [backend/sdow]

    The development follows the layout of the service:
    - [Py]: the few Python text operations the data-access layer relies on;
    - [Sql]: the tables of the store and the statements sent to it;
    - [Graph]: the link graph of the store, its paths and shortest paths;
    - [Bfs]: the bidirectional breadth-first engine and its path
      reconstruction;
    - [Database]: the wrapper class of [database.py];
    - [Server]: the [/paths] route of [server.py];
    - [PrunePages]: the script [prune_pages_file.py] of the migration;
    - [Invariants], [Scenarios]: the predicates of the correctness argument
      and the small stores and files the statements are tried on.

    The modules that follow hold the facts: about the statement text, about
    paths, about one expansion of a frontier, about layered visited-maps and
    about the search loop, and then the properties of the engine, of the
    batched reads and of the route.  The last modules hold further
    properties of the batched reads, of the title resolution and of the
    route, and the properties of the script that prunes the pages file. *)

From Stdlib Require Import ZArith String Ascii DecimalString DecimalZ DecimalPos Lia.
From stdpp Require Import gmap strings list.


(** ** Exceptions and results *)

(** The exception classes the service raises or catches.  All of them derive
    from Python's [Exception]. *)
Inductive exn : Type :=
| ValueError (msg : string)
| InvalidRequest (msg : string)
| SyntaxError (query : string)
| UndefinedColumn (column : string)
| TypeError (msg : string)
| OperationalError (msg : string).

(** A call either returns a value or raises. *)
Inductive result (A : Type) : Type :=
| Ok (a : A)
| Raise (e : exn).
Arguments Ok {A} a.
Arguments Raise {A} e.

#[global] Instance result_ret : MRet result := λ A a, Ok a.

#[global] Instance result_bind : MBind result := λ A B k r,
  match r with
  | Ok a => k a
  | Raise e => Raise e
  end.

(** ** Python text operations *)

Module Py.

(** [str(n)] for an integer. *)
Definition str_int (n : Z) : string := NilZero.string_of_int (Z.to_int n).

(** [str(tuple(xs))] for a collection of integers: the elements separated by
    a comma and a space, with the trailing comma Python prints for a
    one-element tuple. *)
Definition str_tuple (xs : list Z) : string :=
  match xs with
  | [] => "()"
  | [x] => "(" +:+ str_int x +:+ ",)"
  | _ => "(" +:+ String.concat ", " (map str_int xs) +:+ ")"
  end.

(** [s.startswith(p)]. *)
Fixpoint startswith (s p : string) : bool :=
  match p with
  | EmptyString => true
  | String a p' =>
      match s with
      | String b s' => Ascii.eqb a b && startswith s' p'
      | EmptyString => false
      end
  end.

(** [s.replace(old, new)] for a non-empty [old]: occurrences are replaced
    from left to right and do not overlap; [skip] counts the characters of a
    matched occurrence that are still to be dropped. *)
Fixpoint replace_from (old new : string) (skip : nat) (s : string) : string :=
  match s with
  | EmptyString => EmptyString
  | String c s' =>
      match skip with
      | S k => replace_from old new k s'
      | O =>
          if startswith s old
          then new +:+ replace_from old new (String.length old - 1) s'
          else String c (replace_from old new 0 s')
      end
  end.

Definition replace (old new s : string) : string := replace_from old new 0 s.

(** The double-quote character, as a string. *)
Definition dquote : string := String (ascii_of_nat 34) EmptyString.

(** [str(e)] for an exception: its message. *)
Definition str_exn (e : exn) : string :=
  match e with
  | ValueError msg | InvalidRequest msg | SyntaxError msg
  | UndefinedColumn msg | TypeError msg | OperationalError msg => msg
  end.

(** [s.endswith(suffix)]: some tail of [s] is [suffix]. *)
Fixpoint endswith (s suffix : string) : bool :=
  String.eqb s suffix
  || match s with
     | EmptyString => false
     | String _ s' => endswith s' suffix
     end.

(** [c in chars]. *)
Definition occurs (c : ascii) (chars : string) : bool :=
  existsb (Ascii.eqb c) (list_ascii_of_string chars).

(** [s.rstrip(chars)]: the trailing characters of [s] that occur in [chars]
    are dropped. *)
Fixpoint rstrip (s chars : string) : string :=
  match s with
  | EmptyString => EmptyString
  | String c s' =>
      match rstrip s' chars with
      | EmptyString => if occurs c chars then EmptyString else String c EmptyString
      | r => String c r
      end
  end.

(** [s.split(sep)] for a separator of one character: the fields between the
    occurrences of [sep], one more than there are occurrences. *)
Fixpoint split (s : string) (sep : ascii) : list string :=
  match s with
  | EmptyString => [EmptyString]
  | String c s' =>
      if Ascii.eqb c sep then EmptyString :: split s' sep
      else match split s' sep with
           | field :: fields => String c field :: fields
           | [] => [String c EmptyString]
           end
  end.

(** [sep.join(items)]. *)
Definition join (sep : string) (items : list string) : string :=
  String.concat sep items.

End Py.

(** ** The store and the statements sent to it *)

Module Sql.
#[local] Open Scope Z_scope.

(** A field of a result row as the driver hands it to Python: [None], an
    integer, or an array of integers. *)
Inductive value : Type :=
| VNull
| VInt (n : Z)
| VArray (ns : list Z).

Definition row : Type := list value.

(** Table [pages]: columns [id], [title], [is_redirect]. *)
Record page : Type := {
  page_id : Z;
  title : string;
  is_redirect : bool
}.

(** Table [redirects]: columns [source_id], [target_id]. *)
Record redirect : Type := {
  source_id : Z;
  target_id : Z
}.

(** Table [links]: one adjacency record per row, columns [id],
    [outgoing_links_count], [incoming_links_count], [outgoing_links],
    [incoming_links]. *)
Record link : Type := {
  link_id : Z;
  outgoing_links_count : Z;
  incoming_links_count : Z;
  outgoing_links : list Z;
  incoming_links : list Z
}.

Record tables : Type := {
  pages : list page;
  redirects : list redirect;
  links : list link
}.

(** Every redirect leads to a page that is not itself a redirect: chains of
    redirects are resolved when the store is built, and [fetch_page] relies
    on it. *)
Definition redirects_resolved (db : tables) : bool :=
  forallb (λ r,
    forallb (λ p, bool_decide (page_id p = target_id r → is_redirect p = false))
            (pages db))
    (redirects db).

(** The columns of [links], and the column a name denotes. *)
Inductive column : Type :=
| c_id
| c_outgoing_links_count
| c_incoming_links_count
| c_outgoing_links
| c_incoming_links.

Definition column_of_name (name : string) : option column :=
  if String.eqb name "id" then Some c_id
  else if String.eqb name "outgoing_links_count" then Some c_outgoing_links_count
  else if String.eqb name "incoming_links_count" then Some c_incoming_links_count
  else if String.eqb name "outgoing_links" then Some c_outgoing_links
  else if String.eqb name "incoming_links" then Some c_incoming_links
  else None.

Definition column_value (c : column) (l : link) : value :=
  match c with
  | c_id => VInt (link_id l)
  | c_outgoing_links_count => VInt (outgoing_links_count l)
  | c_incoming_links_count => VInt (incoming_links_count l)
  | c_outgoing_links => VArray (outgoing_links l)
  | c_incoming_links => VArray (incoming_links l)
  end.

(** The two statement shapes the wrapper builds by interpolating text. *)
Inductive statement : Type :=
| SelectLinks (column : string) (ids : list Z)
| SelectSum (column : string) (ids : list Z).

(** *** Reading a statement *)

Fixpoint strip_prefix (p s : string) : option string :=
  match p with
  | EmptyString => Some s
  | String a p' =>
      match s with
      | String b s' => if Ascii.eqb a b then strip_prefix p' s' else None
      | EmptyString => None
      end
  end.

Definition is_digit (c : ascii) : bool :=
  let n := nat_of_ascii c in (48 <=? n)%nat && (n <=? 57)%nat.

Definition is_int_char (c : ascii) : bool := Ascii.eqb c "-" || is_digit c.

Definition is_ident_char (c : ascii) : bool :=
  let n := nat_of_ascii c in
  ((97 <=? n)%nat && (n <=? 122)%nat) || Ascii.eqb c "_".

(** The longest prefix of identifier characters, and what follows it. *)
Fixpoint span_ident (s : string) : string * string :=
  match s with
  | EmptyString => (EmptyString, EmptyString)
  | String c s' =>
      if is_ident_char c
      then let '(w, r) := span_ident s' in (String c w, r)
      else (EmptyString, s)
  end.

Definition read_int (tok : string) : option Z :=
  Z.of_int <$> NilZero.int_of_string tok.

(** The items of a parenthesised list, read after the opening parenthesis:
    integer literals separated by commas, blanks allowed before a literal.
    [tok] holds the characters of the literal being read and [acc] the items
    read so far.  A closing parenthesis or a comma that no literal precedes
    is rejected, so neither [()] nor [(1,)] is a list. *)
Fixpoint parse_items (s tok : string) (acc : list Z) : option (list Z * string) :=
  match s with
  | EmptyString => None
  | String c s' =>
      if is_int_char c then parse_items s' (tok +:+ String c EmptyString) acc
      else if Ascii.eqb c "," then
        z ← read_int tok; parse_items s' EmptyString (acc ++ [z])
      else if Ascii.eqb c " " then
        if String.eqb tok EmptyString then parse_items s' tok acc else None
      else if Ascii.eqb c ")" then
        z ← read_int tok; Some (acc ++ [z], s')
      else None
  end.

(** An [IN] list followed by the end of the statement. *)
Definition parse_in_list (s : string) : option (list Z) :=
  match s with
  | String "("%char s' =>
      match parse_items s' EmptyString [] with
      | Some (ids, rest) => if String.eqb rest ";" then Some ids else None
      | None => None
      end
  | _ => None
  end.

Definition parse (query : string) : option statement :=
  r1 ← strip_prefix "SELECT " query;
  match strip_prefix "SUM(" r1 with
  | Some r2 =>
      let '(column, r3) := span_ident r2 in
      r4 ← strip_prefix ") FROM links WHERE id IN " r3;
      ids ← parse_in_list r4;
      Some (SelectSum column ids)
  | None =>
      r2 ← strip_prefix "id, " r1;
      let '(column, r3) := span_ident r2 in
      r4 ← strip_prefix " FROM links WHERE id IN " r3;
      ids ← parse_in_list r4;
      Some (SelectLinks column ids)
  end.

(** *** Running a statement *)

Definition selected (ids : list Z) (l : link) : bool := bool_decide (link_id l ∈ ids).

(** The rows of [links] whose [id] is in the list, in table order. *)
Definition where_id_in (db : tables) (ids : list Z) : list link :=
  List.filter (selected ids) (links db).

(** [SUM] over the selected fields; it is defined on integers only. *)
Fixpoint sum_values (vs : list value) : option Z :=
  match vs with
  | [] => Some 0
  | VInt n :: vs' => s ← sum_values vs'; Some (n + s)
  | _ :: _ => None
  end.

Definition is_integer_column (c : column) : bool :=
  match c with
  | c_outgoing_links | c_incoming_links => false
  | _ => true
  end.

(** A [SELECT id, column] yields one row per selected record; a
    [SELECT SUM(column)] yields a single row, whose field is [NULL] when no
    record is selected. *)
Definition run (db : tables) (st : statement) : result (list row) :=
  match st with
  | SelectLinks name ids =>
      match column_of_name name with
      | Some c => Ok (map (λ l, [VInt (link_id l); column_value c l]) (where_id_in db ids))
      | None => Raise (UndefinedColumn name)
      end
  | SelectSum name ids =>
      match column_of_name name with
      | Some c =>
          if is_integer_column c then
            match where_id_in db ids with
            | [] => Ok [[VNull]]
            | ls => Ok [[from_option VInt VNull (sum_values (map (column_value c) ls))]]
            end
          else Raise (OperationalError ("function sum does not apply to " +:+ name))
      | None => Raise (UndefinedColumn name)
      end
  end.

(** [cursor.execute(query)]: the result set, or the error of a statement the
    store cannot read. *)
Definition execute (db : tables) (query : string) : result (list row) :=
  match parse query with
  | Some st => run db st
  | None => Raise (SyntaxError query)
  end.

(** [cursor.fetchone()]. *)
Definition fetchone (cursor : list row) : option row := head cursor.

End Sql.


(** ** The link graph *)

Module Graph.
Import Sql.

(** The two sides of the search; [forward] follows outgoing links and
    [backward] follows incoming links. *)
Inductive direction : Type := forward | backward.

Definition opposite (d : direction) : direction :=
  match d with forward => backward | backward => forward end.

Definition adjacency (d : direction) (l : link) : list Z :=
  match d with
  | forward => outgoing_links l
  | backward => incoming_links l
  end.

Definition record_of (db : tables) (n : Z) : list link :=
  List.filter (λ l, bool_decide (link_id l = n)) (links db).

(** The neighbours the store lists for one node in one direction; a node
    without a record has none. *)
Definition links_of (db : tables) (d : direction) (n : Z) : list Z :=
  flat_map (adjacency d) (record_of db n).

(** [u → v] is a link of the graph. *)
Definition edge (db : tables) (u v : Z) : Prop := v ∈ links_of db forward u.

(** Consecutive nodes of the sequence are linked. *)
Fixpoint chain (E : Z → Z → Prop) (p : list Z) : Prop :=
  match p with
  | x :: (y :: _) as q => E x y ∧ chain E q
  | _ => True
  end.

(** [p] is a path from [s] to [t] along [E]: a sequence of nodes that starts
    at [s], ends at [t] and follows [E]. *)
Definition path_in (E : Z → Z → Prop) (s t : Z) (p : list Z) : Prop :=
  head p = Some s ∧ last p = Some t ∧ chain E p.

(** A path of the link graph. *)
Definition path (db : tables) (s t : Z) (p : list Z) : Prop :=
  path_in (edge db) s t p.

(** A path no other path from [s] to [t] is shorter than. *)
Definition shortest_path (db : tables) (s t : Z) (p : list Z) : Prop :=
  path db s t p ∧ ∀ q, path db s t q → length p ≤ length q.

(** Every link is recorded at both of its ends. *)
Definition consistent (db : tables) : Prop :=
  ∀ u v, v ∈ links_of db forward u ↔ u ∈ links_of db backward v.

(** The same, as a check that runs over the records. *)
Definition consistentb (db : tables) : bool :=
  forallb (λ l,
    forallb (λ v, bool_decide (link_id l ∈ links_of db backward v)) (outgoing_links l)
    && forallb (λ u, bool_decide (link_id l ∈ links_of db forward u)) (incoming_links l))
    (links db).

End Graph.

(** ** The bidirectional breadth-first engine *)

Module Bfs.
Import Sql Graph.

(** Modelled from the spec: [neighbors(direction, node_ids)] of section 4.1,
    one entry per requested node, empty for a node without links in that
    direction. *)
Definition neighbors (db : tables) (d : direction) (node_ids : list Z) : list (Z * list Z) :=
  map (λ n, (n, links_of db d n)) node_ids.

(** Modelled from the spec: a node ID is present in the Adjacency Store
    (section 7) when the store has an adjacency record for it. *)
Definition present (db : tables) (n : Z) : bool :=
  match record_of db n with
  | [] => false
  | _ :: _ => true
  end.

(** Modelled from the spec: the InvalidArgument condition of section 7 for a
    node ID that is not present.  The wrapper documents the failure of an
    invalid page ID as a [ValueError]; the text is the one with which
    [fetch_page_title] reports a page ID that does not exist. *)
Definition invalid_argument (page_id : Z) : exn :=
  ValueError ("Invalid page ID " +:+ Py.dquote +:+ Py.str_int page_id +:+ Py.dquote
              +:+ " provided. Page ID does not exist.").

(** Modelled from the spec: the module [breadth_first_search] that
    [database.py] imports is not part of the sources, and the definitions of
    this module follow sections 3 and 4.1 to 4.3 of the specification.  A
    visited-map holds each visited node with the generation at which it was
    reached and the set of its parents. *)
Abbreviation visited_map := (gmap Z (nat * gset Z)).

(** Modelled from the spec: the search state of section 3. *)
Record search_state : Type := {
  forwardVisited : visited_map;
  backwardVisited : visited_map;
  forwardFrontier : list Z;
  backwardFrontier : list Z;
  forwardDistance : nat;
  backwardDistance : nat
}.

(** Modelled from the spec: step 2 of section 4.2. *)
Definition initial (source target : Z) : search_state :=
  {| forwardVisited := {[source := (0, ∅)]};
     backwardVisited := {[target := (0, ∅)]};
     forwardFrontier := [source];
     backwardFrontier := [target];
     forwardDistance := 0;
     backwardDistance := 0 |}.

(** Modelled from the spec: step 3b for one neighbor of one frontier node.
    A neighbor that is not yet visited joins the next frontier with [node] as
    its parent; one reached in the generation being built gets [node] as a
    further parent; one reached in an earlier generation is left alone. *)
Definition record_parent (gen : nat) (node : Z)
    (acc : visited_map * list Z) (neighbor : Z) : visited_map * list Z :=
  let '(visited, next) := acc in
  match visited !! neighbor with
  | None => (<[neighbor := (gen, {[node]})]> visited, next ++ [neighbor])
  | Some (g, parents) =>
      if decide (g = gen)
      then (<[neighbor := (g, {[node]} ∪ parents)]> visited, next)
      else (visited, next)
  end.

(** Modelled from the spec: step 3b, one bulk fetch for the whole frontier. *)
Definition expand (db : tables) (d : direction) (visited : visited_map)
    (frontier : list Z) (gen : nat) : visited_map * list Z :=
  foldl (λ acc '(node, neighborSet), foldl (record_parent gen node) acc neighborSet)
        (visited, []) (neighbors db d frontier).

(** Modelled from the spec: steps 3b and 3c for the chosen side. *)
Definition expand_side (db : tables) (d : direction) (σ : search_state) : search_state :=
  match d with
  | forward =>
      let '(visited, next) :=
        expand db forward (forwardVisited σ) (forwardFrontier σ) (S (forwardDistance σ)) in
      {| forwardVisited := visited;
         backwardVisited := backwardVisited σ;
         forwardFrontier := next;
         backwardFrontier := backwardFrontier σ;
         forwardDistance := S (forwardDistance σ);
         backwardDistance := backwardDistance σ |}
  | backward =>
      let '(visited, next) :=
        expand db backward (backwardVisited σ) (backwardFrontier σ) (S (backwardDistance σ)) in
      {| forwardVisited := forwardVisited σ;
         backwardVisited := visited;
         forwardFrontier := forwardFrontier σ;
         backwardFrontier := next;
         forwardDistance := forwardDistance σ;
         backwardDistance := S (backwardDistance σ) |}
  end.

(** Modelled from the spec: step 3d, the nodes visited from both sides. *)
Definition intersection (σ : search_state) : gset Z :=
  dom (forwardVisited σ) ∩ dom (backwardVisited σ).

(** Modelled from the spec: step 3a, the side that is cheaper to expand,
    forward on a tie.  The two estimates are asked of the data-access handle
    the engine is given: [degree_sum] stands for its count operations, which
    are part of the sources (see [Database.degree_sum]).  An error of the
    store propagates (section 7).  Section 4.1 makes an estimate an integer;
    one that is not an integer cannot be ordered, which Python reports as a
    [TypeError]. *)
Definition cost_based (degree_sum : direction → list Z → result value)
    (σ : search_state) : result direction :=
  forward_links_count ← degree_sum forward (forwardFrontier σ);
  backward_links_count ← degree_sum backward (backwardFrontier σ);
  match forward_links_count, backward_links_count with
  | VInt f, VInt b => Ok (if decide (f ≤ b)%Z then forward else backward)
  | _, _ => Raise (TypeError "degree estimates that are not integers cannot be ordered")
  end.

(** Modelled from the spec: the two forced variants of section 8, which
    expand the same side in every round. *)
Definition always_forward (σ : search_state) : result direction := Ok forward.
Definition always_backward (σ : search_state) : result direction := Ok backward.

(** Modelled from the spec: the loop of step 3, which runs while neither
    frontier is empty and the two sides have not met.  [choose] selects the
    side to expand.  Step 3d allows one more round on the other side once
    the frontiers have met, without fixing when it is due (the design notes
    list the rule as an open question): [sync] is that rule.  The loop of the
    specification has no bound; here [fuel] bounds the number of rounds, and
    [None] says that it ran out.  The result is the final state with the
    candidate meeting distance, if the two sides met; the loop raises what
    the choice of the side raises. *)
Fixpoint search (db : tables) (choose : search_state → result direction)
    (sync : search_state → bool) (fuel : nat) (σ : search_state)
    : result (option (search_state * option nat)) :=
  match fuel with
  | O => Ok None
  | S fuel' =>
      if bool_decide (forwardFrontier σ = [] ∨ backwardFrontier σ = [])
      then Ok (Some (σ, None))
      else
        d ← choose σ;
        let σ' := expand_side db d σ in
        if decide (intersection σ' = ∅)
        then search db choose sync fuel' σ'
        else Ok (Some (if sync σ' then expand_side db (opposite d) σ' else σ',
                       Some (forwardDistance σ' + backwardDistance σ')))
  end.

(** Modelled from the spec: the distance at which a side reached a node
    (step 5), read from its visited-map. *)
Definition reached (visited : visited_map) (n : Z) : nat :=
  from_option fst 0 (visited !! n).

(** Modelled from the spec: step 5, the nodes visited from both sides whose
    two distances add up to the meeting distance. *)
Definition meeting_nodes (σ : search_state) (distance : nat) : list Z :=
  List.filter (λ m, bool_decide
                 (reached (forwardVisited σ) m + reached (backwardVisited σ) m = distance))
              (elements (intersection σ)).

(** Modelled from the spec: the recursive enumeration of section 4.3.  For
    each parent of the current node, prepend and recurse; a node without
    parents is the root of the visited-map.  [depth] bounds the recursion. *)
Fixpoint paths_to_root (visited : visited_map) (depth : nat) (node : Z)
    (suffix : list Z) : list (list Z) :=
  match visited !! node with
  | None => []
  | Some (_, parents) =>
      if decide (parents = ∅) then [node :: suffix]
      else
        match depth with
        | O => []
        | S depth' =>
            flat_map (λ p, paths_to_root visited depth' p (node :: suffix)) (elements parents)
        end
  end.

(** Modelled from the spec: the paths from the source to [m], enumerated in
    the forward visited-map (section 4.3). *)
Definition paths_from_source (σ : search_state) (m : Z) : list (list Z) :=
  paths_to_root (forwardVisited σ) (reached (forwardVisited σ) m) m [].

(** Modelled from the spec: the paths from [m] to the target, enumerated
    symmetrically in the backward visited-map (section 4.3). *)
Definition paths_to_target (σ : search_state) (m : Z) : list (list Z) :=
  reverse <$> paths_to_root (backwardVisited σ) (reached (backwardVisited σ) m) m [].

(** Modelled from the spec: section 4.3, the product of the two families of
    paths at every meeting node, with the meeting node written once, and
    identical sequences removed. *)
Definition reconstruct (σ : search_state) (distance : nat) : list (list Z) :=
  remove_dups
    (flat_map (λ m,
       flat_map (λ p, (λ q, p ++ tail q) <$> paths_to_target σ m) (paths_from_source σ m))
       (meeting_nodes σ distance)).

(** Modelled from the spec: every node the store mentions.  The loop of
    section 4.2 has no bound of its own; the bound on its rounds is taken
    from these nodes. *)
Definition mentioned (db : tables) : list Z :=
  flat_map (λ l, link_id l :: outgoing_links l ++ incoming_links l) (links db).

(** Modelled from the spec: rounds that are enough for any search over the
    store (see [search]). *)
Definition rounds (db : tables) : nat := 2 * (2 + length (mentioned db)) + 1.

(** Modelled from the spec: the contract [shortestPaths(source, target)] of
    section 4.2 (steps 1, 4 and 5) with the direction choice and the
    synchronisation rule as parameters.  Step 1 comes first; then a node ID
    that is not present in the store fails fast (section 7), before the
    first round of the loop.  When the loop ends without a meeting the
    result is the empty list; [None] means that the loop did not finish. *)
Definition shortestPaths (db : tables) (choose : search_state → result direction)
    (sync : search_state → bool) (source target : Z)
    : result (option (list (list Z))) :=
  if decide (source = target) then Ok (Some [[source]])
  else if negb (present db source) then Raise (invalid_argument source)
  else if negb (present db target) then Raise (invalid_argument target)
  else
    found ← search db choose sync (rounds db) (initial source target);
    Ok match found with
       | None => None
       | Some (_, None) => Some []
       | Some (σ, Some distance) => Some (reconstruct σ distance)
       end.

(** Modelled from the spec: the engine as [database.py] calls it,
    [breadth_first_search(source_page_id, target_page_id, self)], with the
    side chosen by cost.  The handle [self] is the store together with its
    count operations, [degree_sum]. *)
Definition breadth_first_search (sync : search_state → bool)
    (degree_sum : direction → list Z → result value)
    (source_page_id target_page_id : Z) (database : tables)
    : result (option (list (list Z))) :=
  shortestPaths database (cost_based degree_sum) sync source_page_id target_page_id.

End Bfs.

(** ** [database.py]: class [Database] *)

Module Database.
Import Sql.

(** [fetch_links_helper(self, page_ids, outcoming_or_incoming_links)];
    the cursor it returns is the result set of the statement. *)
Definition fetch_links_helper (self : tables) (page_ids : list Z)
    (outcoming_or_incoming_links : string) : result (list row) :=
  let page_ids := Py.replace ",)" ")" (Py.str_tuple page_ids) in
  let query := "SELECT id, " +:+ outcoming_or_incoming_links
                 +:+ " FROM links WHERE id IN " +:+ page_ids +:+ ";" in
  execute self query.

Definition fetch_outgoing_links (self : tables) (page_ids : list Z) : result (list row) :=
  fetch_links_helper self page_ids "outgoing_links".

Definition fetch_incoming_links (self : tables) (page_ids : list Z) : result (list row) :=
  fetch_links_helper self page_ids "incoming_links".

(** [fetch_links_count_helper(self, page_ids, incoming_or_outgoing_links_count)]:
    the first field of the first row of the result. *)
Definition fetch_links_count_helper (self : tables) (page_ids : list Z)
    (incoming_or_outgoing_links_count : string) : result value :=
  let page_ids := Py.replace ",)" ")" (Py.str_tuple page_ids) in
  let query := "SELECT SUM(" +:+ incoming_or_outgoing_links_count
                 +:+ ") FROM links WHERE id IN " +:+ page_ids +:+ ";" in
  cursor ← execute self query;
  match fetchone cursor with
  | Some (v :: _) => Ok v
  | Some [] => Raise (TypeError "tuple index out of range")
  | None => Raise (TypeError "'NoneType' object is not subscriptable")
  end.

Definition fetch_outgoing_links_count (self : tables) (page_ids : list Z) : result value :=
  fetch_links_count_helper self page_ids "outgoing_links_count".

Definition fetch_incoming_links_count (self : tables) (page_ids : list Z) : result value :=
  fetch_links_count_helper self page_ids "incoming_links_count".

(** The two count operations of the wrapper as the engine asks for them,
    by the side of the search (the operation [degree_sum] of section 4.1):
    [fetch_outgoing_links_count] for the forward side and
    [fetch_incoming_links_count] for the backward side. *)
Definition degree_sum (self : tables) (d : Graph.direction) (page_ids : list Z)
    : result value :=
  match d with
  | Graph.forward => fetch_outgoing_links_count self page_ids
  | Graph.backward => fetch_incoming_links_count self page_ids
  end.

(** The record [insert_result] receives. *)
Record search : Type := {
  search_source_id : Z;
  search_target_id : Z;
  search_duration : string;
  search_paths : list (list Z)
}.

Section Wrapper.

(** [helpers.py] is not part of the sources: the helpers the wrapper calls
    are parameters, each of which returns or raises. *)
Variable get_sanitized_page_title : string → result string.
Variable get_readable_page_title : string → string.
Variable validate_page_id : Z → result unit.

(** The function [LOWER] of the store. *)
Variable LOWER : string → string.

(** The synchronisation rule of the engine (see [Bfs.search]). *)
Variable sync : Bfs.search_state → bool.

(** [self.connection.execute] and [self.connection.commit], for the
    statement that records a search. *)
Variable connection_execute : string → result unit.
Variable connection_commit : result unit.

(** The rows of
    [SELECT * FROM pages WHERE LOWER(title) = LOWER(%s)]. *)
Definition select_pages_by_title (self : tables) (sanitized_page_title : string) : list page :=
  filter (λ p, LOWER (title p) = LOWER sanitized_page_title) (pages self).

(** The rows of
    [SELECT target_id, title FROM redirects INNER JOIN pages ON pages.id = target_id
     WHERE source_id = %s]. *)
Definition select_redirect_target (self : tables) (source : Z) : list (Z * string) :=
  flat_map (λ r, (λ p, (target_id r, title p))
                   <$> filter (λ p, page_id p = target_id r) (pages self))
           (filter (λ r, source_id r = source) (redirects self)).

Definition does_not_exist (page_title : string) : exn :=
  ValueError ("Invalid page title " +:+ page_title
              +:+ " provided. Page title does not exist.").

(** [fetch_page(self, page_title)]: the ID and title of the page, and
    whether a redirect was followed. *)
Definition fetch_page (self : tables) (page_title : string) : result (Z * string * bool) :=
  sanitized_page_title ← get_sanitized_page_title page_title;
  let results := select_pages_by_title self sanitized_page_title in
  match results with
  | [] => Raise (does_not_exist page_title)
  | first :: _ =>
      match List.find (λ p, bool_decide (title p = sanitized_page_title)
                            && negb (is_redirect p)) results with
      | Some p => Ok (page_id p, get_readable_page_title (title p), false)
      | None =>
          match List.find (λ p, negb (is_redirect p)) results with
          | Some p => Ok (page_id p, get_readable_page_title (title p), false)
          | None =>
              match head (select_redirect_target self (page_id first)) with
              | None => Raise (does_not_exist page_title)
              | Some result => Ok (result.1, get_readable_page_title result.2, true)
              end
          end
      end
  end.

(** The rows of [SELECT title FROM pages WHERE id = %s]. *)
Definition select_title_by_id (self : tables) (page_id : Z) : list string :=
  title <$> filter (λ p, Sql.page_id p = page_id) (pages self).

(** [fetch_page_title(self, page_id)]. *)
Definition fetch_page_title (self : tables) (page_id : Z) : result string :=
  _ ← validate_page_id page_id;
  match head (select_title_by_id self page_id) with
  | None =>
      Raise (ValueError ("Invalid page ID " +:+ Py.dquote +:+ Py.str_int page_id
                         +:+ Py.dquote +:+ " provided. Page ID does not exist."))
  | Some page_title => Ok (Py.replace "_" " " page_title)
  end.

(** [compute_shortest_paths(self, source_page_id, target_page_id)]; [None]
    inside the result means that the engine did not return. *)
Definition compute_shortest_paths (self : tables) (source_page_id target_page_id : Z)
    : result (option (list (list Z))) :=
  _ ← validate_page_id source_page_id;
  _ ← validate_page_id target_page_id;
  Bfs.breadth_first_search sync (degree_sum self) source_page_id target_page_id self.

(** [insert_result(self, search)]. *)
Definition insert_result (s : search) : result unit :=
  let paths_count := length (search_paths s) in
  let degrees_count :=
    match search_paths s with
    | [] => "NULL"
    | path :: _ => Py.str_int (Z.of_nat (length path) - 1)
    end in
  let query := "INSERT INTO searches VALUES (" +:+ Py.str_int (search_source_id s)
                 +:+ ", " +:+ Py.str_int (search_target_id s)
                 +:+ ", " +:+ search_duration s +:+ ","
                 +:+ degrees_count +:+ ", " +:+ Py.str_int (Z.of_nat paths_count)
                 +:+ ", CURRENT_TIMESTAMP);" in
  _ ← connection_execute query;
  connection_commit.

End Wrapper.

End Database.

(** ** [server.py]: the route [/paths] *)

Module Server.
Import Sql Database.

(** The body of a request: [request.json]. *)
Record request_json : Type := {
  source : string;
  target : string
}.

Inductive log_record : Type :=
| info (msg : string)
| error (msg : string).

Section Route.

Variable get_sanitized_page_title : string → result string.
Variable get_readable_page_title : string → string.
Variable validate_page_id : Z → result unit.
Variable LOWER : string → string.
Variable sync : Bfs.search_state → bool.
Variable connection_execute : string → result unit.
Variable connection_commit : result unit.

(** [fetch_wikipedia_pages_info] of [helpers.py], and the data it returns. *)
Variable pages_info : Type.
Variable fetch_wikipedia_pages_info : list string → tables → result pages_info.

(** The store the request is served from, and the text of the time the
    search took. *)
Variable database : tables.
Variable duration : string.

(** The field [pages] of a response: an empty list or the fetched data. *)
Inductive pages_field : Type :=
| no_pages
| pages_data (data : pages_info).

Record response : Type := {
  sourcePageTitle : string;
  targetPageTitle : string;
  isSourceRedirected : bool;
  isTargetRedirected : bool;
  paths : list (list Z);
  pages : pages_field
}.

(** The IDs of all the pages of the paths, as strings, each once. *)
Definition page_ids_set (paths : list (list Z)) : list string :=
  elements (list_to_set (Py.str_int <$> concat paths) : gset string).

(** The end of the route, once the paths are known: the response is built,
    the search is recorded, and a failure to record it is logged. *)
Definition respond (source_page_id target_page_id : Z)
    (source_page_title target_page_title : string)
    (is_source_redirected is_target_redirected : bool)
    (paths : list (list Z)) : result response * list log_record :=
  let built :=
    match paths with
    | [] =>
        (Ok {| sourcePageTitle := source_page_title;
               targetPageTitle := target_page_title;
               isSourceRedirected := is_source_redirected;
               isTargetRedirected := is_target_redirected;
               paths := [];
               pages := no_pages |},
         [info ("No paths found from " +:+ Py.str_int source_page_id
                +:+ " to " +:+ Py.str_int target_page_id)])
    | _ =>
        (data ← fetch_wikipedia_pages_info (page_ids_set paths) database;
         Ok {| sourcePageTitle := source_page_title;
               targetPageTitle := target_page_title;
               isSourceRedirected := is_source_redirected;
               isTargetRedirected := is_target_redirected;
               paths := paths;
               pages := pages_data data |},
         [])
    end in
  match built with
  | (Raise e, log) => (Raise e, log)
  | (Ok response, log) =>
      match insert_result connection_execute connection_commit
              {| search_source_id := source_page_id;
                 search_target_id := target_page_id;
                 search_duration := duration;
                 search_paths := paths |} with
      | Ok _ => (Ok response, log)
      | Raise e =>
          (Ok response,
           log ++ [error ("An unexpected error occurred while inserting result: "
                          +:+ Py.str_exn e)])
      end
  end.

(** [shortest_paths_route()]: the result and the records logged, or [None]
    when the engine does not return. *)
Definition shortest_paths_route (request : request_json)
    : option (result response * list log_record) :=
  match fetch_page get_sanitized_page_title get_readable_page_title LOWER
          database (source request) with
  | Raise (ValueError _) =>
      Some (Raise (InvalidRequest
              ("Start page " +:+ Py.dquote +:+ source request +:+ Py.dquote
               +:+ " does not exist. Please try another search.")), [])
  | Raise e => Some (Raise e, [])
  | Ok (source_page_id, source_page_title, is_source_redirected) =>
      match fetch_page get_sanitized_page_title get_readable_page_title LOWER
              database (target request) with
      | Raise (ValueError _) =>
          Some (Raise (InvalidRequest
                  ("End page " +:+ Py.dquote +:+ target request +:+ Py.dquote
                   +:+ " does not exist. Please try another search.")), [])
      | Raise e => Some (Raise e, [])
      | Ok (target_page_id, target_page_title, is_target_redirected) =>
          match compute_shortest_paths validate_page_id sync database
                  source_page_id target_page_id with
          | Raise e => Some (Raise e, [])
          | Ok None => None
          | Ok (Some paths) =>
              Some (respond source_page_id target_page_id
                      source_page_title target_page_title
                      is_source_redirected is_target_redirected paths)
          end
      end
  end.

End Route.

End Server.

(** ** [prune_pages_file.py]: the script that prunes the pages file *)

Module PrunePages.

(** The separator of the fields of a line, and the end of a line.  Text is
    held as the bytes of its UTF-8 encoding, in which neither character
    occurs inside another one. *)
Definition tab : ascii := ascii_of_nat 9.
Definition newline : string := String (ascii_of_nat 10) EmptyString.

(** What reading a file gives: the lines, as the iteration over the file
    yields them, and the exception that ends the iteration, if one does,
    as Python reports it (a file that cannot be opened yields no line). *)
Record text_file : Type := {
  file_lines : list string;
  file_error : option string
}.

(** How a run ends: at the end of the script, by [sys.exit()], or with an
    exception, which nothing catches. *)
Inductive ending : Type :=
| completed
| SystemExit
| uncaught (exception : string).

(** The [ValueError] of an unpacking of [got] values into [expected]
    names, [got] being another number than [expected]. *)
Definition unpack_error (expected got : nat) : string :=
  if (got <? expected)%nat
  then "ValueError: not enough values to unpack (expected "
       +:+ Py.str_int (Z.of_nat expected)
       +:+ ", got " +:+ Py.str_int (Z.of_nat got) +:+ ")"
  else "ValueError: too many values to unpack (expected "
       +:+ Py.str_int (Z.of_nat expected) +:+ ")".

(** The loop over the redirects file: the dictionary [REDIRECTS] after the
    lines, or the error of the first line that has not two fields. *)
Fixpoint read_redirects (lines : list string) (REDIRECTS : gmap string bool)
    : gmap string bool + string :=
  match lines with
  | [] => inl REDIRECTS
  | line :: rest =>
      match Py.split (Py.rstrip line newline) tab with
      | [source_page_id; _] => read_redirects rest (<[source_page_id := true]> REDIRECTS)
      | items => inr (unpack_error 2 (length items))
      end
  end.

Definition load_redirects (redirects_file : text_file) : gmap string bool + string :=
  match read_redirects (file_lines redirects_file) ∅ with
  | inl REDIRECTS =>
      match file_error redirects_file with
      | Some exception => inr exception
      | None => inl REDIRECTS
      end
  | inr exception => inr exception
  end.

(** Whether a page is kept: it is not a redirect, or it has an entry in
    [REDIRECTS]. *)
Definition kept (REDIRECTS : gmap string bool) (page_id is_redirect : string) : bool :=
  String.eqb is_redirect "0" || bool_decide (is_Some (REDIRECTS !! page_id)).

(** The loop over the pages file: the lines printed, and the error of the
    first line that has not three fields, if there is one. *)
Fixpoint prune_lines (REDIRECTS : gmap string bool) (lines : list string)
    : list string * option string :=
  match lines with
  | [] => ([], None)
  | line :: rest =>
      match Py.split (Py.rstrip line newline) tab with
      | [page_id; page_title; is_redirect] =>
          let '(printed, exception) := prune_lines REDIRECTS rest in
          if kept REDIRECTS page_id is_redirect
          then (Py.join (String tab EmptyString) [page_id; page_title; is_redirect]
                  :: printed, exception)
          else (printed, exception)
      | items => ([], Some (unpack_error 3 (length items)))
      end
  end.

Definition prune_pages (REDIRECTS : gmap string bool) (pages_file : text_file)
    : list string * ending :=
  match prune_lines REDIRECTS (file_lines pages_file) with
  | (printed, Some exception) => (printed, uncaught exception)
  | (printed, None) =>
      (printed, match file_error pages_file with
                | Some exception => uncaught exception
                | None => completed
                end)
  end.

Section Script.

(** [gzip.open(name, 'rt', encoding='utf-8')], read to its end. *)
Variable gzip_open : string → text_file.

(** The script, run as [script] with the arguments [args] ([sys.argv] is
    [script :: args]): what it prints, one string for each [print], and how
    it ends. *)
Definition main (script : string) (args : list string) : list string * ending :=
  match args with
  | PAGES_FILE :: REDIRECTS_FILE :: _ =>
      if negb (Py.endswith PAGES_FILE ".gz")
      then (["[ERROR] Pages file must be gzipped."], SystemExit)
      else if negb (Py.endswith REDIRECTS_FILE ".gz")
      then (["[ERROR] Redirects file must be gzipped."], SystemExit)
      else
        match load_redirects (gzip_open REDIRECTS_FILE) with
        | inr exception => ([], uncaught exception)
        | inl REDIRECTS => prune_pages REDIRECTS (gzip_open PAGES_FILE)
        end
  | _ =>
      (["[ERROR] Not enough arguments provided!";
        "[INFO] Usage: " +:+ script +:+ " <pages_file> <redirects_file>"],
       SystemExit)
  end.

End Script.

End PrunePages.

(** ** Invariants of the search *)

(** The predicates the correctness argument is stated with. *)
Module Invariants.
Import Sql Graph Bfs.

(** Every character of the string is an integer character. *)
Fixpoint int_chars (s : string) : Prop :=
  match s with
  | EmptyString => True
  | String c s' => is_int_char c = true ∧ int_chars s'
  end.

(** The text of the items of a tuple, without the parentheses. *)
Definition items_text (xs : list Z) : string :=
  String.concat ", " (map Py.str_int xs).

(** The sum of an integer column over some rows. *)
Definition total (f : link → Z) (ls : list link) : Z :=
  foldr (λ l s, (f l + s)%Z) 0%Z ls.

(** The links out of the frontier, in the order in which they are processed. *)
Definition links_from (nbr : Z → list Z) (frontier : list Z) : list (Z * Z) :=
  flat_map (λ n, (λ v, (n, v)) <$> nbr n) frontier.

(** The processing of one link while the generation [gen] is built. *)
Definition step (gen : nat) (acc : visited_map * list Z) (e : Z * Z)
    : visited_map * list Z :=
  record_parent gen e.1 acc e.2.

(** The entry of a node that was not visited before the generation [gen]:
    none while no processed link leads to it, and otherwise the generation
    with the sources of the processed links that lead to it. *)
Definition new_entry (gen : nat) (done : list (Z * Z)) (v : Z)
    (entry : option (nat * gset Z)) : Prop :=
  match entry with
  | None => ∀ p, (p, v) ∉ done
  | Some (g, parents) =>
      g = gen ∧ (∃ p, (p, v) ∈ done) ∧ ∀ p, p ∈ parents ↔ (p, v) ∈ done
  end.

(** What the visited-map and the next frontier hold after the links [done]
    have been processed, starting from the visited-map [visited0]. *)
Record processed (gen : nat) (visited0 : visited_map) (done : list (Z * Z))
    (acc : visited_map * list Z) : Prop := {
  processed_old : ∀ v x, visited0 !! v = Some x → acc.1 !! v = Some x;
  processed_new : ∀ v, visited0 !! v = None → new_entry gen done v (acc.1 !! v);
  processed_next : ∀ v, v ∈ acc.2 ↔ visited0 !! v = None ∧ ∃ p, (p, v) ∈ done;
  processed_nodup : NoDup acc.2
}.

(** The relation a side of the search follows from its root. *)
Definition follows (nbr : Z → list Z) (u v : Z) : Prop := v ∈ nbr u.

(** A visited-map that holds exactly the nodes within distance [d] of the
    root, each with its distance and with all its parents one generation
    before, and a frontier that is the last generation. *)
Record layered (nbr : Z → list Z) (root : Z) (visited : visited_map)
    (frontier : list Z) (d : nat) : Prop := {
  layered_sound : ∀ v g ps, visited !! v = Some (g, ps) →
    g ≤ d ∧ (∃ l, path_in (follows nbr) root v l ∧ length l = S g)
    ∧ ∀ l, path_in (follows nbr) root v l → S g ≤ length l;
  layered_parents : ∀ v g ps p, visited !! v = Some (g, ps) →
    p ∈ ps ↔ ∃ g' ps', g = S g' ∧ visited !! p = Some (g', ps') ∧ v ∈ nbr p;
  layered_complete : ∀ v l,
    path_in (follows nbr) root v l → length l ≤ S d → is_Some (visited !! v);
  layered_frontier : ∀ v, v ∈ frontier ↔ ∃ ps, visited !! v = Some (d, ps)
}.

(** One expansion of the frontier, in terms of [nbr]. *)
Definition expand_with (nbr : Z → list Z) (visited : visited_map)
    (frontier : list Z) (gen : nat) : visited_map * list Z :=
  foldl (step gen) (visited, []) (links_from nbr frontier).

(** Both visited-maps are layered around their roots. *)
Record search_inv (db : tables) (source target : Z) (σ : search_state) : Prop := {
  inv_forward : layered (links_of db forward) source
                  (forwardVisited σ) (forwardFrontier σ) (forwardDistance σ);
  inv_backward : layered (links_of db backward) target
                   (backwardVisited σ) (backwardFrontier σ) (backwardDistance σ)
}.

(** The nodes a search can visit. *)
Definition universe (db : tables) (source target : Z) : gset Z :=
  list_to_set (mentioned db) ∪ {[source; target]}.

Definition within (db : tables) (source target : Z) (σ : search_state) : Prop :=
  dom (forwardVisited σ) ⊆ universe db source target
  ∧ dom (backwardVisited σ) ⊆ universe db source target.

(** The nodes not yet visited, counted on each side, plus one while the loop
    can still run: every round of the loop makes this smaller. *)
Definition potential (db : tables) (source target : Z) (σ : search_state) : nat :=
  (size (universe db source target) - size (dom (forwardVisited σ)))
  + (size (universe db source target) - size (dom (backwardVisited σ)))
  + (if bool_decide (forwardFrontier σ = [] ∨ backwardFrontier σ = []) then 0 else 1).

(** What the loop promises about its result. *)
Definition outcome (db : tables) (source target : Z)
    (r : search_state * option nat) : Prop :=
  match r.2 with
  | None => ∀ q, ¬ path db source target q
  | Some distance =>
      search_inv db source target r.1
      ∧ distance ≤ forwardDistance r.1 + backwardDistance r.1
      ∧ (∀ q, path db source target q → S distance ≤ length q)
      ∧ ∃ q, path db source target q ∧ length q ≤ S distance
  end.

(** *** Lines of the pruned files *)

(** No character of the string is [sep]. *)
Fixpoint free_of (sep : ascii) (s : string) : Prop :=
  match s with
  | EmptyString => True
  | String c s' => c ≠ sep ∧ free_of sep s'
  end.

(** The fields of a line of a file. *)
Definition fields (line : string) : list string :=
  Py.split (Py.rstrip line PrunePages.newline) PrunePages.tab.

(** The line that [print] writes for a string. *)
Definition printed_line (s : string) : string := s +:+ PrunePages.newline.

(** Some line of the redirects file has [page_id] as its first field. *)
Definition has_redirect (redirect_lines : list string) (page_id : string) : bool :=
  existsb (λ line, bool_decide (head (fields line) = Some page_id)) redirect_lines.

(** The page of the line is not a redirect, or it is the source of a line
    of the redirects file. *)
Definition keeps (redirect_lines : list string) (line : string) : bool :=
  match fields line with
  | [page_id; _; is_redirect] =>
      String.eqb is_redirect "0" || has_redirect redirect_lines page_id
  | _ => false
  end.

End Invariants.

(** ** Stores and helpers the statements are tried on *)

Module Scenarios.
Import Sql.
#[local] Open Scope Z_scope.

Definition node (n : Z) (outgoing incoming : list Z) : link :=
  {| link_id := n;
     outgoing_links_count := Z.of_nat (length outgoing);
     incoming_links_count := Z.of_nat (length incoming);
     outgoing_links := outgoing;
     incoming_links := incoming |}.

Definition store (ls : list link) : tables :=
  {| pages := []; redirects := []; links := ls |}.

(** The diamond [1 → 2 → 4], [1 → 3 → 4]. *)
Definition diamond : tables :=
  store [node 1 [2; 3] []; node 2 [4] [1]; node 3 [4] [1]; node 4 [] [2; 3]].

(** Two separate links, [1 → 2] and [3 → 4]. *)
Definition disconnected : tables :=
  store [node 1 [2] []; node 2 [] [1]; node 3 [4] []; node 4 [] [3]].

(** The chain [1 → 2 → 3 → 4] with the direct link [1 → 4]. *)
Definition shortcut : tables :=
  store [node 1 [2; 4] []; node 2 [3] [1]; node 3 [4] [2]; node 4 [] [3; 1]].

(** A store without records. *)
Definition empty : tables := store [].

Definition accept_all (n : Z) : result unit := Ok ().

Definition positive_id (n : Z) : result unit :=
  if bool_decide (0 < n) then Ok ()
  else Raise (ValueError "Page ID must be a positive integer.").

Definition never_sync (σ : Bfs.search_state) : bool := false.
Definition always_sync (σ : Bfs.search_state) : bool := true.

(** A store whose single record is the page 1, which links to 2 and 3. *)
Definition one_record : tables :=
  {| pages := []; redirects := [];
     links := [ {| link_id := 1; outgoing_links_count := 2; incoming_links_count := 0;
                   outgoing_links := [2; 3]; incoming_links := [] |} ] |}.

(** The page [Foo] and the redirect [Bar] to it; the table [links] is
    empty. *)
Definition wiki : tables :=
  {| pages := [ {| page_id := 1; title := "Foo"; is_redirect := false |};
                {| page_id := 2; title := "Bar"; is_redirect := true |} ];
     redirects := [ {| source_id := 2; target_id := 1 |} ];
     links := [] |}.

Definition keep_title (page_title : string) : result string := Ok page_title.
Definition same_title (page_title : string) : string := page_title.

(** A writer whose connection is lost. *)
Definition lost_connection (query : string) : result unit :=
  Raise (OperationalError "server closed the connection unexpectedly").

(** [LOWER] on the letters of ASCII. *)
Fixpoint lower (s : string) : string :=
  match s with
  | EmptyString => EmptyString
  | String c s' =>
      let n := nat_of_ascii c in
      String (if (65 <=? n)%nat && (n <=? 90)%nat then ascii_of_nat (n + 32) else c)
             (lower s')
  end.

(** A validator that rejects every ID. *)
Definition reject_all (n : Z) : result unit :=
  Raise (ValueError "Page ID must be a positive integer.").

(** A sanitizer that cannot handle its argument. *)
Definition broken_sanitizer (page_title : string) : result string :=
  Raise (TypeError "expected string or bytes-like object").

(** A page info service that is out of reach. *)
Definition unreachable_service (ids : list string) (db : tables) : result unit :=
  Raise (OperationalError "connection refused").

(** The redirect [Bar] without its entry in [redirects], and the page
    [New_York_City]. *)
Definition dangling : tables :=
  {| pages := [ {| page_id := 2; title := "Bar"; is_redirect := true |};
                {| page_id := 3; title := "New_York_City"; is_redirect := false |} ];
     redirects := [];
     links := [] |}.

(** Two pages without links. *)
Definition islands : tables :=
  {| pages := [ {| page_id := 1; title := "Foo"; is_redirect := false |};
                {| page_id := 3; title := "Baz"; is_redirect := false |} ];
     redirects := [];
     links := [node 1 [] []; node 3 [] []] |}.

(** A redirect to a redirect: [A] redirects to [B], which redirects to the
    page [C]. *)
Definition redirect_chain : tables :=
  {| pages := [ {| page_id := 1; title := "A"; is_redirect := true |};
                {| page_id := 2; title := "B"; is_redirect := true |};
                {| page_id := 3; title := "C"; is_redirect := false |} ];
     redirects := [ {| source_id := 1; target_id := 2 |};
                    {| source_id := 2; target_id := 3 |} ];
     links := [] |}.

(** Lines of a pages file and of a redirects file: the page 2 redirects to
    the page 1, and the page 3 is marked as a redirect without being one. *)
Definition line (items : list string) : string :=
  Py.join (String PrunePages.tab EmptyString) items +:+ PrunePages.newline.

Definition pages_lines : list string :=
  [line ["1"; "Foo"; "0"]; line ["2"; "Bar"; "1"]; line ["3"; "Baz"; "1"]].

Definition redirects_lines : list string := [line ["2"; "1"]].

(** The files of a directory that holds the two files, gzipped. *)
Definition directory (name : string) : PrunePages.text_file :=
  if String.eqb name "pages.txt.gz"
  then {| PrunePages.file_lines := pages_lines; PrunePages.file_error := None |}
  else if String.eqb name "redirects.txt.gz"
  then {| PrunePages.file_lines := redirects_lines; PrunePages.file_error := None |}
  else {| PrunePages.file_lines := [];
          PrunePages.file_error :=
            Some ("FileNotFoundError: [Errno 2] No such file or directory: '"
                  +:+ name +:+ "'") |}.

End Scenarios.

#[global] Set Warnings "-clear-no-such-hyp".

(** ** Facts about the statement text *)

Module TextFacts.
Import Py Sql Invariants.
#[local] Arguments String.append !_ _ / : simpl nomatch.
#[local] Arguments Ascii.eqb : simpl never.

Lemma int_chars_uint (d : Decimal.uint) : int_chars (NilEmpty.string_of_uint d).
Proof. induction d; simpl; auto. Qed.

Lemma int_chars_str_int (n : Z) : int_chars (str_int n).
Proof.
  unfold str_int, NilZero.string_of_int.
  destruct (Z.to_int n) as [d|d]; simpl;
    (split_and?; try reflexivity);
    unfold NilZero.string_of_uint; destruct d; simpl; auto using int_chars_uint.
Qed.

Lemma read_int_str_int (n : Z) : read_int (str_int n) = Some n.
Proof.
  unfold read_int, str_int. rewrite NilZero.isi.
  - simpl. by rewrite DecimalZ.of_to.
  - destruct n; simpl; try discriminate.
    intros [= H]. by apply Unsigned.to_uint_nonnil in H.
  - destruct n; simpl; try discriminate.
    intros [= H]. by apply Unsigned.to_uint_nonnil in H.
Qed.

Lemma append_assoc (a b c : string) : (a +:+ b) +:+ c = a +:+ (b +:+ c).
Proof. induction a; simpl; congruence. Qed.

Lemma append_empty_r (a : string) : a +:+ "" = a.
Proof. induction a; simpl; congruence. Qed.

Lemma items_text_cons (x y : Z) (l : list Z) :
  items_text (x :: y :: l) = str_int x +:+ ", " +:+ items_text (y :: l).
Proof. reflexivity. Qed.

(** [replace] leaves a run of integer characters alone. *)
Lemma replace_from_int_chars (t rest : string) :
  int_chars t →
  replace_from ",)" ")" 0 (t +:+ rest) = t +:+ replace_from ",)" ")" 0 rest.
Proof.
  induction t as [|c t IH]; simpl; [done|].
  intros [Hc Ht]. destruct (Ascii.eqb_spec "," c) as [<-|_]; [done|].
  simpl. by rewrite IH.
Qed.

Lemma replace_from_separator (rest : string) :
  replace_from ",)" ")" 0 (", " +:+ rest) = ", " +:+ replace_from ",)" ")" 0 rest.
Proof. reflexivity. Qed.

Lemma replace_items (xs : list Z) :
  xs ≠ [] →
  replace_from ",)" ")" 0 (items_text xs +:+ ")") = items_text xs +:+ ")".
Proof.
  induction xs as [|x [|y l] IH]; [done| |]; intros _.
  - unfold items_text; simpl. by rewrite replace_from_int_chars by apply int_chars_str_int.
  - rewrite items_text_cons, !append_assoc.
    rewrite replace_from_int_chars by apply int_chars_str_int.
    by rewrite replace_from_separator, IH.
Qed.

(** The hack of the wrapper works: after the replacement the text is the
    parenthesised list of the items, for a tuple of any size. *)
Lemma replace_str_tuple (xs : list Z) :
  replace ",)" ")" (str_tuple xs) = "(" +:+ items_text xs +:+ ")".
Proof.
  unfold replace. destruct xs as [|x [|y l]].
  - reflexivity.
  - unfold str_tuple, items_text.
    change (replace_from ",)" ")" 0 ("(" +:+ str_int x +:+ ",)"))
      with ("(" +:+ replace_from ",)" ")" 0 (str_int x +:+ ",)")).
    by rewrite replace_from_int_chars by apply int_chars_str_int.
  - change (replace_from ",)" ")" 0 (str_tuple (x :: y :: l)))
      with ("(" +:+ replace_from ",)" ")" 0 (items_text (x :: y :: l) +:+ ")")).
    by rewrite replace_items.
Qed.

(** *** Reading the list back *)

Lemma parse_items_int_chars (t rest tok : string) (acc : list Z) :
  int_chars t →
  parse_items (t +:+ rest) tok acc = parse_items rest (tok +:+ t) acc.
Proof.
  revert tok. induction t as [|c t IH]; intros tok; simpl.
  - by rewrite append_empty_r.
  - intros [-> Ht]. rewrite IH by done. by rewrite append_assoc.
Qed.

Lemma parse_items_close (rest tok : string) (acc : list Z) :
  parse_items (")" +:+ rest) tok acc = z ← read_int tok; Some (acc ++ [z], rest).
Proof. reflexivity. Qed.

Lemma parse_items_separator (rest tok : string) (acc : list Z) :
  parse_items (", " +:+ rest) tok acc
  = z ← read_int tok; parse_items rest "" (acc ++ [z]).
Proof. reflexivity. Qed.

Lemma parse_items_text (xs acc : list Z) (rest : string) :
  xs ≠ [] →
  parse_items (items_text xs +:+ ")" +:+ rest) "" acc = Some (acc ++ xs, rest).
Proof.
  revert acc. induction xs as [|x [|y l] IH]; [done| |]; intros acc _.
  - change (items_text [x]) with (str_int x).
    rewrite parse_items_int_chars by apply int_chars_str_int.
    rewrite parse_items_close. simpl. by rewrite read_int_str_int.
  - rewrite items_text_cons, !append_assoc.
    rewrite parse_items_int_chars by apply int_chars_str_int.
    rewrite parse_items_separator. simpl. rewrite read_int_str_int. simpl.
    rewrite IH by done. by rewrite <- app_assoc.
Qed.

(** A non-empty collection is read back as sent. *)
Lemma parse_in_list_tuple (xs : list Z) :
  xs ≠ [] →
  parse_in_list (replace ",)" ")" (str_tuple xs) +:+ ";") = Some xs.
Proof.
  intros Hxs. rewrite replace_str_tuple, !append_assoc.
  pose proof (parse_items_text xs [] ";" Hxs) as Hitems.
  unfold parse_in_list. simpl in *. by rewrite Hitems.
Qed.

(** The empty collection is sent as [()], which is not a list. *)
Lemma parse_in_list_empty :
  parse_in_list (replace ",)" ")" (str_tuple []) +:+ ";") = None.
Proof. reflexivity. Qed.

End TextFacts.

(** ** Facts about the data-access helpers *)

Module DatabaseFacts.
Import Py Sql Database Invariants TextFacts.
#[local] Open Scope Z_scope.

Lemma parse_select_links_outgoing (t : string) :
  parse ("SELECT id, " +:+ "outgoing_links" +:+ " FROM links WHERE id IN " +:+ t)
  = ids ← parse_in_list t; Some (SelectLinks "outgoing_links" ids).
Proof. reflexivity. Qed.

Lemma parse_select_links_incoming (t : string) :
  parse ("SELECT id, " +:+ "incoming_links" +:+ " FROM links WHERE id IN " +:+ t)
  = ids ← parse_in_list t; Some (SelectLinks "incoming_links" ids).
Proof. reflexivity. Qed.

Lemma parse_select_sum_outgoing (t : string) :
  parse ("SELECT SUM(" +:+ "outgoing_links_count" +:+ ") FROM links WHERE id IN " +:+ t)
  = ids ← parse_in_list t; Some (SelectSum "outgoing_links_count" ids).
Proof. reflexivity. Qed.

Lemma parse_select_sum_incoming (t : string) :
  parse ("SELECT SUM(" +:+ "incoming_links_count" +:+ ") FROM links WHERE id IN " +:+ t)
  = ids ← parse_in_list t; Some (SelectSum "incoming_links_count" ids).
Proof. reflexivity. Qed.

(** The rows a links statement selects. *)
Lemma fetch_outgoing_links_rows (db : tables) (page_ids : list Z) :
  page_ids ≠ [] →
  fetch_outgoing_links db page_ids
  = Ok (map (λ l, [VInt (link_id l); VArray (outgoing_links l)]) (where_id_in db page_ids)).
Proof.
  intros H. unfold fetch_outgoing_links, fetch_links_helper, execute.
  rewrite parse_select_links_outgoing, parse_in_list_tuple by done. reflexivity.
Qed.

Lemma fetch_incoming_links_rows (db : tables) (page_ids : list Z) :
  page_ids ≠ [] →
  fetch_incoming_links db page_ids
  = Ok (map (λ l, [VInt (link_id l); VArray (incoming_links l)]) (where_id_in db page_ids)).
Proof.
  intros H. unfold fetch_incoming_links, fetch_links_helper, execute.
  rewrite parse_select_links_incoming, parse_in_list_tuple by done. reflexivity.
Qed.

Lemma elem_of_where_id_in (db : tables) (ids : list Z) (l : link) :
  l ∈ where_id_in db ids ↔ l ∈ links db ∧ link_id l ∈ ids.
Proof.
  unfold where_id_in, selected. rewrite list_elem_of_In, filter_In, <- list_elem_of_In.
  by rewrite bool_decide_eq_true.
Qed.

Lemma sum_values_outgoing (ls : list link) :
  sum_values (map (column_value c_outgoing_links_count) ls) = Some (total outgoing_links_count ls).
Proof. induction ls as [|l ls IH]; simpl; [done|]. by rewrite IH. Qed.

Lemma sum_values_incoming (ls : list link) :
  sum_values (map (column_value c_incoming_links_count) ls) = Some (total incoming_links_count ls).
Proof. induction ls as [|l ls IH]; simpl; [done|]. by rewrite IH. Qed.

(** What a count statement returns: [None] when no row is selected, the sum
    of the stored counters otherwise. *)
Lemma fetch_outgoing_links_count_value (db : tables) (page_ids : list Z) :
  page_ids ≠ [] →
  fetch_outgoing_links_count db page_ids
  = Ok (match where_id_in db page_ids with
        | [] => VNull
        | ls => VInt (total outgoing_links_count ls)
        end).
Proof.
  intros H. unfold fetch_outgoing_links_count, fetch_links_count_helper, execute.
  rewrite parse_select_sum_outgoing, parse_in_list_tuple by done. simpl.
  destruct (where_id_in db page_ids) as [|l ls] eqn:E; [done|].
  by rewrite sum_values_outgoing.
Qed.

Lemma fetch_incoming_links_count_value (db : tables) (page_ids : list Z) :
  page_ids ≠ [] →
  fetch_incoming_links_count db page_ids
  = Ok (match where_id_in db page_ids with
        | [] => VNull
        | ls => VInt (total incoming_links_count ls)
        end).
Proof.
  intros H. unfold fetch_incoming_links_count, fetch_links_count_helper, execute.
  rewrite parse_select_sum_incoming, parse_in_list_tuple by done. simpl.
  destruct (where_id_in db page_ids) as [|l ls] eqn:E; [done|].
  by rewrite sum_values_incoming.
Qed.

End DatabaseFacts.

(** ** Facts about paths and about one expansion *)

Module GraphFacts.
Import Sql Graph.

Section Chains.
Context (E : Z → Z → Prop).

Lemma chain_cons (x y : Z) (l : list Z) :
  chain E (x :: y :: l) ↔ E x y ∧ chain E (y :: l).
Proof. done. Qed.

Lemma chain_tail (x : Z) (l : list Z) : chain E (x :: l) → chain E l.
Proof. destruct l; simpl; tauto. Qed.

Lemma chain_app (l1 l2 : list Z) :
  chain E (l1 ++ l2)
  ↔ chain E l1 ∧ chain E l2 ∧ ∀ x y, last l1 = Some x → head l2 = Some y → E x y.
Proof.
  induction l1 as [|a [|b l1] IH].
  - simpl. naive_solver.
  - destruct l2 as [|c l2]; simpl; [naive_solver|].
    split; [intros [? ?]|intros (_ & ? & H)]; [|by eauto]. split_and!; [done..|].
    intros ?? [= <-] [= <-]. done.
  - change ((a :: b :: l1) ++ l2) with (a :: (b :: l1) ++ l2).
    change ((b :: l1) ++ l2) with (b :: l1 ++ l2) at 1.
    rewrite !chain_cons. change (b :: l1 ++ l2) with ((b :: l1) ++ l2).
    rewrite IH, last_cons_cons. naive_solver.
Qed.

Lemma chain_snoc (l : list Z) (v : Z) :
  chain E (l ++ [v]) ↔ chain E l ∧ ∀ u, last l = Some u → E u v.
Proof. rewrite chain_app. simpl. naive_solver. Qed.

End Chains.

Lemma chain_iff (E E' : Z → Z → Prop) (l : list Z) :
  (∀ x y, E x y ↔ E' x y) → chain E l ↔ chain E' l.
Proof.
  intros H. induction l as [|a [|b l] IH]; [done..|].
  rewrite !chain_cons, IH, H. done.
Qed.

Lemma chain_reverse (E : Z → Z → Prop) (l : list Z) :
  chain E (reverse l) ↔ chain (flip E) l.
Proof.
  induction l as [|a [|b l] IH]; [done..|].
  rewrite reverse_cons, chain_snoc, IH, chain_cons.
  rewrite last_reverse. simpl. naive_solver.
Qed.

Section Paths.
Context (E : Z → Z → Prop).

Lemma path_in_length (s t : Z) (p : list Z) : path_in E s t p → 1 ≤ length p.
Proof. intros (H & _). destruct p; simpl in *; [done|lia]. Qed.

Lemma path_in_singleton (s : Z) : path_in E s s [s].
Proof. done. Qed.

Lemma path_in_length_1 (s t : Z) (p : list Z) :
  path_in E s t p → length p = 1 → p = [s] ∧ t = s.
Proof.
  intros (Hh & Hl & _) Hlen. destruct p as [|x [|y p]]; simplify_eq/=. done.
Qed.

Lemma path_in_snoc (s u v : Z) (l : list Z) :
  path_in E s u l → E u v → path_in E s v (l ++ [v]).
Proof.
  intros (Hh & Hl & Hc) Huv. split_and!.
  - rewrite head_app, Hh. done.
  - apply last_snoc.
  - apply chain_snoc. split; [done|]. intros u' Hu'. congruence.
Qed.

Lemma path_in_snoc_inv (s v : Z) (l : list Z) :
  path_in E s v l → 2 ≤ length l →
  ∃ l' u, l = l' ++ [v] ∧ path_in E s u l' ∧ E u v.
Proof.
  intros (Hh & Hl & Hc) Hlen. apply last_Some in Hl as [l' ->].
  rewrite length_app in Hlen. simpl in Hlen.
  destruct (last l') as [u|] eqn:Hu.
  - exists l', u. apply chain_snoc in Hc as [Hc Hlast]. split_and!; [done| |by auto].
    split_and!; [|done..]. rewrite head_app in Hh. destruct (head l') eqn:?; [done|].
    destruct l'; simplify_eq/=.
  - apply last_None in Hu as ->. simpl in Hlen. lia.
Qed.

(** Two paths that share an end make one path. *)
Lemma path_in_join (s m t : Z) (p q : list Z) :
  path_in E s m p → path_in E m t q → path_in E s t (p ++ tail q).
Proof.
  intros (Hh & Hl & Hc) (Hh' & Hl' & Hc'). destruct q as [|m' q]; simplify_eq/=.
  split_and!.
  - rewrite head_app, Hh. done.
  - destruct q as [|y q]; [by rewrite app_nil_r; simplify_eq/=|].
    rewrite last_app_cons. by rewrite last_cons_cons in Hl'.
  - apply last_Some in Hl as [p' ->]. rewrite <- app_assoc. simpl.
    apply chain_app. split_and!.
    + apply chain_snoc in Hc as [? _]. done.
    + done.
    + intros x y Hx [= <-]. apply chain_snoc in Hc as [_ Hc]. auto.
Qed.

(** A path can be cut at any of its nodes. *)
Lemma path_in_split (s t : Z) (p : list Z) (k : nat) :
  path_in E s t p → k < length p →
  ∃ m p1 p2, p = p1 ++ m :: p2 ∧ length p1 = k
             ∧ path_in E s m (p1 ++ [m]) ∧ path_in E m t (m :: p2).
Proof.
  intros (Hh & Hl & Hc) Hk.
  destruct (lookup_lt_is_Some_2 p k Hk) as [m Hm].
  pose proof (take_drop_middle p k m Hm) as Hp.
  exists m, (take k p), (drop (S k) p). split; [done|]. split.
  { rewrite length_take. lia. }
  rewrite <- Hp in Hh, Hl, Hc.
  apply chain_app in Hc as (Hc1 & Hc2 & Hc3). split; split_and!.
  - rewrite head_app in *. destruct (head (take k p)); simplify_eq/=; done.
  - apply last_snoc.
  - apply chain_snoc. split; [done|]. intros u Hu. by apply Hc3.
  - done.
  - by rewrite last_app_cons in Hl.
  - done.
Qed.

End Paths.

Lemma path_in_iff (E E' : Z → Z → Prop) (s t : Z) (p : list Z) :
  (∀ x y, E x y ↔ E' x y) → path_in E s t p ↔ path_in E' s t p.
Proof. intros H. unfold path_in. by rewrite (chain_iff E E'). Qed.

Lemma path_in_reverse (E : Z → Z → Prop) (s t : Z) (p : list Z) :
  path_in E s t (reverse p) ↔ path_in (flip E) t s p.
Proof. unfold path_in. rewrite head_reverse, last_reverse, chain_reverse. tauto. Qed.

End GraphFacts.

Module ListFacts.

Lemma elem_of_flat_map {A B : Type} (f : A → list B) (l : list A) (y : B) :
  y ∈ flat_map f l ↔ ∃ x, x ∈ l ∧ y ∈ f x.
Proof.
  rewrite list_elem_of_In, in_flat_map.
  split; intros (x & ? & ?); exists x; by rewrite ?list_elem_of_In in *.
Qed.

Lemma elem_of_List_filter {A : Type} (f : A → bool) (l : list A) (x : A) :
  x ∈ List.filter f l ↔ x ∈ l ∧ f x = true.
Proof. by rewrite list_elem_of_In, filter_In, <- list_elem_of_In. Qed.

Lemma length_tail {A : Type} (l : list A) : length (tail l) = length l - 1.
Proof. destruct l; simpl; lia. Qed.

End ListFacts.

Module ExpandFacts.
Import Sql Graph Bfs Invariants ListFacts.

Lemma elem_of_links_from (nbr : Z → list Z) (frontier : list Z) (p v : Z) :
  (p, v) ∈ links_from nbr frontier ↔ p ∈ frontier ∧ v ∈ nbr p.
Proof.
  unfold links_from. rewrite elem_of_flat_map. split.
  - intros (n & Hn & Hv). apply list_elem_of_fmap in Hv as (w & [= -> ->] & Hw). done.
  - intros [Hp Hv]. exists p. split; [done|]. apply list_elem_of_fmap. by exists v.
Qed.

Lemma elem_of_snoc_link (done : list (Z * Z)) (p v p' w : Z) :
  (p', w) ∈ done ++ [(p, v)] ↔ (p', w) ∈ done ∨ (p' = p ∧ w = v).
Proof. rewrite elem_of_app, list_elem_of_singleton. naive_solver. Qed.

Section Expand.
Variable gen : nat.

Local Abbreviation step := (Invariants.step gen).
Local Abbreviation processed := (Invariants.processed gen).
Local Abbreviation new_entry := (Invariants.new_entry gen).

Lemma foldl_record_parent (node : Z) (vs : list Z) (acc : visited_map * list Z) :
  foldl (record_parent gen node) acc vs = foldl step acc ((λ v, (node, v)) <$> vs).
Proof. revert acc. induction vs as [|v vs IH]; intros acc; simpl; [done|]. by rewrite IH. Qed.

Lemma foldl_links_from (nbr : Z → list Z) (frontier : list Z) (acc : visited_map * list Z) :
  foldl (λ acc '(node, neighborSet), foldl (record_parent gen node) acc neighborSet)
        acc (map (λ n, (n, nbr n)) frontier)
  = foldl step acc (links_from nbr frontier).
Proof.
  revert acc. induction frontier as [|n fr IH]; intros acc; simpl; [done|].
  by rewrite IH, foldl_app, foldl_record_parent.
Qed.

(** A link into [v] leaves the entries of the other nodes as they are. *)
Lemma new_entry_other (done : list (Z * Z)) (p v w : Z)
    (entry : option (nat * gset Z)) :
  w ≠ v → new_entry done w entry → new_entry (done ++ [(p, v)]) w entry.
Proof.
  intros Hne. destruct entry as [[g ps]|]; simpl.
  - intros (Hg & [p1 Hp1] & Hps). split; [done|]. split.
    + exists p1. apply elem_of_snoc_link. by left.
    + intros p'. rewrite elem_of_snoc_link, Hps. naive_solver.
  - intros Hnone p'. rewrite elem_of_snoc_link. naive_solver.
Qed.

(** The first link into [v] makes [p] its only parent. *)
Lemma new_entry_first (done : list (Z * Z)) (p v : Z) :
  new_entry done v None → new_entry (done ++ [(p, v)]) v (Some (gen, {[p]})).
Proof.
  simpl. intros Hnone. split; [done|]. split.
  - exists p. apply elem_of_snoc_link. by right.
  - intros p'. rewrite elem_of_snoc_link, elem_of_singleton. naive_solver.
Qed.

(** A further link into [v] adds [p] to its parents. *)
Lemma new_entry_further (done : list (Z * Z)) (p v : Z) (parents : gset Z) :
  new_entry done v (Some (gen, parents)) →
  new_entry (done ++ [(p, v)]) v (Some (gen, {[p]} ∪ parents)).
Proof.
  simpl. intros (_ & [p0 Hp0] & Hps). split; [done|]. split.
  - exists p0. apply elem_of_snoc_link. by left.
  - intros p'. rewrite elem_of_snoc_link, elem_of_union, elem_of_singleton, Hps.
    naive_solver.
Qed.

Lemma processed_nil (visited0 : visited_map) : processed visited0 [] (visited0, []).
Proof.
  split; simpl.
  - done.
  - intros v ->. intros p Hp. by apply elem_of_nil in Hp.
  - intros v. split; [by intros ?%elem_of_nil|]. intros [_ [p Hp]]. by apply elem_of_nil in Hp.
  - constructor.
Qed.

(** Processing one more link keeps the description, provided that the nodes
    visited before belong to earlier generations. *)
Lemma processed_step (visited0 : visited_map) (done : list (Z * Z))
    (acc : visited_map * list Z) (p v : Z) :
  (∀ w g ps, visited0 !! w = Some (g, ps) → g < gen) →
  processed visited0 done acc →
  processed visited0 (done ++ [(p, v)]) (step acc (p, v)).
Proof.
  intros Hlt [Hold Hnew Hnext Hnodup]. destruct acc as [visited next]. simpl in *.
  unfold Invariants.step, record_parent. simpl.
  destruct (visited0 !! v) as [[g0 ps0]|] eqn:H0.
  - (* [v] was visited before: nothing changes. *)
    rewrite (Hold _ _ H0). rewrite decide_False by (apply Hlt in H0; lia).
    split; simpl; [done| | |done].
    + intros w Hw. apply new_entry_other; [congruence|by apply Hnew].
    + intros w. rewrite Hnext. split; intros [Hw [p1 Hp1]]; (split; [done|]).
      * exists p1. apply elem_of_snoc_link. by left.
      * apply elem_of_snoc_link in Hp1 as [Hp1|[-> ->]]; [eauto|congruence].
  - pose proof (Hnew v H0) as Hv.
    destruct (visited !! v) as [[g parents]|] eqn:Hvisited.
    + (* [v] was reached in this generation: one more parent. *)
      pose proof Hv as (-> & Hlink & _). rewrite decide_True by done.
      split; simpl; [| | |done].
      * intros w x Hw. rewrite lookup_insert_ne by congruence. by apply Hold.
      * intros w Hw. destruct (decide (v = w)) as [<-|Hne].
        -- rewrite lookup_insert_eq. by apply new_entry_further.
        -- rewrite lookup_insert_ne by done. apply new_entry_other; [done|by apply Hnew].
      * intros w. rewrite Hnext. split; intros [Hw [p1 Hp1]]; (split; [done|]).
        -- exists p1. apply elem_of_snoc_link. by left.
        -- apply elem_of_snoc_link in Hp1 as [Hp1|[-> ->]]; eauto.
    + (* [v] is new: it joins the next frontier. *)
      split; simpl.
      * intros w x Hw. rewrite lookup_insert_ne by congruence. by apply Hold.
      * intros w Hw. destruct (decide (v = w)) as [<-|Hne].
        -- rewrite lookup_insert_eq. by apply new_entry_first.
        -- rewrite lookup_insert_ne by done. apply new_entry_other; [done|by apply Hnew].
      * intros w. rewrite elem_of_app, list_elem_of_singleton, Hnext. split.
        -- intros [[? [p1 Hp1]]| ->]; (split; [done|]).
           ++ exists p1. apply elem_of_snoc_link. by left.
           ++ exists p. apply elem_of_snoc_link. by right.
        -- intros [Hw [p1 Hp1]]. apply elem_of_snoc_link in Hp1 as [Hp1|[-> ->]]; eauto.
      * apply NoDup_app. split; [done|]. split; [|apply NoDup_singleton].
        intros w Hw ->%list_elem_of_singleton. apply Hnext in Hw as [_ [p1 Hp1]].
        by apply (Hv p1).
Qed.

Lemma processed_foldl (visited0 : visited_map) (es : list (Z * Z)) :
  (∀ w g ps, visited0 !! w = Some (g, ps) → g < gen) →
  processed visited0 es (foldl step (visited0, []) es).
Proof.
  intros Hlt. induction es as [|[p v] es IH] using rev_ind.
  - apply processed_nil.
  - rewrite foldl_snoc. by apply processed_step.
Qed.

End Expand.
End ExpandFacts.

(** ** Facts about layered visited-maps *)

Module LayerFacts.
Import Sql Graph Bfs Invariants ListFacts GraphFacts ExpandFacts.

Section Layers.
Variable nbr : Z → list Z.
Variable root : Z.

Local Abbreviation follows := (Invariants.follows nbr).
Local Abbreviation layered := (Invariants.layered nbr root).
Local Abbreviation expand_with := (Invariants.expand_with nbr).

Lemma layered_initial : layered {[root := (0, ∅)]} [root] 0.
Proof.
  split.
  - intros v g ps [<- [= <- <-]]%lookup_singleton_Some. split_and!; [done| |].
    + exists [root]. done.
    + intros l Hl. apply path_in_length in Hl. lia.
  - intros v g ps p [<- [= <- <-]]%lookup_singleton_Some. split; [set_solver|].
    intros (g' & ps' & ? & _). lia.
  - intros v l Hl Hlen. pose proof (path_in_length _ _ _ _ Hl).
    destruct (path_in_length_1 _ _ _ _ Hl) as [_ ->]; [lia|].
    rewrite lookup_singleton_eq. eauto.
  - intros v. rewrite list_elem_of_singleton. split.
    + intros ->. exists ∅. apply lookup_singleton_eq.
    + intros [ps [<- _]%lookup_singleton_Some]. done.
Qed.

Lemma layered_expand (visited : visited_map) (frontier : list Z) (d : nat) :
  layered visited frontier d →
  layered (expand_with visited frontier (S d)).1 (expand_with visited frontier (S d)).2 (S d).
Proof.
  intros [Hsound Hparents Hcomplete Hfrontier].
  assert (Hlt : ∀ w g ps, visited !! w = Some (g, ps) → g < S d).
  { intros w g ps Hw. apply Hsound in Hw as [? _]. lia. }
  pose proof (processed_foldl (S d) visited (links_from nbr frontier) Hlt) as Hp.
  fold (expand_with visited frontier (S d)) in Hp.
  destruct (expand_with visited frontier (S d)) as [visited' next].
  destruct Hp as [Hold Hnew Hnext _]. simpl in *.
  assert (Hlink : ∀ p v, (p, v) ∈ links_from nbr frontier
                         ↔ (∃ ps, visited !! p = Some (d, ps)) ∧ v ∈ nbr p).
  { intros p v. by rewrite elem_of_links_from, Hfrontier. }
  assert (Hcases : ∀ v g ps, visited' !! v = Some (g, ps) →
            visited !! v = Some (g, ps)
            ∨ (visited !! v = None ∧ g = S d
               ∧ (∃ p, (p, v) ∈ links_from nbr frontier)
               ∧ ∀ p, p ∈ ps ↔ (p, v) ∈ links_from nbr frontier)).
  { intros v g ps Hv. destruct (visited !! v) as [x|] eqn:H0.
    - left. apply Hold in H0. congruence.
    - right. specialize (Hnew v H0). rewrite Hv in Hnew. naive_solver. }
  assert (Hback : ∀ v g ps, visited' !! v = Some (g, ps) → g ≤ d →
            visited !! v = Some (g, ps)).
  { intros v g ps Hv Hg. destruct (Hcases _ _ _ Hv) as [?|(_ & ? & _)]; [done|lia]. }
  split.
  - intros v g ps Hv. destruct (Hcases _ _ _ Hv) as [H0|(H0 & -> & [p Hp] & _)].
    + apply Hsound in H0 as (? & ? & ?). split_and!; [lia|done..].
    + apply Hlink in Hp as [[psp Hp] Hvp].
      apply Hsound in Hp as (_ & (lp & Hlp & Hlen) & _). split_and!; [done| |].
      * exists (lp ++ [v]). split; [by eapply path_in_snoc|].
        rewrite length_app. simpl. lia.
      * intros l Hl. destruct (decide (length l ≤ S d)) as [Hle|]; [|lia].
        destruct (Hcomplete v l Hl Hle) as [x Hx]. congruence.
  - intros v g ps p Hv. destruct (Hcases _ _ _ Hv) as [H0|(H0 & -> & _ & Hps)].
    + rewrite (Hparents _ _ _ p H0). split.
      * intros (g' & ps' & ? & Hp & ?). exists g', ps'. split_and!; [done| |done].
        by apply Hold.
      * intros (g' & ps' & -> & Hp & ?). exists g', ps'. split_and!; [done| |done].
        apply Hback; [done|]. apply Hsound in H0 as [? _]. lia.
    + rewrite Hps, Hlink. split.
      * intros [[psp Hp] ?]. exists d, psp. split_and!; [done| |done]. by apply Hold.
      * intros (g' & ps' & [= <-] & Hp & ?). split; [|done]. exists ps'. by apply Hback.
  - intros v l Hl Hlen. destruct (decide (length l ≤ S d)) as [Hle|Hgt].
    { destruct (Hcomplete v l Hl Hle) as [x Hx]. exists x. by apply Hold. }
    destruct (path_in_snoc_inv _ _ _ _ Hl) as (l' & u & -> & Hl' & Huv); [lia|].
    rewrite length_app in Hlen, Hgt. simpl in *.
    destruct (Hcomplete u l' Hl') as [[gu psu] Hu]; [lia|].
    destruct (visited !! v) as [x|] eqn:H0; [exists x; by apply Hold|].
    destruct (decide (gu = d)) as [->|Hne].
    + specialize (Hnew v H0). destruct (visited' !! v) as [x|]; [by eauto|].
      exfalso. apply (Hnew u). apply Hlink. eauto.
    + exfalso. pose proof (Hsound _ _ _ Hu) as (? & (lu & Hlu & Hlenu) & _).
      destruct (Hcomplete v (lu ++ [v])) as [x Hx].
      * by eapply path_in_snoc.
      * rewrite length_app. simpl. lia.
      * congruence.
  - intros v. rewrite Hnext. split.
    + intros [H0 Hp]. specialize (Hnew v H0).
      destruct (visited' !! v) as [[g ps]|]; [|naive_solver].
      destruct Hnew as (-> & _). eauto.
    + intros [ps Hv]. destruct (Hcases _ _ _ Hv) as [H0|(H0 & _ & Hp & _)]; [|done].
      apply Hsound in H0 as [? _]. lia.
Qed.

(** Once the frontier is empty, every node the root reaches is visited. *)
Lemma layered_exhausted (visited : visited_map) (d : nat) (v : Z) (l : list Z) :
  layered visited [] d → path_in follows root v l → is_Some (visited !! v).
Proof.
  intros [Hsound _ Hcomplete Hfrontier].
  remember (length l) as n eqn:Hn. revert v l Hn.
  induction n as [n IH] using lt_wf_ind. intros v l -> Hl.
  destruct (decide (length l ≤ 1)) as [Hle|Hgt].
  { apply (Hcomplete v l Hl). lia. }
  destruct (path_in_snoc_inv _ _ _ _ Hl) as (l' & u & -> & Hl' & Huv); [lia|].
  rewrite length_app in IH. simpl in IH.
  destruct (IH (length l') ltac:(lia) u l' eq_refl Hl') as [[gu psu] Hu].
  pose proof (Hsound _ _ _ Hu) as (Hgu & (lu & Hlu & Hlenu) & _).
  assert (gu ≠ d).
  { intros ->. assert (u ∈ @nil Z) as ?%elem_of_nil; [|done]. apply Hfrontier. eauto. }
  apply (Hcomplete v (lu ++ [v])).
  - by eapply path_in_snoc.
  - rewrite length_app. simpl. lia.
Qed.

(** The generation of a visited node is its distance from the root. *)
Lemma layered_reached (visited : visited_map) (frontier : list Z) (d : nat)
    (v : Z) (l : list Z) :
  layered visited frontier d → path_in follows root v l → length l ≤ S d →
  (∀ l', path_in follows root v l' → length l ≤ length l') →
  ∃ ps, visited !! v = Some (length l - 1, ps).
Proof.
  intros [Hsound _ Hcomplete _] Hl Hlen Hmin.
  destruct (Hcomplete v l Hl Hlen) as [[g ps] Hv].
  pose proof (Hsound _ _ _ Hv) as (_ & (l0 & Hl0 & Hlen0) & Hg).
  specialize (Hmin _ Hl0). specialize (Hg _ Hl).
  exists ps. rewrite Hv. do 2 f_equal. lia.
Qed.

(** A path to a node of generation [S g'] arrives through one of its
    parents. *)
Lemma layered_last_step (visited : visited_map) (frontier : list Z) (d : nat)
    (m u : Z) (g' : nat) (ps : gset Z) (l' : list Z) :
  layered visited frontier d →
  visited !! m = Some (S g', ps) →
  path_in follows root u l' → length l' = S g' → follows u m →
  u ∈ ps ∧ ∃ psu, visited !! u = Some (g', psu).
Proof.
  intros [Hsound Hparents Hcomplete _] Hm Hl' Hlen Hum.
  pose proof (Hsound _ _ _ Hm) as (Hg & _ & Hmin).
  destruct (Hcomplete u l' Hl') as [[gu psu] Hu]; [lia|].
  pose proof (Hsound _ _ _ Hu) as (_ & (lu & Hlu & Hlenu) & Hminu).
  specialize (Hminu _ Hl'). specialize (Hmin (lu ++ [m]) (path_in_snoc _ _ _ _ _ Hlu Hum)).
  rewrite length_app in Hmin. simpl in Hmin.
  assert (gu = g') as -> by lia. split; [|by eauto].
  apply (Hparents _ _ _ u Hm). eauto.
Qed.

Lemma layered_has_parent (visited : visited_map) (frontier : list Z) (d : nat)
    (m : Z) (g' : nat) (ps : gset Z) :
  layered visited frontier d → visited !! m = Some (S g', ps) → ps ≠ ∅.
Proof.
  intros Hlay Hm. pose proof Hlay as [Hsound _ _ _].
  pose proof (Hsound _ _ _ Hm) as (_ & (l & Hl & Hlen) & _).
  destruct (path_in_snoc_inv _ _ _ _ Hl) as (l' & u & -> & Hl' & Hum); [lia|].
  rewrite length_app in Hlen. simpl in Hlen.
  destruct (layered_last_step _ _ _ _ _ _ _ _ Hlay Hm Hl' ltac:(lia) Hum) as [Hu _].
  set_solver.
Qed.

Lemma layered_root (visited : visited_map) (frontier : list Z) (d : nat)
    (m : Z) (ps : gset Z) :
  layered visited frontier d → visited !! m = Some (0, ps) → m = root ∧ ps = ∅.
Proof.
  intros [Hsound Hparents _ _] Hm.
  pose proof (Hsound _ _ _ Hm) as (_ & (l & Hl & Hlen) & _).
  destruct (path_in_length_1 _ _ _ _ Hl Hlen) as [_ ->]. split; [done|].
  apply set_eq. intros p. rewrite (Hparents _ _ _ p Hm). set_solver.
Qed.

Lemma paths_to_root_unfold (visited : visited_map) (depth : nat) (node : Z)
    (suffix : list Z) :
  paths_to_root visited depth node suffix
  = match visited !! node with
    | None => []
    | Some (_, parents) =>
        if decide (parents = ∅) then [node :: suffix]
        else
          match depth with
          | O => []
          | S depth' =>
              flat_map (λ p, paths_to_root visited depth' p (node :: suffix))
                       (elements parents)
          end
    end.
Proof. by destruct depth. Qed.

(** The enumeration by parents yields the shortest paths from the root. *)
Lemma elem_of_paths_to_root (visited : visited_map) (frontier : list Z) (d : nat) :
  layered visited frontier d →
  ∀ depth m g ps suffix q,
    visited !! m = Some (g, ps) → g ≤ depth →
    q ∈ paths_to_root visited depth m suffix
    ↔ ∃ l, q = l ++ suffix ∧ path_in follows root m l ∧ length l = S g.
Proof.
  intros Hlay. pose proof Hlay as [Hsound Hparents Hcomplete _].
  induction depth as [|depth IH]; intros m g ps suffix q Hm Hg.
  all: rewrite paths_to_root_unfold, Hm.
  all: destruct g as [|g'];
    [destruct (layered_root _ _ _ _ _ Hlay Hm) as [-> ->]
    |pose proof (layered_has_parent _ _ _ _ _ _ Hlay Hm) as Hne]; try lia.
  1,2: rewrite decide_True by done; rewrite list_elem_of_singleton; split;
    [intros ->; exists [root]; done
    |intros (l & -> & Hl & Hlen);
     by destruct (path_in_length_1 _ _ _ _ Hl Hlen) as [-> _]].
  rewrite decide_False by done. rewrite elem_of_flat_map. split.
  - intros (p & Hp%elem_of_elements & Hq).
    apply (Hparents _ _ _ p Hm) in Hp as (g & psp & [= <-] & Hp & Hpm).
    apply (IH p g' psp) in Hq as (l' & -> & Hl' & Hlen); [|done|lia].
    exists (l' ++ [m]). split_and!.
    + by rewrite <- app_assoc.
    + by eapply path_in_snoc.
    + rewrite length_app. simpl. lia.
  - intros (l & -> & Hl & Hlen).
    destruct (path_in_snoc_inv _ _ _ _ Hl) as (l' & u & -> & Hl' & Hum); [lia|].
    rewrite length_app in Hlen. simpl in Hlen.
    destruct (layered_last_step _ _ _ _ _ _ _ _ Hlay Hm Hl' ltac:(lia) Hum)
      as [Hu [psu Hpu]].
    exists u. split; [by apply elem_of_elements|].
    apply (IH u g' psu); [done|lia|]. exists l'. split_and!; [|done|lia].
    by rewrite <- app_assoc.
Qed.

End Layers.
End LayerFacts.

(** ** Facts about the search *)

Module SearchFacts.
Import Sql Graph Bfs Invariants ListFacts GraphFacts ExpandFacts LayerFacts.

Lemma expand_expand_with (db : tables) (d : direction) (visited : visited_map)
    (frontier : list Z) (gen : nat) :
  expand db d visited frontier gen = expand_with (links_of db d) visited frontier gen.
Proof. unfold expand, neighbors, expand_with. apply foldl_links_from. Qed.

(** A node with a link, in either direction, has a record. *)
Lemma links_of_present (db : tables) (d : direction) (u v : Z) :
  v ∈ links_of db d u → present db u = true.
Proof.
  unfold links_of, present. destruct (record_of db u); [|done].
  by intros ?%elem_of_nil.
Qed.

(** In a store that records each link at both of its ends, the two ends of
    a path between two different nodes have a record. *)
Lemma path_present (db : tables) (u v : Z) (p : list Z) :
  consistent db → path db u v p → u ≠ v →
  present db u = true ∧ present db v = true.
Proof.
  intros Hconsistent Hp Hne. split.
  - destruct Hp as (Hhead & Hlast & Hchain).
    destruct p as [|x [|y p]]; simplify_eq/=.
    destruct Hchain as [Hxy _]. by eapply links_of_present.
  - pose proof (path_in_length _ _ _ _ Hp) as Hlen.
    destruct (decide (length p = 1)) as [Hone|Hmore].
    { by destruct (path_in_length_1 _ _ _ _ Hp Hone). }
    destruct (path_in_snoc_inv _ _ _ _ Hp) as (l & w & -> & _ & Hwv); [lia|].
    apply Hconsistent in Hwv. by eapply links_of_present.
Qed.

Section Search.
Context (db : tables) (source target : Z).
Context (choose : search_state → result direction) (sync : search_state → bool).
Hypothesis Hconsistent : consistent db.

Local Abbreviation search_inv := (Invariants.search_inv db source target).
Local Abbreviation universe := (Invariants.universe db source target).
Local Abbreviation within := (Invariants.within db source target).
Local Abbreviation potential := (Invariants.potential db source target).
Local Abbreviation outcome := (Invariants.outcome db source target).

Lemma search_inv_initial : search_inv (initial source target).
Proof. split; apply layered_initial. Qed.

Lemma search_inv_expand_side (d : direction) (σ : search_state) :
  search_inv σ → search_inv (expand_side db d σ).
Proof.
  intros [Hf Hb]. destruct d; unfold expand_side; rewrite expand_expand_with.
  - pose proof (layered_expand _ _ _ _ _ Hf) as H.
    destruct (expand_with _ _ _ _) as [visited next]. by split.
  - pose proof (layered_expand _ _ _ _ _ Hb) as H.
    destruct (expand_with _ _ _ _) as [visited next]. by split.
Qed.

(** Paths of the graph, seen from either side. *)
Lemma path_forward (v : Z) (l : list Z) :
  path_in (follows (links_of db forward)) source v l ↔ path db source v l.
Proof. done. Qed.

Lemma path_backward (v : Z) (l : list Z) :
  path_in (follows (links_of db backward)) target v l ↔ path db v target (reverse l).
Proof.
  unfold path. rewrite path_in_reverse. apply path_in_iff.
  intros x y. unfold follows, flip, edge. symmetry. apply Hconsistent.
Qed.

Lemma path_backward_reverse (v : Z) (l : list Z) :
  path db v target l ↔ path_in (follows (links_of db backward)) target v (reverse l).
Proof. by rewrite path_backward, reverse_involutive. Qed.

(** While the two sides have not met, every path is longer than what they
    cover together. *)
Lemma no_short_path (σ : search_state) (q : list Z) :
  search_inv σ → intersection σ = ∅ → path db source target q →
  S (forwardDistance σ + backwardDistance σ) < length q.
Proof.
  intros [Hf Hb] Hdisj Hq.
  destruct (decide (S (forwardDistance σ + backwardDistance σ) < length q)) as [|Hle]; [done|].
  exfalso. pose proof (path_in_length _ _ _ _ Hq) as Hlen.
  destruct (path_in_split _ _ _ _ (forwardDistance σ `min` (length q - 1)) Hq)
    as (m & q1 & q2 & -> & Hq1 & Hm1 & Hm2); [lia|].
  rewrite length_app in Hle, Hlen, Hq1. simpl in *.
  assert (m ∈ intersection σ) as Hm; [|set_solver].
  unfold intersection. rewrite elem_of_intersection, !elem_of_dom. split.
  - apply (layered_complete _ _ _ _ _ Hf m (q1 ++ [m])); [done|].
    rewrite length_app. simpl. lia.
  - apply (layered_complete _ _ _ _ _ Hb m (reverse (m :: q2))).
    + by apply path_backward_reverse.
    + rewrite length_reverse. simpl. lia.
Qed.

(** An empty frontier, before the two sides meet, means that there is no
    path. *)
Lemma no_path_forward (σ : search_state) (q : list Z) :
  search_inv σ → intersection σ = ∅ → forwardFrontier σ = [] →
  ¬ path db source target q.
Proof.
  intros [Hf Hb] Hdisj Hnil Hq. rewrite Hnil in Hf.
  assert (target ∈ intersection σ) as Hm; [|set_solver].
  unfold intersection. rewrite elem_of_intersection, !elem_of_dom. split.
  - by eapply layered_exhausted.
  - apply (layered_complete _ _ _ _ _ Hb target [target]); [done|simpl; lia].
Qed.

Lemma no_path_backward (σ : search_state) (q : list Z) :
  search_inv σ → intersection σ = ∅ → backwardFrontier σ = [] →
  ¬ path db source target q.
Proof.
  intros [Hf Hb] Hdisj Hnil Hq. rewrite Hnil in Hb.
  assert (source ∈ intersection σ) as Hm; [|set_solver].
  unfold intersection. rewrite elem_of_intersection, !elem_of_dom. split.
  - apply (layered_complete _ _ _ _ _ Hf source [source]); [done|simpl; lia].
  - eapply layered_exhausted; [done|]. by apply path_backward_reverse.
Qed.

(** A node visited from both sides lies on a path that is no longer than
    what the two sides cover together. *)
Lemma path_through_meeting (σ : search_state) (m : Z) :
  search_inv σ → m ∈ intersection σ →
  ∃ q, path db source target q
       ∧ length q ≤ S (forwardDistance σ + backwardDistance σ).
Proof.
  intros [Hf Hb]. unfold intersection.
  rewrite elem_of_intersection, !elem_of_dom. intros [[[gf psf] Hmf] [[gb psb] Hmb]].
  destruct (layered_sound _ _ _ _ _ Hf _ _ _ Hmf) as (? & (lf & Hlf & Hlenf) & _).
  destruct (layered_sound _ _ _ _ _ Hb _ _ _ Hmb) as (? & (lb & Hlb & Hlenb) & _).
  apply path_backward in Hlb.
  exists (lf ++ tail (reverse lb)). split.
  - by eapply path_in_join.
  - rewrite length_app, length_tail, length_reverse. lia.
Qed.

(** *** Reconstruction *)

Lemma elem_of_meeting_nodes (σ : search_state) (distance : nat) (m : Z) :
  m ∈ meeting_nodes σ distance
  ↔ m ∈ intersection σ
    ∧ reached (forwardVisited σ) m + reached (backwardVisited σ) m = distance.
Proof.
  unfold meeting_nodes.
  by rewrite elem_of_List_filter, elem_of_elements, bool_decide_eq_true.
Qed.

Lemma elem_of_paths_from_source (σ : search_state) (m : Z) (g : nat) (ps : gset Z)
    (p : list Z) :
  search_inv σ → forwardVisited σ !! m = Some (g, ps) →
  p ∈ paths_from_source σ m ↔ path db source m p ∧ length p = S g.
Proof.
  intros [Hf _] Hm. unfold paths_from_source, reached. rewrite Hm. simpl.
  rewrite (elem_of_paths_to_root _ _ _ _ _ Hf g m g ps [] p Hm (le_n _)).
  split.
  - intros (l & -> & Hl & Hlen). by rewrite app_nil_r.
  - intros [Hp Hlen]. exists p. by rewrite app_nil_r.
Qed.

Lemma elem_of_paths_to_target (σ : search_state) (m : Z) (g : nat) (ps : gset Z)
    (p : list Z) :
  search_inv σ → backwardVisited σ !! m = Some (g, ps) →
  p ∈ paths_to_target σ m ↔ path db m target p ∧ length p = S g.
Proof.
  intros [_ Hb] Hm. unfold paths_to_target, reached. rewrite Hm. simpl.
  rewrite list_elem_of_fmap. split.
  - intros (r & -> & Hr).
    apply (elem_of_paths_to_root _ _ _ _ _ Hb g m g ps [] r Hm (le_n _)) in Hr
      as (l & -> & Hl & Hlen).
    rewrite app_nil_r, length_reverse. split; [|done]. by apply path_backward.
  - intros [Hp Hlen]. exists (reverse p). split; [by rewrite reverse_involutive|].
    apply (elem_of_paths_to_root _ _ _ _ _ Hb g m g ps [] _ Hm (le_n _)).
    exists (reverse p). rewrite app_nil_r, length_reverse. split_and!; [done| |done].
    by apply path_backward_reverse.
Qed.

Lemma elem_of_reconstruct (σ : search_state) (distance : nat) (q : list Z) :
  q ∈ reconstruct σ distance
  ↔ ∃ m p r, m ∈ meeting_nodes σ distance ∧ p ∈ paths_from_source σ m
             ∧ r ∈ paths_to_target σ m ∧ q = p ++ tail r.
Proof.
  unfold reconstruct. rewrite elem_of_remove_dups, elem_of_flat_map. split.
  - intros (m & Hm & Hq). apply elem_of_flat_map in Hq as (p & Hp & Hq).
    apply list_elem_of_fmap in Hq as (r & -> & Hr). by exists m, p, r.
  - intros (m & p & r & Hm & Hp & Hr & ->). exists m. split; [done|].
    apply elem_of_flat_map. exists p. split; [done|].
    apply list_elem_of_fmap. by exists r.
Qed.

(** Once both sides cover the distance, the reconstruction yields exactly
    the paths of that length. *)
Lemma reconstruct_spec (σ : search_state) (distance : nat) (q : list Z) :
  search_inv σ →
  distance ≤ forwardDistance σ + backwardDistance σ →
  (∀ q', path db source target q' → S distance ≤ length q') →
  q ∈ reconstruct σ distance ↔ path db source target q ∧ length q = S distance.
Proof.
  intros Hinv Hcover Hmin. pose proof Hinv as [Hf Hb].
  rewrite elem_of_reconstruct. split.
  - intros (m & p & r & Hm & Hp & Hr & ->).
    apply elem_of_meeting_nodes in Hm as [Hm Hsum]. unfold intersection in Hm.
    rewrite elem_of_intersection, !elem_of_dom in Hm.
    destruct Hm as [[[gf psf] Hmf] [[gb psb] Hmb]].
    unfold reached in Hsum. rewrite Hmf, Hmb in Hsum. simpl in Hsum.
    apply (elem_of_paths_from_source _ _ _ _ _ Hinv Hmf) in Hp as [Hp Hlenp].
    apply (elem_of_paths_to_target _ _ _ _ _ Hinv Hmb) in Hr as [Hr Hlenr].
    split; [by eapply path_in_join|].
    rewrite length_app, length_tail. lia.
  - intros [Hq Hlen].
    destruct (path_in_split _ _ _ _ (forwardDistance σ `min` distance) Hq)
      as (m & q1 & q2 & -> & Hq1 & Hm1 & Hm2); [lia|].
    rewrite length_app in Hlen. simpl in Hlen.
    destruct (layered_reached _ _ _ _ _ m (q1 ++ [m]) Hf Hm1) as [psf Hmf].
    { rewrite length_app. simpl. lia. }
    { intros l' Hl'. pose proof (path_in_join _ _ _ _ _ _ Hl' Hm2) as Hj.
      apply Hmin in Hj. rewrite !length_app in *. simpl in *. lia. }
    destruct (layered_reached _ _ _ _ _ m (reverse (m :: q2)) Hb) as [psb Hmb].
    { by apply path_backward_reverse. }
    { rewrite length_reverse. simpl. lia. }
    { intros l' Hl'%path_backward. pose proof (path_in_join _ _ _ _ _ _ Hm1 Hl') as Hj.
      pose proof (path_in_length _ _ _ _ Hl') as Hge.
      apply Hmin in Hj. rewrite !length_app, length_tail, !length_reverse in *.
      simpl in *. lia. }
    rewrite length_app in Hmf. rewrite length_reverse in Hmb. simpl in Hmf, Hmb.
    exists m, (q1 ++ [m]), (m :: q2). split_and!.
    + apply elem_of_meeting_nodes. split.
      * unfold intersection. rewrite elem_of_intersection, !elem_of_dom. eauto.
      * unfold reached. rewrite Hmf, Hmb. simpl. lia.
    + apply (elem_of_paths_from_source _ _ _ _ _ Hinv Hmf). split; [done|].
      rewrite length_app. simpl. lia.
    + apply (elem_of_paths_to_target _ _ _ _ _ Hinv Hmb). split; [done|]. simpl. lia.
    + by rewrite <- app_assoc.
Qed.

(** *** Termination *)

Lemma links_of_mentioned (d : direction) (p v : Z) :
  v ∈ links_of db d p → v ∈ universe.
Proof.
  unfold links_of, record_of, universe, mentioned.
  rewrite elem_of_flat_map. intros (l & [Hl _]%elem_of_List_filter & Hv).
  apply elem_of_union_l, elem_of_list_to_set, elem_of_flat_map.
  exists l. split; [done|]. apply list_elem_of_further, elem_of_app.
  destruct d; auto.
Qed.

Lemma expand_with_dom (d : direction) (visited : visited_map) (frontier : list Z)
    (gen : nat) :
  (∀ w g ps, visited !! w = Some (g, ps) → g < gen) →
  dom visited ⊆ universe →
  dom (expand_with (links_of db d) visited frontier gen).1 ⊆ universe
  ∧ size (dom (expand_with (links_of db d) visited frontier gen).1)
    = size (dom visited) + length (expand_with (links_of db d) visited frontier gen).2.
Proof.
  intros Hlt Hsub.
  pose proof (processed_foldl gen visited (links_from (links_of db d) frontier) Hlt) as Hp.
  fold (expand_with (links_of db d) visited frontier gen) in Hp.
  destruct (expand_with (links_of db d) visited frontier gen) as [visited' next].
  destruct Hp as [Hold Hnew Hnext Hnodup]. simpl in *.
  assert (Hdom : dom visited' = dom visited ∪ list_to_set next).
  { apply set_eq. intros v.
    rewrite elem_of_union, elem_of_list_to_set, !elem_of_dom, Hnext. split.
    - intros [x Hx]. destruct (visited !! v) as [y|] eqn:H0; [by eauto|].
      right. split; [done|]. specialize (Hnew v H0). rewrite Hx in Hnew.
      destruct x. naive_solver.
    - intros [[x Hx]|[H0 [p Hp]]]; [by eauto|].
      specialize (Hnew v H0). destruct (visited' !! v); [by eauto|]. naive_solver. }
  rewrite Hdom. split.
  - apply union_subseteq. split; [done|]. intros v [_ [p Hp]]%elem_of_list_to_set%Hnext.
    apply elem_of_links_from in Hp as [_ Hv]. by eapply links_of_mentioned.
  - rewrite size_union; [by rewrite size_list_to_set|].
    intros v Hv [H0 _]%elem_of_list_to_set%Hnext. apply elem_of_dom in Hv as [x Hx].
    congruence.
Qed.

Lemma layered_generations (nbr : Z → list Z) (root : Z) (visited : visited_map)
    (frontier : list Z) (d : nat) :
  layered nbr root visited frontier d →
  ∀ w g ps, visited !! w = Some (g, ps) → g < S d.
Proof. intros [Hsound _ _ _] w g ps Hw. apply Hsound in Hw as [? _]. lia. Qed.

(** A round of the loop keeps the visited nodes within the universe and
    lowers the potential. *)
Lemma expand_side_potential (d : direction) (σ : search_state) :
  search_inv σ → within σ →
  forwardFrontier σ ≠ [] → backwardFrontier σ ≠ [] →
  within (expand_side db d σ) ∧ potential (expand_side db d σ) < potential σ.
Proof.
  intros [Hf Hb] [Hwf Hwb] Hnf Hnb. unfold potential at 2.
  rewrite bool_decide_eq_false_2 by tauto.
  destruct d; unfold expand_side, within, potential; rewrite expand_expand_with.
  - destruct (expand_with_dom forward _ (forwardFrontier σ) _
                (layered_generations _ _ _ _ _ Hf) Hwf) as [Hsub Hsize].
    destruct (expand_with _ _ _ _) as [visited next]. simpl in *.
    split; [done|]. pose proof (subseteq_size _ _ Hsub).
    pose proof (subseteq_size _ _ Hwb).
    destruct next as [|v next]; simpl in *;
      [rewrite ?bool_decide_eq_true_2 by auto|try case_bool_decide]; lia.
  - destruct (expand_with_dom backward _ (backwardFrontier σ) _
                (layered_generations _ _ _ _ _ Hb) Hwb) as [Hsub Hsize].
    destruct (expand_with _ _ _ _) as [visited next]. simpl in *.
    split; [done|]. pose proof (subseteq_size _ _ Hsub).
    pose proof (subseteq_size _ _ Hwf).
    destruct next as [|v next]; simpl in *;
      [rewrite ?bool_decide_eq_true_2 by auto|try case_bool_decide]; lia.
Qed.

Lemma expand_side_distance (d : direction) (σ : search_state) :
  forwardDistance (expand_side db d σ) + backwardDistance (expand_side db d σ)
  = S (forwardDistance σ + backwardDistance σ).
Proof.
  destruct d; unfold expand_side; destruct (expand _ _ _ _ _); simpl; lia.
Qed.

(** The nodes of the two frontiers have a record when the source and the
    target have one. *)
Lemma frontier_present (σ : search_state) (n : Z) :
  present db source = true → present db target = true → search_inv σ →
  n ∈ forwardFrontier σ ∨ n ∈ backwardFrontier σ → present db n = true.
Proof.
  intros Hs Ht [Hf Hb] [Hn|Hn].
  - apply (layered_frontier _ _ _ _ _ Hf) in Hn as [ps Hn].
    apply (layered_sound _ _ _ _ _ Hf) in Hn as (_ & (l & Hl & _) & _).
    destruct (decide (source = n)) as [<-|Hne]; [done|].
    apply path_forward in Hl. by destruct (path_present db source n l).
  - apply (layered_frontier _ _ _ _ _ Hb) in Hn as [ps Hn].
    apply (layered_sound _ _ _ _ _ Hb) in Hn as (_ & (l & Hl & _) & _).
    destruct (decide (n = target)) as [->|Hne]; [done|].
    apply path_backward in Hl. by destruct (path_present db n target (reverse l)).
Qed.

(** *** The loop *)

(** The choice of the side returns in every state the loop can reach. *)
Hypothesis Hchoose : ∀ σ,
  search_inv σ → forwardFrontier σ ≠ [] → backwardFrontier σ ≠ [] →
  ∃ d, choose σ = Ok d.

Lemma search_spec (fuel : nat) (σ : search_state) :
  search_inv σ → within σ → intersection σ = ∅ → potential σ < fuel →
  ∃ r, search db choose sync fuel σ = Ok (Some r) ∧ outcome r.
Proof.
  revert σ. induction fuel as [|fuel IH]; intros σ Hinv Hwithin Hdisj Hfuel; [lia|].
  simpl. case_bool_decide as Hempty.
  { eexists. split; [done|]. unfold outcome. simpl. intros q.
    destruct Hempty; [by apply (no_path_forward σ)|by apply (no_path_backward σ)]. }
  apply Decidable.not_or in Hempty as [Hnf Hnb].
  destruct (Hchoose σ Hinv Hnf Hnb) as [d ->]. simpl.
  destruct (expand_side_potential d σ Hinv Hwithin Hnf Hnb) as [Hwithin' Hpot].
  pose proof (search_inv_expand_side d σ Hinv) as Hinv'.
  pose proof (expand_side_distance d σ) as Hdist.
  set (σ' := expand_side db d σ) in *.
  destruct (decide (intersection σ' = ∅)) as [Hdisj'|Hmeet].
  { apply IH; [done..|lia]. }
  eexists. split; [done|]. unfold outcome. simpl.
  apply set_choose_L in Hmeet as [m Hm].
  destruct (path_through_meeting σ' m Hinv' Hm) as (q & Hq & Hlen).
  split_and!.
  - destruct (sync σ'); [by apply search_inv_expand_side|done].
  - destruct (sync σ'); [|done].
    rewrite (expand_side_distance (opposite d) σ'). lia.
  - intros q' Hq'. pose proof (no_short_path σ q' Hinv Hdisj Hq'). lia.
  - by exists q.
Qed.

(** *** The engine *)

Lemma size_union_le (X Y : gset Z) : size (X ∪ Y) ≤ size X + size Y.
Proof.
  replace (X ∪ Y) with (X ∪ (Y ∖ X)).
  - rewrite size_union by set_solver.
    pose proof (subseteq_size (Y ∖ X) Y ltac:(set_solver)). lia.
  - apply set_eq. intros x. rewrite !elem_of_union, elem_of_difference.
    destruct (decide (x ∈ X)); naive_solver.
Qed.

Lemma size_list_to_set_le (l : list Z) : size (list_to_set l : gset Z) ≤ length l.
Proof.
  induction l as [|x l IH].
  - by rewrite list_to_set_nil, size_empty.
  - rewrite list_to_set_cons. pose proof (size_union_le {[x]} (list_to_set l)).
    rewrite size_singleton in *. simpl. lia.
Qed.

Lemma size_universe : size universe ≤ length (mentioned db) + 2.
Proof.
  unfold universe.
  pose proof (size_union_le (list_to_set (mentioned db)) {[source; target]}).
  pose proof (size_list_to_set_le (mentioned db)).
  pose proof (size_union_le {[source]} {[target]}). rewrite !size_singleton in *.
  lia.
Qed.

Lemma shortest_path_length (distance : nat) (p : list Z) :
  (∀ q, path db source target q → S distance ≤ length q) →
  (∃ q, path db source target q ∧ length q ≤ S distance) →
  shortest_path db source target p ↔ path db source target p ∧ length p = S distance.
Proof.
  intros Hmin (q0 & Hq0 & Hlen0). split.
  - intros [Hp Hshort]. split; [done|]. specialize (Hshort _ Hq0).
    specialize (Hmin _ Hp). lia.
  - intros [Hp Hlen]. split; [done|]. intros q Hq%Hmin. lia.
Qed.

(** The engine returns for two different nodes that have a record, and
    what it returns is a duplicate-free list of exactly the shortest paths,
    whatever the choice of sides; the list is not empty when there is a
    path. *)
Lemma shortestPaths_spec :
  source ≠ target → present db source = true → present db target = true →
  ∃ ps, shortestPaths db choose sync source target = Ok (Some ps)
        ∧ NoDup ps
        ∧ (∀ p, p ∈ ps ↔ shortest_path db source target p)
        ∧ ((∃ p, path db source target p) → ps ≠ []).
Proof.
  intros Hne Hs Ht. unfold shortestPaths.
  rewrite decide_False, Hs, Ht by done. cbn [negb].
  destruct (search_spec (rounds db) (initial source target)) as ([σ r] & -> & Hout).
  - apply search_inv_initial.
  - unfold within, initial, universe. simpl. rewrite !dom_singleton_L. set_solver.
  - unfold intersection, initial. simpl. rewrite !dom_singleton_L. set_solver.
  - unfold potential, rounds, initial. simpl. rewrite !dom_singleton_L, !size_singleton.
    pose proof size_universe. lia.
  - unfold outcome in Hout. simpl in *. destruct r as [distance|].
    + destruct Hout as (Hinv & Hcover & Hmin & Hex).
      exists (reconstruct σ distance). split_and!; [done|apply NoDup_remove_dups| |].
      * intros p. rewrite (shortest_path_length distance) by done.
        by apply reconstruct_spec.
      * intros _ Hnil. destruct Hex as (q & Hq & Hlen).
        assert (q ∈ reconstruct σ distance) as Hin.
        { apply reconstruct_spec; [done..|]. split; [done|]. apply Hmin in Hq. lia. }
        rewrite Hnil in Hin. by apply elem_of_nil in Hin.
    + exists []. split_and!; [done|constructor| |].
      * intros p. split; [by intros ?%elem_of_nil|]. intros [Hp _]. by apply Hout in Hp.
      * intros [p Hp]. by apply Hout in Hp.
Qed.

End Search.

(** From a node to itself the engine returns the trivial path, which is the
    only shortest one, before it looks at the store. *)
Lemma shortestPaths_same (db : tables) (choose : search_state → result direction)
    (sync : search_state → bool) (n : Z) :
  shortestPaths db choose sync n n = Ok (Some [[n]])
  ∧ ∀ p, p ∈ [[n]] ↔ shortest_path db n n p.
Proof.
  unfold shortestPaths. rewrite decide_True by done. split; [done|].
  intros p. rewrite list_elem_of_singleton. split.
  - intros ->. split; [done|]. intros q Hq%path_in_length. done.
  - intros [Hp Hshort]. specialize (Hshort [n] (path_in_singleton _ _)).
    pose proof (path_in_length _ _ _ _ Hp).
    apply (path_in_length_1 _ _ _ _ Hp). simpl in *. lia.
Qed.


(** The estimates of the wrapper are integers for frontiers whose nodes
    have a record, so that the choice by cost returns. *)
Lemma degree_sum_integer (db : tables) (d : direction) (frontier : list Z) :
  frontier ≠ [] → (∀ n, n ∈ frontier → present db n = true) →
  ∃ c, Database.degree_sum db d frontier = Ok (VInt c).
Proof.
  intros Hne Hpresent.
  assert (where_id_in db frontier ≠ []) as Hsel.
  { destruct frontier as [|n frontier]; [done|].
    specialize (Hpresent n (list_elem_of_here _ _)). unfold present in Hpresent.
    destruct (record_of db n) as [|l ls] eqn:Hrec; [done|].
    assert (l ∈ record_of db n) as Hl by (rewrite Hrec; apply list_elem_of_here).
    apply elem_of_List_filter in Hl as [Hl Hid%bool_decide_eq_true].
    assert (l ∈ where_id_in db (n :: frontier)) as Hin.
    { apply DatabaseFacts.elem_of_where_id_in. split; [done|].
      rewrite Hid. apply list_elem_of_here. }
    intros Hnil. rewrite Hnil in Hin. by apply elem_of_nil in Hin. }
  destruct d; simpl.
  - rewrite DatabaseFacts.fetch_outgoing_links_count_value by done.
    destruct (where_id_in db frontier); [done|by eauto].
  - rewrite DatabaseFacts.fetch_incoming_links_count_value by done.
    destruct (where_id_in db frontier); [done|by eauto].
Qed.

Lemma cost_based_returns (db : tables) (source target : Z) (σ : search_state) :
  consistent db → present db source = true → present db target = true →
  Invariants.search_inv db source target σ →
  forwardFrontier σ ≠ [] → backwardFrontier σ ≠ [] →
  ∃ d, cost_based (Database.degree_sum db) σ = Ok d.
Proof.
  intros Hdb Hs Ht Hinv Hnf Hnb. unfold cost_based.
  destruct (degree_sum_integer db forward (forwardFrontier σ) Hnf) as [f ->].
  { intros n Hn. apply (frontier_present db source target Hdb σ n); auto. }
  destruct (degree_sum_integer db backward (backwardFrontier σ) Hnb) as [b ->].
  { intros n Hn. apply (frontier_present db source target Hdb σ n); auto. }
  simpl. eauto.
Qed.

End SearchFacts.

(** ** The shortest-paths engine *)

Module EngineProperties.
Import Sql Graph Bfs Database ListFacts GraphFacts SearchFacts Scenarios.

Lemma elem_of_links_of (db : tables) (d : direction) (u v : Z) :
  v ∈ links_of db d u ↔ ∃ l, l ∈ links db ∧ link_id l = u ∧ v ∈ adjacency d l.
Proof.
  unfold links_of, record_of. rewrite elem_of_flat_map. split.
  - intros (l & [Hl Hu%bool_decide_eq_true]%elem_of_List_filter & Hv). eauto.
  - intros (l & Hl & Hu & Hv). exists l. split; [|done].
    apply elem_of_List_filter. by rewrite bool_decide_eq_true.
Qed.

Lemma consistentb_consistent (db : tables) : consistentb db = true → consistent db.
Proof.
  unfold consistentb, consistent. rewrite forallb_forall. intros H u v. split.
  - intros (l & Hl & <- & Hv)%elem_of_links_of.
    apply list_elem_of_In, H, andb_prop in Hl as [Hout _].
    rewrite forallb_forall in Hout. apply list_elem_of_In, Hout in Hv.
    by apply bool_decide_eq_true in Hv.
  - intros (l & Hl & <- & Hv)%elem_of_links_of.
    apply list_elem_of_In, H, andb_prop in Hl as [_ Hin].
    rewrite forallb_forall in Hin. apply list_elem_of_In, Hin in Hv.
    by apply bool_decide_eq_true in Hv.
Qed.

(** The engine, for any choice of sides that returns: for two different
    nodes that have a record it returns, and the list it returns has no
    duplicates, holds exactly the shortest paths, and is not empty when the
    target can be reached. *)
Lemma shortestPaths_correct (db : tables) (choose : search_state → result direction)
    (sync : search_state → bool) (source target : Z) :
  consistentb db = true →
  source ≠ target → present db source = true → present db target = true →
  (∀ σ, Invariants.search_inv db source target σ →
        forwardFrontier σ ≠ [] → backwardFrontier σ ≠ [] → ∃ d, choose σ = Ok d) →
  ∃ ps, shortestPaths db choose sync source target = Ok (Some ps)
        ∧ NoDup ps
        ∧ (∀ p, p ∈ ps ↔ shortest_path db source target p)
        ∧ ((∃ p, path db source target p) → ps ≠ []).
Proof.
  intros H%consistentb_consistent Hne Hs Ht Hchoose. by apply shortestPaths_spec.
Qed.

(** The engine that chooses by the counts of the wrapper. *)
Lemma breadth_first_search_correct (db : tables) (sync : search_state → bool)
    (source target : Z) :
  consistentb db = true →
  source ≠ target → present db source = true → present db target = true →
  ∃ ps, breadth_first_search sync (degree_sum db) source target db = Ok (Some ps)
        ∧ NoDup ps
        ∧ (∀ p, p ∈ ps ↔ shortest_path db source target p)
        ∧ ((∃ p, path db source target p) → ps ≠ []).
Proof.
  intros Hdb Hne Hs Ht. apply shortestPaths_correct; [done..|].
  intros σ. apply cost_based_returns; [by apply consistentb_consistent|done..].
Qed.

Lemma compute_shortest_paths_valid (validate_page_id : Z → result unit)
    (sync : search_state → bool) (db : tables) (source target : Z) :
  validate_page_id source = Ok () → validate_page_id target = Ok () →
  compute_shortest_paths validate_page_id sync db source target
  = breadth_first_search sync (degree_sum db) source target db.
Proof. unfold compute_shortest_paths. by intros -> ->. Qed.

(** C1. For every store that records each link at both of its ends and every
    pair of valid page IDs joined by a path, [compute_shortest_paths] returns
    the list of all shortest paths from the source to the target: every member
    is a path no other path is shorter than, every such path is a member, no
    member occurs twice, and the list is not empty. *)
Theorem compute_shortest_paths_all_shortest
    (validate_page_id : Z → result unit) (sync : search_state → bool)
    (db : tables) (source target : Z) :
  validate_page_id source = Ok () →
  validate_page_id target = Ok () →
  consistentb db = true →
  (∃ p, path db source target p) →
  ∃ ps, compute_shortest_paths validate_page_id sync db source target = Ok (Some ps)
        ∧ ps ≠ []
        ∧ NoDup ps
        ∧ ∀ p, p ∈ ps ↔ shortest_path db source target p.
Proof.
  intros Hs Ht Hdb Hreach. rewrite compute_shortest_paths_valid by done.
  destruct (decide (source = target)) as [<-|Hne].
  - destruct (shortestPaths_same db (cost_based (degree_sum db)) sync source)
      as [Hsame Hmem].
    exists [[source]]. split_and!; [done|done|apply NoDup_singleton|done].
  - destruct Hreach as [p Hp].
    destruct (path_present db source target p (consistentb_consistent _ Hdb) Hp Hne)
      as [Hps Hpt].
    destruct (breadth_first_search_correct db sync source target Hdb Hne Hps Hpt)
      as (ps & Hps' & Hnodup & Hmem & Hnonempty).
    exists ps. split_and!; eauto.
Qed.

Lemma path_diamond : path diamond 1 4 [1; 2; 4]%Z.
Proof.
  repeat split; unfold edge; apply (bool_decide_unpack _); by vm_compute.
Qed.

Lemma compute_shortest_paths_all_shortest_witness :
  ∃ ps, compute_shortest_paths accept_all never_sync diamond 1 4 = Ok (Some ps)
        ∧ ps ≠ []
        ∧ NoDup ps
        ∧ ∀ p, p ∈ ps ↔ shortest_path diamond 1 4 p.
Proof.
  apply compute_shortest_paths_all_shortest.
  - reflexivity.
  - reflexivity.
  - reflexivity.
  - exists [1; 2; 4]%Z. apply path_diamond.
Defined.

(** C2. For every valid page ID [n], [compute_shortest_paths] from [n] to [n]
    returns exactly one path, the single-node sequence [[n]]. *)
Theorem compute_shortest_paths_same_page
    (validate_page_id : Z → result unit) (sync : search_state → bool)
    (db : tables) (n : Z) :
  validate_page_id n = Ok () →
  compute_shortest_paths validate_page_id sync db n n = Ok (Some [[n]]).
Proof.
  intros Hn. rewrite compute_shortest_paths_valid by done.
  unfold breadth_first_search, shortestPaths. by rewrite decide_True.
Qed.

Lemma compute_shortest_paths_same_page_witness :
  compute_shortest_paths positive_id always_sync diamond 3 3 = Ok (Some [[3%Z]]).
Proof. apply compute_shortest_paths_same_page. reflexivity. Defined.






(** The paths of the three scenarios of the specification. *)
Example diamond_paths :
  breadth_first_search never_sync (degree_sum diamond) 1 4 diamond
  = Ok (Some [[1; 3; 4]; [1; 2; 4]]%Z).
Proof. by vm_compute. Qed.

Example disconnected_paths :
  breadth_first_search never_sync (degree_sum disconnected) 1 4 disconnected
  = Ok (Some []).
Proof. by vm_compute. Qed.

Example shortcut_paths :
  breadth_first_search never_sync (degree_sum shortcut) 1 4 shortcut
  = Ok (Some [[1; 4]]%Z).
Proof. by vm_compute. Qed.

(** The three engines on the diamond. *)
Example diamond_by_every_choice :
  shortestPaths diamond (cost_based (degree_sum diamond)) never_sync 1 4
  = Ok (Some [[1; 3; 4]; [1; 2; 4]]%Z)
  ∧ shortestPaths diamond always_forward always_sync 1 4
    = Ok (Some [[1; 3; 4]; [1; 2; 4]]%Z)
  ∧ shortestPaths diamond always_backward never_sync 1 4
    = Ok (Some [[1; 3; 4]; [1; 2; 4]]%Z).
Proof. by vm_compute. Qed.

(** The three engines between two pages that have no record. *)
Example absent_by_every_choice :
  shortestPaths empty (cost_based (degree_sum empty)) never_sync 1 2
  = Raise (invalid_argument 1)
  ∧ shortestPaths empty always_forward always_sync 1 2 = Raise (invalid_argument 1)
  ∧ shortestPaths empty always_backward never_sync 1 2 = Raise (invalid_argument 1).
Proof. by vm_compute. Qed.




(** The engine on a page that has no record. *)
Example absent_page :
  compute_shortest_paths positive_id never_sync diamond 1 9
  = Raise (ValueError ("Invalid page ID " +:+ Py.dquote +:+ "9" +:+ Py.dquote
                       +:+ " provided. Page ID does not exist.")).
Proof. by vm_compute. Qed.

End EngineProperties.

(** ** The batched reads of the store *)

Module StoreProperties.
Import Sql Database Invariants DatabaseFacts ListFacts Scenarios.
#[local] Open Scope Z_scope.

(** The page 5 is requested and has no record, and the result has no entry
    for it: not every requested ID gets an entry (C4). *)
Lemma fetch_outgoing_links_no_record :
  fetch_outgoing_links one_record [1; 5]
  = Ok [[VInt 1; VArray [2; 3]]].
Proof. by vm_compute. Qed.

Lemma elem_of_selected_rows (db : tables) (page_ids : list Z) (f : link → list Z)
    (n : Z) (ns : list Z) :
  [VInt n; VArray ns] ∈ map (λ l, [VInt (link_id l); VArray (f l)]) (where_id_in db page_ids)
  ↔ n ∈ page_ids ∧ ∃ l, l ∈ links db ∧ link_id l = n ∧ f l = ns.
Proof.
  change (map ?g ?l) with (g <$> l). rewrite list_elem_of_fmap. split.
  - intros (l & [= -> ->] & [Hl Hid]%elem_of_where_id_in). eauto.
  - intros (Hn & l & Hl & <- & <-). exists l. split; [done|].
    by apply elem_of_where_id_in.
Qed.

(** C4. For every non-empty collection of requested page IDs,
    [fetch_outgoing_links] and [fetch_incoming_links] return one entry for
    every record of the table [links] whose ID is requested, which carries the
    neighbours that the record lists in that direction (none, if it lists
    none); a requested ID without a record has no entry. *)
Theorem fetch_links_entries (db : tables) (page_ids : list Z) :
  page_ids ≠ [] →
  ∃ outgoing incoming,
    fetch_outgoing_links db page_ids = Ok outgoing
    ∧ fetch_incoming_links db page_ids = Ok incoming
    ∧ (∀ n ns, [VInt n; VArray ns] ∈ outgoing
               ↔ n ∈ page_ids ∧ ∃ l, l ∈ links db ∧ link_id l = n ∧ outgoing_links l = ns)
    ∧ (∀ n ns, [VInt n; VArray ns] ∈ incoming
               ↔ n ∈ page_ids ∧ ∃ l, l ∈ links db ∧ link_id l = n ∧ incoming_links l = ns).
Proof.
  intros H. eexists _, _. split_and!.
  - by apply fetch_outgoing_links_rows.
  - by apply fetch_incoming_links_rows.
  - intros n ns. apply elem_of_selected_rows.
  - intros n ns. apply elem_of_selected_rows.
Qed.

Lemma fetch_links_entries_witness :
  ∃ outgoing incoming,
    fetch_outgoing_links one_record [1; 5] = Ok outgoing
    ∧ fetch_incoming_links one_record [1; 5] = Ok incoming
    ∧ (∀ n ns, [VInt n; VArray ns] ∈ outgoing
               ↔ n ∈ [1; 5] ∧ ∃ l, l ∈ links one_record ∧ link_id l = n
                                    ∧ outgoing_links l = ns)
    ∧ (∀ n ns, [VInt n; VArray ns] ∈ incoming
               ↔ n ∈ [1; 5] ∧ ∃ l, l ∈ links one_record ∧ link_id l = n
                                    ∧ incoming_links l = ns).
Proof. apply fetch_links_entries. discriminate. Defined.

(** The links the wrapper fetches for a frontier are the links the engine is
    given by [Bfs.neighbors]. *)
Lemma fetch_links_neighbors (db : tables) (page_ids : list Z) (n v : Z) :
  page_ids ≠ [] →
  ∃ outgoing incoming,
    fetch_outgoing_links db page_ids = Ok outgoing
    ∧ fetch_incoming_links db page_ids = Ok incoming
    ∧ ((∃ ns, [VInt n; VArray ns] ∈ outgoing ∧ v ∈ ns)
       ↔ ∃ ns, (n, ns) ∈ Bfs.neighbors db Graph.forward page_ids ∧ v ∈ ns)
    ∧ ((∃ ns, [VInt n; VArray ns] ∈ incoming ∧ v ∈ ns)
       ↔ ∃ ns, (n, ns) ∈ Bfs.neighbors db Graph.backward page_ids ∧ v ∈ ns).
Proof.
  intros H. eexists _, _. split_and!.
  - by apply fetch_outgoing_links_rows.
  - by apply fetch_incoming_links_rows.
  - split.
    + intros (ns & (Hn & l & Hl & Hid & <-)%elem_of_selected_rows & Hv).
      exists (Graph.links_of db Graph.forward n). split.
      * apply list_elem_of_fmap. by exists n.
      * apply EngineProperties.elem_of_links_of. by exists l.
    + intros (ns & (n' & [= <- ->] & Hn)%list_elem_of_fmap & Hv).
      apply EngineProperties.elem_of_links_of in Hv as (l & Hl & Hid & Hv).
      exists (outgoing_links l). split; [|done]. apply elem_of_selected_rows. eauto.
  - split.
    + intros (ns & (Hn & l & Hl & Hid & <-)%elem_of_selected_rows & Hv).
      exists (Graph.links_of db Graph.backward n). split.
      * apply list_elem_of_fmap. by exists n.
      * apply EngineProperties.elem_of_links_of. by exists l.
    + intros (ns & (n' & [= <- ->] & Hn)%list_elem_of_fmap & Hv).
      apply EngineProperties.elem_of_links_of in Hv as (l & Hl & Hid & Hv).
      exists (incoming_links l). split; [|done]. apply elem_of_selected_rows. eauto.
Qed.

(** C5. When none of the requested IDs has a record the count is [None],
    not an integer: here for the page 5, and for the pages 5 and 6. *)
Lemma fetch_links_count_no_record :
  fetch_outgoing_links_count one_record [5] = Ok VNull
  ∧ fetch_incoming_links_count one_record [5; 6] = Ok VNull.
Proof. by vm_compute. Qed.

(** When some requested ID has a record the count is the sum of the stored
    counters of the selected records. *)
Lemma fetch_links_count_sum (db : tables) (page_ids : list Z) :
  where_id_in db page_ids ≠ [] →
  fetch_outgoing_links_count db page_ids
  = Ok (VInt (total outgoing_links_count (where_id_in db page_ids)))
  ∧ fetch_incoming_links_count db page_ids
    = Ok (VInt (total incoming_links_count (where_id_in db page_ids))).
Proof.
  intros Hsel. assert (page_ids ≠ []) as Hids.
  { intros ->. apply Hsel. unfold where_id_in.
    by induction (links db) as [|l ls IH]. }
  rewrite fetch_outgoing_links_count_value, fetch_incoming_links_count_value by done.
  by destruct (where_id_in db page_ids).
Qed.

(** C10. For the empty collection of page IDs the four operations send a
    statement whose list is [()], which the store rejects: none of them
    returns an empty result or a zero sum. *)
Theorem fetch_links_empty_page_ids (db : tables) :
  fetch_outgoing_links db []
  = Raise (SyntaxError "SELECT id, outgoing_links FROM links WHERE id IN ();")
  ∧ fetch_incoming_links db []
    = Raise (SyntaxError "SELECT id, incoming_links FROM links WHERE id IN ();")
  ∧ fetch_outgoing_links_count db []
    = Raise (SyntaxError "SELECT SUM(outgoing_links_count) FROM links WHERE id IN ();")
  ∧ fetch_incoming_links_count db []
    = Raise (SyntaxError "SELECT SUM(incoming_links_count) FROM links WHERE id IN ();").
Proof. done. Qed.

End StoreProperties.

(** ** Title resolution and the route *)

Module RouteProperties.
Import Sql Database ListFacts Scenarios.

Lemma redirects_resolved_spec (db : tables) (r : redirect) (p : page) :
  redirects_resolved db = true →
  r ∈ redirects db → p ∈ pages db → page_id p = target_id r → is_redirect p = false.
Proof.
  unfold redirects_resolved. rewrite forallb_forall. intros H Hr Hp.
  apply list_elem_of_In, H in Hr. rewrite forallb_forall in Hr.
  apply list_elem_of_In, Hr, bool_decide_eq_true in Hp. done.
Qed.

Lemma elem_of_select_redirect_target (db : tables) (source : Z) (i : Z) (t : string) :
  (i, t) ∈ select_redirect_target db source
  ↔ ∃ r p, r ∈ redirects db ∧ source_id r = source
           ∧ p ∈ pages db ∧ page_id p = target_id r
           ∧ i = target_id r ∧ t = title p.
Proof.
  unfold select_redirect_target. rewrite elem_of_flat_map. split.
  - intros (r & [Hsrc Hr]%list_elem_of_filter & Hit).
    apply list_elem_of_fmap in Hit as (p & [= -> ->] & [Hid Hp]%list_elem_of_filter).
    by exists r, p.
  - intros (r & p & Hr & Hsrc & Hp & Hid & -> & ->). exists r. split.
    + by apply list_elem_of_filter.
    + apply list_elem_of_fmap. exists p. split; [done|]. by apply list_elem_of_filter.
Qed.

Section Resolution.
Context (get_sanitized_page_title : string → result string).
Context (get_readable_page_title : string → string).
Context (LOWER : string → string).

Local Abbreviation fetch_page :=
  (Database.fetch_page get_sanitized_page_title get_readable_page_title LOWER).

(** What [fetch_page] returns. *)
Lemma fetch_page_result (db : tables) (page_title : string) :
  redirects_resolved db = true →
  match fetch_page db page_title with
  | Ok (id, readable, followed) =>
      ∃ sanitized p,
        get_sanitized_page_title page_title = Ok sanitized
        ∧ p ∈ pages db ∧ page_id p = id ∧ is_redirect p = false
        ∧ readable = get_readable_page_title (title p)
        ∧ if followed
          then ∃ first r,
                 first ∈ pages db ∧ LOWER (title first) = LOWER sanitized
                 ∧ is_redirect first = true
                 ∧ r ∈ redirects db ∧ source_id r = page_id first
                 ∧ target_id r = id
          else LOWER (title p) = LOWER sanitized
  | Raise e =>
      get_sanitized_page_title page_title = Raise e
      ∨ e = does_not_exist page_title
  end.
Proof.
  intros Hdb. unfold Database.fetch_page.
  destruct (get_sanitized_page_title page_title) as [sanitized|e] eqn:Hs; simpl; [|by left].
  destruct (select_pages_by_title LOWER db sanitized) as [|first results] eqn:Hsel;
    [by right|].
  assert (Hin : ∀ p, p ∈ first :: results → p ∈ pages db ∧ LOWER (title p) = LOWER sanitized).
  { intros p. rewrite <- Hsel. unfold select_pages_by_title.
    rewrite list_elem_of_filter. tauto. }
  destruct (find _ (first :: results)) as [p|] eqn:Hexact.
  { apply find_some in Hexact as [Hp [_ Hnr%negb_true_iff]%andb_prop].
    apply list_elem_of_In, Hin in Hp as [Hp Hlow]. by exists sanitized, p. }
  destruct (find (λ p, negb (is_redirect p)) (first :: results)) as [p|] eqn:Hany.
  { apply find_some in Hany as [Hp Hnr%negb_true_iff].
    apply list_elem_of_In, Hin in Hp as [Hp Hlow]. by exists sanitized, p. }
  destruct (head (select_redirect_target db (page_id first))) as [[i t]|] eqn:Hhead;
    [|by right].
  apply head_Some_elem_of, elem_of_select_redirect_target in Hhead
    as (r & p & Hr & Hsrc & Hp & Hid & -> & ->).
  simpl. exists sanitized, p. split_and!; [done|done|done| |done|].
  - by eapply redirects_resolved_spec.
  - exists first, r. destruct (Hin first) as [Hf Hlow]; [apply list_elem_of_here|].
    split_and!; [done|done| |done|done|done].
    pose proof (find_none _ _ Hany first (or_introl eq_refl)) as Hred.
    by apply negb_false_iff in Hred.
Qed.

(** No page of that title: [fetch_page] raises. *)
Lemma fetch_page_unknown (db : tables) (page_title sanitized : string) :
  get_sanitized_page_title page_title = Ok sanitized →
  (∀ p, p ∈ pages db → LOWER (title p) ≠ LOWER sanitized) →
  fetch_page db page_title = Raise (does_not_exist page_title).
Proof.
  intros Hs Hnone. unfold Database.fetch_page. rewrite Hs. simpl.
  destruct (select_pages_by_title LOWER db sanitized) as [|first results] eqn:Hsel; [done|].
  exfalso. assert (first ∈ select_pages_by_title LOWER db sanitized) as Hf.
  { rewrite Hsel. apply list_elem_of_here. }
  apply list_elem_of_filter in Hf as [Hlow Hf]. by apply (Hnone first).
Qed.

(** A page that is not a redirect matches: [fetch_page] returns such a
    page. *)
Lemma fetch_page_direct (db : tables) (page_title sanitized : string) :
  get_sanitized_page_title page_title = Ok sanitized →
  (∃ p, p ∈ pages db ∧ LOWER (title p) = LOWER sanitized ∧ is_redirect p = false) →
  ∃ p, p ∈ pages db ∧ LOWER (title p) = LOWER sanitized ∧ is_redirect p = false
       ∧ fetch_page db page_title = Ok (page_id p, get_readable_page_title (title p), false).
Proof.
  intros Hs (p & Hp & Hlow & Hnr). unfold Database.fetch_page. rewrite Hs. simpl.
  assert (p ∈ select_pages_by_title LOWER db sanitized) as Hmatch
    by by apply list_elem_of_filter.
  destruct (select_pages_by_title LOWER db sanitized) as [|first results] eqn:Hsel;
    [by apply elem_of_nil in Hmatch|].
  assert (∀ q, In q (first :: results) →
               q ∈ pages db ∧ LOWER (title q) = LOWER sanitized) as Hin.
  { intros q Hq. apply list_elem_of_In in Hq. rewrite <- Hsel in Hq.
    apply list_elem_of_filter in Hq. tauto. }
  destruct (find _ (first :: results)) as [q|] eqn:Hexact.
  { apply find_some in Hexact as [Hq [_ Hqr%negb_true_iff]%andb_prop].
    exists q. by destruct (Hin q Hq). }
  destruct (find (λ p, negb (is_redirect p)) (first :: results)) as [q|] eqn:Hany.
  { apply find_some in Hany as [Hq Hqr%negb_true_iff].
    exists q. by destruct (Hin q Hq). }
  apply list_elem_of_In in Hmatch.
  pose proof (find_none _ _ Hany p Hmatch) as Hno. simpl in Hno. by rewrite Hnr in Hno.
Qed.

(** Only redirects match: [fetch_page] follows the redirect of the first
    of them, if it leads to a page of the store, and raises otherwise. *)
Lemma fetch_page_followed (db : tables) (page_title sanitized : string)
    (first : page) (others : list page) :
  get_sanitized_page_title page_title = Ok sanitized →
  select_pages_by_title LOWER db sanitized = first :: others →
  (∀ p, p ∈ first :: others → is_redirect p = true) →
  match head (select_redirect_target db (page_id first)) with
  | Some (id, t) =>
      fetch_page db page_title = Ok (id, get_readable_page_title t, true)
  | None => fetch_page db page_title = Raise (does_not_exist page_title)
  end.
Proof.
  intros Hs Hsel Hred. unfold Database.fetch_page. rewrite Hs. simpl. rewrite Hsel.
  destruct (find _ (first :: others)) as [q|] eqn:Hexact.
  { apply find_some in Hexact as [Hq [_ Hqr%negb_true_iff]%andb_prop].
    apply list_elem_of_In, Hred in Hq. congruence. }
  destruct (find (λ p, negb (is_redirect p)) (first :: others)) as [q|] eqn:Hany.
  { apply find_some in Hany as [Hq Hqr%negb_true_iff].
    apply list_elem_of_In, Hred in Hq. congruence. }
  by destruct (head (select_redirect_target db (page_id first))) as [[i t]|].
Qed.

End Resolution.

Section Route.
Context (get_sanitized_page_title : string → result string).
Context (get_readable_page_title : string → string).
Context (validate_page_id : Z → result unit).
Context (LOWER : string → string).
Context (sync : Bfs.search_state → bool).
Context (connection_execute : string → result unit).
Context (connection_commit : result unit).
Context (pages_info : Type).
Context (fetch_wikipedia_pages_info : list string → tables → result pages_info).
Context (database : tables).
Context (duration : string).

Local Abbreviation fetch_page :=
  (Database.fetch_page get_sanitized_page_title get_readable_page_title LOWER).
Local Abbreviation route :=
  (Server.shortest_paths_route get_sanitized_page_title get_readable_page_title
     validate_page_id LOWER sync connection_execute connection_commit
     pages_info fetch_wikipedia_pages_info database duration).

Lemma route_unknown_source (request : Server.request_json) (msg : string) :
  fetch_page database (Server.source request) = Raise (ValueError msg) →
  route request
  = Some (Raise (InvalidRequest
            ("Start page " +:+ Py.dquote +:+ Server.source request +:+ Py.dquote
             +:+ " does not exist. Please try another search.")), []).
Proof. unfold Server.shortest_paths_route. by intros ->. Qed.

Lemma route_unknown_target (request : Server.request_json) (found : Z * string * bool)
    (msg : string) :
  fetch_page database (Server.source request) = Ok found →
  fetch_page database (Server.target request) = Raise (ValueError msg) →
  route request
  = Some (Raise (InvalidRequest
            ("End page " +:+ Py.dquote +:+ Server.target request +:+ Py.dquote
             +:+ " does not exist. Please try another search.")), []).
Proof.
  unfold Server.shortest_paths_route. intros -> ->. by destruct found as [[? ?] ?].
Qed.

(** C7. For every title the sanitizer accepts, [fetch_page] returns or
    raises as follows.  When a page of the store that is not a redirect
    matches the title, the case of the letters being ignored, it returns
    the ID and the readable title of such a page, with the flag off.  When
    only redirects match, it looks at the first of them: if the store has a
    redirect from it to a page of the store, it returns the ID and the
    readable title of such a target, with the flag on, and the target is
    not a redirect provided that the redirects of the store lead to pages
    that are not redirects; if the store has none, it raises the
    [ValueError] for a title that does not exist.  It raises that
    [ValueError] when no page matches.  The route turns a [ValueError] for
    either title into an [InvalidRequest]. *)
Theorem fetch_page_resolves (page_title sanitized : string)
    (request : Server.request_json) :
  get_sanitized_page_title page_title = Ok sanitized →
  ((∃ p, p ∈ Sql.pages database ∧ LOWER (title p) = LOWER sanitized
         ∧ is_redirect p = false) →
   ∃ p, p ∈ Sql.pages database ∧ LOWER (title p) = LOWER sanitized
        ∧ is_redirect p = false
        ∧ fetch_page database page_title
          = Ok (page_id p, get_readable_page_title (title p), false))
  ∧ (∀ first others,
       select_pages_by_title LOWER database sanitized = first :: others →
       (∀ p, p ∈ first :: others → is_redirect p = true) →
       ((∃ r p, r ∈ redirects database ∧ source_id r = page_id first
                ∧ p ∈ Sql.pages database ∧ page_id p = target_id r) →
        ∃ r p, r ∈ redirects database ∧ source_id r = page_id first
               ∧ p ∈ Sql.pages database ∧ page_id p = target_id r
               ∧ fetch_page database page_title
                 = Ok (page_id p, get_readable_page_title (title p), true)
               ∧ (redirects_resolved database = true → is_redirect p = false))
       ∧ ((∀ r p, r ∈ redirects database → source_id r = page_id first →
                  p ∈ Sql.pages database → page_id p ≠ target_id r) →
          fetch_page database page_title
          = Raise (ValueError ("Invalid page title " +:+ page_title
                               +:+ " provided. Page title does not exist."))))
  ∧ ((∀ p, p ∈ Sql.pages database → LOWER (title p) ≠ LOWER sanitized) →
     fetch_page database page_title
     = Raise (ValueError ("Invalid page title " +:+ page_title
                          +:+ " provided. Page title does not exist.")))
  ∧ (∀ msg,
       fetch_page database (Server.source request) = Raise (ValueError msg) →
       route request
       = Some (Raise (InvalidRequest
                 ("Start page " +:+ Py.dquote +:+ Server.source request +:+ Py.dquote
                  +:+ " does not exist. Please try another search.")), []))
  ∧ (∀ found msg,
       fetch_page database (Server.source request) = Ok found →
       fetch_page database (Server.target request) = Raise (ValueError msg) →
       route request
       = Some (Raise (InvalidRequest
                 ("End page " +:+ Py.dquote +:+ Server.target request +:+ Py.dquote
                  +:+ " does not exist. Please try another search.")), [])).
Proof.
  intros Hs. split_and!.
  - by apply fetch_page_direct.
  - intros first others Hsel Hred.
    pose proof (fetch_page_followed get_sanitized_page_title get_readable_page_title
                  LOWER database page_title sanitized first others Hs Hsel Hred)
      as Hfollowed.
    destruct (head (select_redirect_target database (page_id first))) as [[i t]|]
      eqn:Hhead.
    + apply head_Some_elem_of, elem_of_select_redirect_target in Hhead
        as (r & p & Hr & Hsrc & Hp & Hid & -> & ->).
      split.
      * intros _. exists r, p. rewrite Hid. split_and!; try done.
        intros Hdb. by eapply redirects_resolved_spec.
      * intros Hnone. by destruct (Hnone r p).
    + split; [|done]. intros (r & p & Hr & Hsrc & Hp & Hid). exfalso.
      assert ((target_id r, title p) ∈ select_redirect_target database (page_id first))
        as Hin by (apply elem_of_select_redirect_target; by exists r, p).
      destruct (select_redirect_target database (page_id first)); [|done].
      by apply elem_of_nil in Hin.
  - by apply fetch_page_unknown.
  - intros msg. apply route_unknown_source.
  - intros found msg. apply route_unknown_target.
Qed.

(** The end of the route never fails because of the writer. *)
Lemma respond_result (source_page_id target_page_id : Z)
    (source_page_title target_page_title : string)
    (is_source_redirected is_target_redirected : bool) (paths : list (list Z)) :
  (paths = [] ∨ ∃ data, fetch_wikipedia_pages_info (Server.page_ids_set paths) database
                        = Ok data) →
  ∃ response log,
    Server.paths pages_info response = paths
    ∧ ∀ execute commit,
        Server.respond execute commit pages_info fetch_wikipedia_pages_info
          database duration source_page_id target_page_id
          source_page_title target_page_title
          is_source_redirected is_target_redirected paths
        = (Ok response,
           log ++ match insert_result execute commit
                          {| search_source_id := source_page_id;
                             search_target_id := target_page_id;
                             search_duration := duration;
                             search_paths := paths |} with
                  | Ok _ => []
                  | Raise e =>
                      [Server.error
                         ("An unexpected error occurred while inserting result: "
                          +:+ Py.str_exn e)]
                  end).
Proof.
  intros Hdata. unfold Server.respond.
  destruct paths as [|path paths'].
  - eexists _, [_].
    split; last (intros execute commit; simpl; by destruct (insert_result execute commit _)).
    done.
  - destruct Hdata as [[=]|[data ->]].
    eexists _, [].
    split; last (intros execute commit; simpl; by destruct (insert_result execute commit _)).
    done.
Qed.

(** C8. For every search that completes (both titles resolve, the engine
    returns its paths and the data of their pages is fetched), the route
    returns a response that holds those paths, whatever the writer of the
    analytics does; when [insert_result] raises, the error is logged, and the
    response is the one returned with any other writer. *)
Theorem insert_result_failure_is_logged (request : Server.request_json)
    (source_page_id target_page_id : Z) (source_page_title target_page_title : string)
    (is_source_redirected is_target_redirected : bool) (paths : list (list Z)) :
  fetch_page database (Server.source request)
  = Ok (source_page_id, source_page_title, is_source_redirected) →
  fetch_page database (Server.target request)
  = Ok (target_page_id, target_page_title, is_target_redirected) →
  compute_shortest_paths validate_page_id sync database source_page_id target_page_id
  = Ok (Some paths) →
  (paths = [] ∨ ∃ data, fetch_wikipedia_pages_info (Server.page_ids_set paths) database
                        = Ok data) →
  ∃ response log,
    route request = Some (Ok response, log)
    ∧ Server.paths pages_info response = paths
    ∧ (∀ e, insert_result connection_execute connection_commit
              {| search_source_id := source_page_id;
                 search_target_id := target_page_id;
                 search_duration := duration;
                 search_paths := paths |} = Raise e →
            Server.error ("An unexpected error occurred while inserting result: "
                          +:+ Py.str_exn e) ∈ log)
    ∧ (∀ other_execute other_commit, ∃ other_log,
         Server.shortest_paths_route get_sanitized_page_title get_readable_page_title
           validate_page_id LOWER sync other_execute other_commit
           pages_info fetch_wikipedia_pages_info database duration request
         = Some (Ok response, other_log)).
Proof.
  intros Hs Ht Hpaths Hdata.
  destruct (respond_result source_page_id target_page_id source_page_title
              target_page_title is_source_redirected is_target_redirected paths Hdata)
    as (response & log & Hresponse & Hrespond).
  unfold Server.shortest_paths_route. rewrite Hs, Ht, Hpaths.
  eexists response, _. split_and!.
  - by rewrite Hrespond.
  - done.
  - intros e ->. apply elem_of_app. right. apply list_elem_of_here.
  - intros other_execute other_commit. eexists. by rewrite Hrespond.
Qed.

End Route.

(** The redirect [A] of the scenario leads to [B], which is itself a
    redirect: [fetch_page] returns the ID of a page that is a redirect
    (C7). *)
Lemma fetch_page_redirect_chain :
  Database.fetch_page keep_title same_title same_title redirect_chain "A"
  = Ok (2%Z, "B", true)
  ∧ List.find (λ p, bool_decide (page_id p = 2%Z)) (Sql.pages redirect_chain)
    = Some {| page_id := 2; title := "B"; is_redirect := true |}.
Proof. split; reflexivity. Qed.

Lemma fetch_page_resolves_witness :
  ((∃ p, p ∈ Sql.pages wiki ∧ same_title (title p) = same_title "Bar"
         ∧ is_redirect p = false) →
   ∃ p, p ∈ Sql.pages wiki ∧ same_title (title p) = same_title "Bar"
        ∧ is_redirect p = false
        ∧ Database.fetch_page keep_title same_title same_title wiki "Bar"
          = Ok (page_id p, same_title (title p), false))
  ∧ (∀ first others,
       select_pages_by_title same_title wiki "Bar" = first :: others →
       (∀ p, p ∈ first :: others → is_redirect p = true) →
       ((∃ r p, r ∈ redirects wiki ∧ source_id r = page_id first
                ∧ p ∈ Sql.pages wiki ∧ page_id p = target_id r) →
        ∃ r p, r ∈ redirects wiki ∧ source_id r = page_id first
               ∧ p ∈ Sql.pages wiki ∧ page_id p = target_id r
               ∧ Database.fetch_page keep_title same_title same_title wiki "Bar"
                 = Ok (page_id p, same_title (title p), true)
               ∧ (redirects_resolved wiki = true → is_redirect p = false))
       ∧ ((∀ r p, r ∈ redirects wiki → source_id r = page_id first →
                  p ∈ Sql.pages wiki → page_id p ≠ target_id r) →
          Database.fetch_page keep_title same_title same_title wiki "Bar"
          = Raise (ValueError ("Invalid page title " +:+ "Bar"
                               +:+ " provided. Page title does not exist."))))
  ∧ ((∀ p, p ∈ Sql.pages wiki → same_title (title p) ≠ same_title "Bar") →
     Database.fetch_page keep_title same_title same_title wiki "Bar"
     = Raise (ValueError ("Invalid page title " +:+ "Bar"
                          +:+ " provided. Page title does not exist.")))
  ∧ (∀ msg,
       Database.fetch_page keep_title same_title same_title wiki "Bar"
       = Raise (ValueError msg) →
       Server.shortest_paths_route keep_title same_title (λ _, Ok ()) same_title
         (λ _, false) lost_connection (Ok ()) unit (λ _ _, Ok ()) wiki "0.25"
         {| Server.source := "Bar"; Server.target := "Baz" |}
       = Some (Raise (InvalidRequest
                 ("Start page " +:+ Py.dquote +:+ "Bar" +:+ Py.dquote
                  +:+ " does not exist. Please try another search.")), []))
  ∧ (∀ found msg,
       Database.fetch_page keep_title same_title same_title wiki "Bar" = Ok found →
       Database.fetch_page keep_title same_title same_title wiki "Baz"
       = Raise (ValueError msg) →
       Server.shortest_paths_route keep_title same_title (λ _, Ok ()) same_title
         (λ _, false) lost_connection (Ok ()) unit (λ _ _, Ok ()) wiki "0.25"
         {| Server.source := "Bar"; Server.target := "Baz" |}
       = Some (Raise (InvalidRequest
                 ("End page " +:+ Py.dquote +:+ "Baz" +:+ Py.dquote
                  +:+ " does not exist. Please try another search.")), [])).
Proof.
  apply (fetch_page_resolves keep_title same_title (λ _, Ok ()) same_title
           (λ _, false) lost_connection (Ok ()) unit (λ _ _, Ok ()) wiki "0.25"
           "Bar" "Bar" {| Server.source := "Bar"; Server.target := "Baz" |}).
  reflexivity.
Defined.

(** The title resolution on the scenario: the title of the page, the title
    of the redirect, and a title that no page has. *)
Example fetch_page_on_wiki :
  Database.fetch_page keep_title same_title same_title wiki "Foo" = Ok (1%Z, "Foo", false)
  ∧ Database.fetch_page keep_title same_title same_title wiki "Bar" = Ok (1%Z, "Foo", true)
  ∧ Database.fetch_page keep_title same_title same_title wiki "Baz"
    = Raise (ValueError ("Invalid page title " +:+ "Baz"
                         +:+ " provided. Page title does not exist.")).
Proof. split_and!; reflexivity. Qed.

Lemma insert_result_failure_is_logged_witness :
  ∃ response log,
    Server.shortest_paths_route keep_title same_title (λ _, Ok ()) same_title
      (λ _, false) lost_connection (Ok ()) unit (λ _ _, Ok ()) wiki "0.25"
      {| Server.source := "Bar"; Server.target := "Foo" |}
    = Some (Ok response, log)
    ∧ Server.paths unit response = [[1%Z]]
    ∧ (∀ e, insert_result lost_connection (Ok ())
              {| search_source_id := 1;
                 search_target_id := 1;
                 search_duration := "0.25";
                 search_paths := [[1%Z]] |} = Raise e →
            Server.error ("An unexpected error occurred while inserting result: "
                          +:+ Py.str_exn e) ∈ log)
    ∧ (∀ other_execute other_commit, ∃ other_log,
         Server.shortest_paths_route keep_title same_title (λ _, Ok ()) same_title
           (λ _, false) other_execute other_commit unit (λ _ _, Ok ()) wiki "0.25"
           {| Server.source := "Bar"; Server.target := "Foo" |}
         = Some (Ok response, other_log)).
Proof.
  apply (insert_result_failure_is_logged keep_title same_title (λ _, Ok ()) same_title
           (λ _, false) lost_connection (Ok ()) unit (λ _ _, Ok ()) wiki "0.25"
           {| Server.source := "Bar"; Server.target := "Foo" |}
           1%Z 1%Z "Foo" "Foo" true false [[1%Z]]).
  - reflexivity.
  - reflexivity.
  - reflexivity.
  - right. by exists ().
Defined.

(** The route on the scenario: the redirect is followed, the trivial path is
    returned, and the lost connection of the writer is only logged. *)
Example route_with_lost_connection :
  Server.shortest_paths_route keep_title same_title (λ _, Ok ()) same_title
    (λ _, false) lost_connection (Ok ()) unit (λ _ _, Ok ()) wiki "0.25"
    {| Server.source := "Bar"; Server.target := "Foo" |}
  = Some (Ok {| Server.sourcePageTitle := "Foo";
                Server.targetPageTitle := "Foo";
                Server.isSourceRedirected := true;
                Server.isTargetRedirected := false;
                Server.paths := [[1%Z]];
                Server.pages := Server.pages_data unit () |},
          [Server.error
             ("An unexpected error occurred while inserting result: "
              +:+ "server closed the connection unexpectedly")]).
Proof. reflexivity. Qed.

End RouteProperties.

(** ** Facts about lines and their fields *)

Module LineFacts.
Import Py Invariants TextFacts.
#[local] Arguments String.append !_ _ / : simpl nomatch.
#[local] Arguments Ascii.eqb : simpl never.

Lemma split_not_nil (s : string) (sep : ascii) : split s sep ≠ [].
Proof. induction s as [|c s IH]; simpl; [done|]. destruct (Ascii.eqb c sep); [done|]. by destruct (split s sep). Qed.

Lemma join_cons (sep f : string) (fs : list string) :
  fs ≠ [] → join sep (f :: fs) = f +:+ sep +:+ join sep fs.
Proof. by destruct fs. Qed.

Lemma join_split (s : string) (sep : ascii) :
  join (String sep EmptyString) (split s sep) = s.
Proof.
  induction s as [|c s IH]; [done|]. simpl.
  destruct (Ascii.eqb_spec c sep) as [->|Hne].
  - rewrite join_cons by apply split_not_nil. simpl. by rewrite IH.
  - pose proof (split_not_nil s sep) as Hnil.
    destruct (split s sep) as [|f fs]; [done|].
    destruct fs as [|g fs].
    + simpl in *. by rewrite IH.
    + rewrite join_cons by done. rewrite join_cons in IH by done.
      simpl. by rewrite <- IH.
Qed.

Lemma split_free (s : string) (sep : ascii) : free_of sep s → split s sep = [s].
Proof.
  induction s as [|c s IH]; simpl; [done|]. intros [Hc Hs].
  destruct (Ascii.eqb_spec c sep); [done|]. by rewrite IH.
Qed.

Lemma split_append (f rest : string) (sep : ascii) :
  free_of sep f → split (f +:+ String sep rest) sep = f :: split rest sep.
Proof.
  induction f as [|c f IH]; simpl.
  - intros _. by rewrite Ascii.eqb_refl.
  - intros [Hc Hf]. destruct (Ascii.eqb_spec c sep); [done|]. by rewrite IH.
Qed.

Lemma split_join (fields : list string) (sep : ascii) :
  fields ≠ [] → Forall (free_of sep) fields →
  split (join (String sep EmptyString) fields) sep = fields.
Proof.
  induction fields as [|f [|g fs] IH]; [done| |]; intros _ Hfree.
  - apply Forall_cons in Hfree as [Hf _]. by apply split_free.
  - apply Forall_cons in Hfree as [Hf Hrest].
    rewrite join_cons by done.
    change (split (f +:+ String sep (join (String sep EmptyString) (g :: fs))) sep
            = f :: g :: fs).
    rewrite split_append by done. by rewrite IH.
Qed.

Lemma Forall_free_split (s : string) (sep : ascii) : Forall (free_of sep) (split s sep).
Proof.
  induction s as [|c s IH]; simpl; [by repeat constructor|].
  destruct (Ascii.eqb_spec c sep) as [->|Hne].
  - by constructor.
  - destruct (split s sep) as [|f fs]; [by repeat constructor|].
    apply Forall_cons in IH as [Hf Hfs]. by constructor.
Qed.

Lemma rstrip_rstrip (s chars : string) : rstrip (rstrip s chars) chars = rstrip s chars.
Proof.
  induction s as [|c s IH]; simpl; [done|].
  destruct (rstrip s chars) as [|d r] eqn:Hr.
  - destruct (occurs c chars) eqn:Hc; simpl; [done|]. by rewrite Hc.
  - simpl in *. by rewrite IH.
Qed.

(** Stripping undoes the end of line that [print] adds. *)
Lemma rstrip_append (s chars : string) (c : ascii) :
  occurs c chars = true →
  rstrip (s +:+ String c EmptyString) chars = rstrip s chars.
Proof.
  intros Hc. induction s as [|d s IH]; simpl.
  - by rewrite Hc.
  - by rewrite IH.
Qed.

Lemma replace_underscore_cons (c : ascii) (s : string) :
  replace "_" " " (String c s)
  = String (if Ascii.eqb c "_" then " "%char else c) (replace "_" " " s).
Proof.
  unfold replace. simpl. rewrite (Ascii.eqb_sym "_" c).
  destruct (Ascii.eqb c "_"); by destruct s.
Qed.

(** Two integers that print alike are equal. *)
#[global] Instance str_int_inj : Inj (=) (=) str_int.
Proof.
  intros m n H. apply (f_equal Sql.read_int) in H.
  rewrite !read_int_str_int in H. congruence.
Qed.

End LineFacts.

(** ** Further properties of the batched reads *)

Module BatchProperties.
Import Py Sql Database Invariants TextFacts DatabaseFacts ListFacts Scenarios.
#[local] Open Scope Z_scope.

Lemma where_id_in_same_ids (db : tables) (page_ids page_ids' : list Z) :
  (∀ n, n ∈ page_ids ↔ n ∈ page_ids') →
  where_id_in db page_ids = where_id_in db page_ids'.
Proof.
  intros Hsame. unfold where_id_in. induction (links db) as [|l ls IH]; [done|].
  simpl. rewrite IH. unfold selected.
  destruct (decide (link_id l ∈ page_ids)) as [Hin|Hout].
  - rewrite !bool_decide_eq_true_2; [done|by apply Hsame|done].
  - rewrite !bool_decide_eq_false_2; [done| |done]. by rewrite <- Hsame.
Qed.

Lemma where_id_in_nil (db : tables) : where_id_in db [] = [].
Proof. unfold where_id_in. by induction (links db). Qed.

(** X1. The four batched reads depend on the set of the requested IDs only:
    neither the order of the IDs nor an ID that is requested twice changes
    the entries returned or the sum of the counters. *)
Theorem fetch_links_same_ids (db : tables) (page_ids page_ids' : list Z) :
  page_ids ≠ [] → page_ids' ≠ [] →
  (∀ n, n ∈ page_ids ↔ n ∈ page_ids') →
  fetch_outgoing_links db page_ids = fetch_outgoing_links db page_ids'
  ∧ fetch_incoming_links db page_ids = fetch_incoming_links db page_ids'
  ∧ fetch_outgoing_links_count db page_ids = fetch_outgoing_links_count db page_ids'
  ∧ fetch_incoming_links_count db page_ids = fetch_incoming_links_count db page_ids'.
Proof.
  intros H H' Hsame.
  rewrite !fetch_outgoing_links_rows, !fetch_incoming_links_rows by done.
  rewrite !fetch_outgoing_links_count_value, !fetch_incoming_links_count_value by done.
  by rewrite (where_id_in_same_ids db page_ids page_ids').
Qed.

Lemma fetch_links_same_ids_witness :
  fetch_outgoing_links diamond [1; 4] = fetch_outgoing_links diamond [4; 1; 4]
  ∧ fetch_incoming_links diamond [1; 4] = fetch_incoming_links diamond [4; 1; 4]
  ∧ fetch_outgoing_links_count diamond [1; 4] = fetch_outgoing_links_count diamond [4; 1; 4]
  ∧ fetch_incoming_links_count diamond [1; 4] = fetch_incoming_links_count diamond [4; 1; 4].
Proof.
  apply fetch_links_same_ids; [discriminate|discriminate|].
  intros n. rewrite !elem_of_cons, !elem_of_nil. tauto.
Defined.

(** X2. For every collection of IDs, one ID included, the statement that
    [fetch_links_helper] sends lists the IDs between parentheses, separated
    by a comma and a space, without the comma that Python prints after the
    single item of a tuple. *)
Theorem fetch_links_helper_statement (db : tables) (page_ids : list Z) (column : string) :
  fetch_links_helper db page_ids column
  = execute db ("SELECT id, " +:+ column +:+ " FROM links WHERE id IN ("
                +:+ String.concat ", " (map str_int page_ids) +:+ ");").
Proof.
  unfold fetch_links_helper. rewrite replace_str_tuple. unfold items_text.
  by rewrite !append_assoc.
Qed.

(** X3. When some requested ID has a record, the two counts are integers: the
    sums of the stored counters over the records whose ID is requested, each
    record counted once. *)
Theorem fetch_links_count_some_record (db : tables) (page_ids : list Z) (l : link) :
  l ∈ links db → link_id l ∈ page_ids →
  fetch_outgoing_links_count db page_ids
  = Ok (VInt (total outgoing_links_count
                (List.filter (λ l, bool_decide (link_id l ∈ page_ids)) (links db))))
  ∧ fetch_incoming_links_count db page_ids
    = Ok (VInt (total incoming_links_count
                  (List.filter (λ l, bool_decide (link_id l ∈ page_ids)) (links db)))).
Proof.
  intros Hl Hid.
  assert (l ∈ where_id_in db page_ids) as Hsel by by apply elem_of_where_id_in.
  assert (page_ids ≠ []) as Hids by (intros ->; by apply elem_of_nil in Hid).
  rewrite fetch_outgoing_links_count_value, fetch_incoming_links_count_value by done.
  change (List.filter _ (links db)) with (where_id_in db page_ids).
  destruct (where_id_in db page_ids); [by apply elem_of_nil in Hsel|done].
Qed.

Lemma fetch_links_count_some_record_witness :
  fetch_outgoing_links_count diamond [1; 2; 7]
  = Ok (VInt (total outgoing_links_count
                (List.filter (λ l, bool_decide (link_id l ∈ [1; 2; 7])) (links diamond))))
  ∧ fetch_incoming_links_count diamond [1; 2; 7]
    = Ok (VInt (total incoming_links_count
                  (List.filter (λ l, bool_decide (link_id l ∈ [1; 2; 7])) (links diamond)))).
Proof.
  apply (fetch_links_count_some_record diamond [1; 2; 7] (node 1 [2; 3] [])).
  - apply list_elem_of_here.
  - apply list_elem_of_here.
Defined.

Lemma NoDup_filter_ids (ids : list Z) (ls : list link) :
  NoDup (link_id <$> ls) → NoDup (link_id <$> List.filter (selected ids) ls).
Proof.
  induction ls as [|l ls IH]; [done|]. rewrite fmap_cons, NoDup_cons. intros [Hl Hls].
  simpl. destruct (selected ids l); [|by apply IH].
  rewrite fmap_cons, NoDup_cons. split; [|by apply IH].
  intros (l' & Hid & Hin)%list_elem_of_fmap. apply Hl, list_elem_of_fmap.
  exists l'. split; [done|]. apply list_elem_of_In in Hin.
  apply filter_In in Hin as [Hin _]. by apply list_elem_of_In.
Qed.

(** X4. When the IDs of the table [links] are distinct, the entries returned
    for a non-empty collection have distinct IDs, all of them requested, so
    that there are no more entries than requested IDs. *)
Theorem fetch_links_distinct_entries (db : tables) (page_ids : list Z) :
  NoDup (link_id <$> links db) → page_ids ≠ [] →
  ∃ ls,
    fetch_outgoing_links db page_ids
    = Ok (map (λ l, [VInt (link_id l); VArray (outgoing_links l)]) ls)
    ∧ fetch_incoming_links db page_ids
      = Ok (map (λ l, [VInt (link_id l); VArray (incoming_links l)]) ls)
    ∧ NoDup (link_id <$> ls)
    ∧ (∀ l, l ∈ ls → link_id l ∈ page_ids)
    ∧ (length ls ≤ length page_ids)%nat.
Proof.
  intros Hkey Hids. exists (where_id_in db page_ids).
  assert (NoDup (link_id <$> where_id_in db page_ids)) as Hnodup
    by by apply NoDup_filter_ids.
  assert (∀ l, l ∈ where_id_in db page_ids → link_id l ∈ page_ids) as Hreq.
  { by intros l [_ ?]%elem_of_where_id_in. }
  split_and!; [by apply fetch_outgoing_links_rows|by apply fetch_incoming_links_rows
              |done|done|].
  rewrite <- (length_fmap link_id). apply submseteq_length, NoDup_submseteq; [done|].
  intros n (l & -> & Hl)%list_elem_of_fmap. by apply Hreq.
Qed.

Lemma fetch_links_distinct_entries_witness :
  ∃ ls,
    fetch_outgoing_links diamond [1; 7]
    = Ok (map (λ l, [VInt (link_id l); VArray (outgoing_links l)]) ls)
    ∧ fetch_incoming_links diamond [1; 7]
      = Ok (map (λ l, [VInt (link_id l); VArray (incoming_links l)]) ls)
    ∧ NoDup (link_id <$> ls)
    ∧ (∀ l, l ∈ ls → link_id l ∈ [1; 7])
    ∧ (length ls ≤ length [1; 7])%nat.
Proof.
  apply fetch_links_distinct_entries; [|discriminate].
  apply (bool_decide_unpack _). by vm_compute.
Defined.

End BatchProperties.

(** ** Further properties of the title resolution *)

Module TitleProperties.
Import Py Sql Database Invariants LineFacts ListFacts RouteProperties Scenarios.
#[local] Open Scope Z_scope.

Lemma get_replace_underscore (s : string) (i : nat) :
  String.get i (replace "_" " " s)
  = (λ c, if Ascii.eqb c "_" then " "%char else c) <$> String.get i s.
Proof.
  revert i. induction s as [|c s IH]; intros i; [done|].
  rewrite replace_underscore_cons. destruct i as [|i]; [done|]. apply IH.
Qed.

Lemma length_replace_underscore (s : string) :
  String.length (replace "_" " " s) = String.length s.
Proof.
  induction s as [|c s IH]; [done|]. rewrite replace_underscore_cons. simpl. by rewrite IH.
Qed.

Section Resolution.
Context (get_sanitized_page_title : string → result string).
Context (get_readable_page_title : string → string).
Context (validate_page_id : Z → result unit).
Context (LOWER : string → string).

Local Abbreviation fetch_page :=
  (Database.fetch_page get_sanitized_page_title get_readable_page_title LOWER).
Local Abbreviation fetch_page_title := (Database.fetch_page_title validate_page_id).
Local Abbreviation matches := (select_pages_by_title LOWER).

Lemma elem_of_matches (db : tables) (sanitized : string) (p : page) :
  p ∈ matches db sanitized ↔ p ∈ pages db ∧ LOWER (title p) = LOWER sanitized.
Proof. unfold select_pages_by_title. rewrite list_elem_of_filter. tauto. Qed.

(** The page of an ID that [fetch_page] returns is in the table [pages]. *)
Lemma fetch_page_in_pages (db : tables) (page_title : string) (id : Z) (readable : string)
    (followed : bool) :
  fetch_page db page_title = Ok (id, readable, followed) →
  ∃ p, p ∈ pages db ∧ page_id p = id.
Proof.
  unfold Database.fetch_page.
  destruct (get_sanitized_page_title page_title) as [sanitized|e]; simpl; [|done].
  destruct (matches db sanitized) as [|first results] eqn:Hsel; [done|].
  assert (∀ p, In p (first :: results) → p ∈ pages db) as Hin.
  { intros p Hp. apply list_elem_of_In in Hp. rewrite <- Hsel in Hp.
    by apply elem_of_matches in Hp as [? _]. }
  destruct (find _ (first :: results)) as [p|] eqn:Hexact.
  { apply find_some in Hexact as [Hp _]. intros [= <- _ _]. exists p. auto. }
  destruct (find (λ p, negb (is_redirect p)) (first :: results)) as [p|] eqn:Hany.
  { apply find_some in Hany as [Hp _]. intros [= <- _ _]. exists p. auto. }
  destruct (head (select_redirect_target db (page_id first))) as [[i t]|] eqn:Hhead;
    [|done].
  apply head_Some_elem_of, elem_of_select_redirect_target in Hhead
    as (r & p & Hr & Hsrc & Hp & Hid & -> & ->).
  intros [= <- _ _]. by exists p.
Qed.

(** X5. When a page of the store that is not a redirect has exactly the
    sanitized title, [fetch_page] returns such a page, with that title and
    without following a redirect, whichever other pages match the title
    when the case of the letters is ignored. *)
Theorem fetch_page_exact_title (db : tables) (page_title sanitized : string) (p : page) :
  get_sanitized_page_title page_title = Ok sanitized →
  p ∈ pages db → title p = sanitized → is_redirect p = false →
  ∃ q, q ∈ pages db ∧ title q = sanitized ∧ is_redirect q = false
       ∧ fetch_page db page_title
         = Ok (page_id q, get_readable_page_title sanitized, false).
Proof.
  intros Hs Hp Htitle Hnr. unfold Database.fetch_page. rewrite Hs. simpl.
  assert (p ∈ matches db sanitized) as Hmatch.
  { apply elem_of_matches. by rewrite Htitle. }
  destruct (matches db sanitized) as [|first results] eqn:Hsel;
    [by apply elem_of_nil in Hmatch|].
  destruct (find _ (first :: results)) as [q|] eqn:Hexact.
  - apply find_some in Hexact as [Hq [Hqt%bool_decide_eq_true Hqr%negb_true_iff]%andb_prop].
    apply list_elem_of_In in Hq. rewrite <- Hsel in Hq.
    apply elem_of_matches in Hq as [Hq _]. exists q. by rewrite Hqt.
  - apply list_elem_of_In in Hmatch.
    pose proof (find_none _ _ Hexact p Hmatch) as Hno. simpl in Hno.
    by rewrite Hnr, bool_decide_eq_true_2 in Hno.
Qed.

(** X6. [fetch_page] follows a redirect only as a last resort: it returns a
    page without following a redirect exactly when some page of the store
    that is not a redirect matches the title, the case of the letters being
    ignored. *)
Theorem fetch_page_direct_iff (db : tables) (page_title sanitized : string) :
  get_sanitized_page_title page_title = Ok sanitized →
  (∃ p, p ∈ pages db ∧ LOWER (title p) = LOWER sanitized ∧ is_redirect p = false)
  ↔ ∃ id readable, fetch_page db page_title = Ok (id, readable, false).
Proof.
  intros Hs. unfold Database.fetch_page. rewrite Hs. simpl. split.
  - intros (p & Hp & Hlow & Hnr).
    assert (p ∈ matches db sanitized) as Hmatch by by apply elem_of_matches.
    destruct (matches db sanitized) as [|first results] eqn:Hsel;
      [by apply elem_of_nil in Hmatch|].
    destruct (find _ (first :: results)) as [q|]; [by eauto|].
    destruct (find (λ p, negb (is_redirect p)) (first :: results)) as [q|] eqn:Hany;
      [by eauto|].
    apply list_elem_of_In in Hmatch.
    pose proof (find_none _ _ Hany p Hmatch) as Hno. simpl in Hno. by rewrite Hnr in Hno.
  - intros (id & readable & Hfetch).
    destruct (matches db sanitized) as [|first results] eqn:Hsel; [done|].
    assert (∀ q, In q (first :: results) →
                 q ∈ pages db ∧ LOWER (title q) = LOWER sanitized) as Hin.
    { intros q Hq. apply list_elem_of_In in Hq. rewrite <- Hsel in Hq.
      by apply elem_of_matches. }
    destruct (find _ (first :: results)) as [q|] eqn:Hexact.
    { apply find_some in Hexact as [Hq [_ Hqr%negb_true_iff]%andb_prop].
      exists q. destruct (Hin q Hq). done. }
    destruct (find (λ p, negb (is_redirect p)) (first :: results)) as [q|] eqn:Hany.
    { apply find_some in Hany as [Hq Hqr%negb_true_iff].
      exists q. destruct (Hin q Hq). done. }
    by destruct (head (select_redirect_target db (page_id first))).
Qed.

(** X7. When every page that matches the title is a redirect and the first of
    them has no redirect to a page of the store, [fetch_page] raises its
    [ValueError], even if another matching page has one. *)
Theorem fetch_page_dangling_redirect (db : tables) (page_title sanitized : string)
    (first : page) (others : list page) :
  get_sanitized_page_title page_title = Ok sanitized →
  select_pages_by_title LOWER db sanitized = first :: others →
  (∀ p, p ∈ first :: others → is_redirect p = true) →
  (∀ r p, r ∈ redirects db → source_id r = page_id first →
          p ∈ pages db → page_id p ≠ target_id r) →
  fetch_page db page_title
  = Raise (ValueError ("Invalid page title " +:+ page_title
                       +:+ " provided. Page title does not exist.")).
Proof.
  intros Hs Hsel Hred Hdangling. unfold Database.fetch_page. rewrite Hs. simpl.
  rewrite Hsel.
  destruct (find _ (first :: others)) as [q|] eqn:Hexact.
  { apply find_some in Hexact as [Hq [_ Hqr%negb_true_iff]%andb_prop].
    apply list_elem_of_In, Hred in Hq. congruence. }
  destruct (find (λ p, negb (is_redirect p)) (first :: others)) as [q|] eqn:Hany.
  { apply find_some in Hany as [Hq Hqr%negb_true_iff].
    apply list_elem_of_In, Hred in Hq. congruence. }
  destruct (head (select_redirect_target db (page_id first))) as [[i t]|] eqn:Hhead;
    [|done].
  apply head_Some_elem_of, elem_of_select_redirect_target in Hhead
    as (r & p & Hr & Hsrc & Hp & Hid & -> & ->).
  by destruct (Hdangling r p).
Qed.

(** X8. The case of the letters of a title does not matter when no page
    that is not a redirect has exactly one of the two titles: two titles
    that the store takes for equal once the case is ignored resolve to the
    same page, with the same readable title and the same flag, or both
    fail. *)
Theorem fetch_page_ignores_case (db : tables) (page_title page_title' : string)
    (sanitized sanitized' : string) :
  get_sanitized_page_title page_title = Ok sanitized →
  get_sanitized_page_title page_title' = Ok sanitized' →
  LOWER sanitized = LOWER sanitized' →
  (∀ p, p ∈ pages db → is_redirect p = false →
        title p ≠ sanitized ∧ title p ≠ sanitized') →
  match fetch_page db page_title, fetch_page db page_title' with
  | Ok found, Ok found' => found = found'
  | Raise _, Raise _ => True
  | _, _ => False
  end.
Proof.
  intros Hs Hs' Hlow Hexact. unfold Database.fetch_page. rewrite Hs, Hs'. simpl.
  assert (matches db sanitized = matches db sanitized') as <-.
  { unfold select_pages_by_title. by rewrite Hlow. }
  destruct (matches db sanitized) as [|first results] eqn:Hsel; [done|].
  assert (∀ q, In q (first :: results) → q ∈ pages db) as Hin.
  { intros q Hq. apply list_elem_of_In in Hq. rewrite <- Hsel in Hq.
    by apply elem_of_matches in Hq as [? _]. }
  destruct (find (λ p, bool_decide (title p = sanitized) && _) (first :: results))
    as [q|] eqn:Hfind.
  { apply find_some in Hfind as [Hq [Hqt%bool_decide_eq_true Hqr%negb_true_iff]%andb_prop].
    by destruct (Hexact q (Hin q Hq) Hqr). }
  destruct (find (λ p, bool_decide (title p = sanitized') && _) (first :: results))
    as [q|] eqn:Hfind'.
  { apply find_some in Hfind' as [Hq [Hqt%bool_decide_eq_true Hqr%negb_true_iff]%andb_prop].
    by destruct (Hexact q (Hin q Hq) Hqr). }
  destruct (find (λ p, negb (is_redirect p)) (first :: results)) as [q|]; [done|].
  by destruct (head (select_redirect_target db (page_id first))).
Qed.

(** X9. For an ID that passes the validation, [fetch_page_title] returns the
    title of a page of that ID with every underscore turned into a space
    and nothing else changed, and raises its [ValueError] exactly when the
    store has no page of that ID. *)
Theorem fetch_page_title_readable (db : tables) (id : Z) :
  validate_page_id id = Ok () →
  match fetch_page_title db id with
  | Ok readable =>
      ∃ p, p ∈ pages db ∧ page_id p = id
           ∧ String.length readable = String.length (title p)
           ∧ ∀ i, String.get i readable
                  = (λ c, if Ascii.eqb c "_" then " "%char else c)
                      <$> String.get i (title p)
  | Raise e =>
      e = ValueError ("Invalid page ID " +:+ dquote +:+ str_int id +:+ dquote
                      +:+ " provided. Page ID does not exist.")
      ∧ ∀ p, p ∈ pages db → page_id p ≠ id
  end.
Proof.
  intros Hvalid. unfold Database.fetch_page_title. rewrite Hvalid. simpl.
  unfold select_title_by_id.
  destruct (filter (λ p, page_id p = id) (pages db)) as [|p ps] eqn:Hsel; simpl.
  - split; [done|]. intros p Hp Hid.
    assert (p ∈ filter (λ p, page_id p = id) (pages db)) as Hin
      by by apply list_elem_of_filter.
    rewrite Hsel in Hin. by apply elem_of_nil in Hin.
  - assert (p ∈ filter (λ p, page_id p = id) (pages db)) as Hin
      by (rewrite Hsel; apply list_elem_of_here).
    apply list_elem_of_filter in Hin as [Hid Hp].
    exists p. split_and!; [done|done|apply length_replace_underscore|].
    intros i. apply get_replace_underscore.
Qed.

(** X10. An ID that [fetch_page] returns has a title: when it passes the
    validation, [fetch_page_title] returns for it and does not raise. *)
Theorem fetch_page_title_of_fetched_page (db : tables) (page_title readable : string)
    (id : Z) (followed : bool) :
  fetch_page db page_title = Ok (id, readable, followed) →
  validate_page_id id = Ok () →
  ∃ page_title', fetch_page_title db id = Ok page_title'.
Proof.
  intros (p & Hp & Hid)%fetch_page_in_pages Hvalid.
  unfold Database.fetch_page_title. rewrite Hvalid. simpl. unfold select_title_by_id.
  destruct (filter (λ p, page_id p = id) (pages db)) as [|q qs] eqn:Hsel; simpl; [|by eauto].
  assert (p ∈ filter (λ p, page_id p = id) (pages db)) as Hin
    by by apply list_elem_of_filter.
  rewrite Hsel in Hin. by apply elem_of_nil in Hin.
Qed.

End Resolution.

Lemma fetch_page_exact_title_witness :
  ∃ q, q ∈ pages wiki ∧ title q = "Foo" ∧ is_redirect q = false
       ∧ Database.fetch_page keep_title same_title same_title wiki "Foo"
         = Ok (page_id q, same_title "Foo", false).
Proof.
  apply (fetch_page_exact_title keep_title same_title same_title wiki "Foo" "Foo"
           {| page_id := 1; title := "Foo"; is_redirect := false |}).
  - reflexivity.
  - apply list_elem_of_here.
  - reflexivity.
  - reflexivity.
Defined.

Lemma fetch_page_direct_iff_witness :
  (∃ p, p ∈ pages wiki ∧ same_title (title p) = same_title "Bar" ∧ is_redirect p = false)
  ↔ ∃ id readable,
      Database.fetch_page keep_title same_title same_title wiki "Bar"
      = Ok (id, readable, false).
Proof.
  apply (fetch_page_direct_iff keep_title same_title same_title wiki "Bar" "Bar").
  reflexivity.
Defined.

Lemma fetch_page_dangling_redirect_witness :
  Database.fetch_page keep_title same_title same_title dangling "Bar"
  = Raise (ValueError ("Invalid page title " +:+ "Bar"
                       +:+ " provided. Page title does not exist.")).
Proof.
  apply (fetch_page_dangling_redirect keep_title same_title same_title dangling "Bar" "Bar"
           {| page_id := 2; title := "Bar"; is_redirect := true |} []).
  - reflexivity.
  - reflexivity.
  - intros p ->%list_elem_of_singleton. reflexivity.
  - simpl. intros r p Hr. by apply elem_of_nil in Hr.
Defined.

Lemma fetch_page_ignores_case_witness :
  match Database.fetch_page keep_title same_title lower wiki "BAR",
        Database.fetch_page keep_title same_title lower wiki "bar" with
  | Ok found, Ok found' => found = found'
  | Raise _, Raise _ => True
  | _, _ => False
  end.
Proof.
  apply (fetch_page_ignores_case keep_title same_title lower wiki "BAR" "bar"
           "BAR" "bar"); [reflexivity|reflexivity|reflexivity|].
  intros p Hp Hnr. apply elem_of_cons in Hp as [->|Hp].
  - split; discriminate.
  - apply list_elem_of_singleton in Hp as ->. discriminate.
Defined.

Lemma fetch_page_title_readable_witness :
  match Database.fetch_page_title accept_all dangling 3 with
  | Ok readable =>
      ∃ p, p ∈ pages dangling ∧ page_id p = 3
           ∧ String.length readable = String.length (title p)
           ∧ ∀ i, String.get i readable
                  = (λ c, if Ascii.eqb c "_" then " "%char else c)
                      <$> String.get i (title p)
  | Raise e =>
      e = ValueError ("Invalid page ID " +:+ dquote +:+ str_int 3 +:+ dquote
                      +:+ " provided. Page ID does not exist.")
      ∧ ∀ p, p ∈ pages dangling → page_id p ≠ 3
  end.
Proof. apply (fetch_page_title_readable accept_all dangling 3). reflexivity. Defined.

Lemma fetch_page_title_of_fetched_page_witness :
  ∃ page_title', Database.fetch_page_title accept_all wiki 1 = Ok page_title'.
Proof.
  apply (fetch_page_title_of_fetched_page keep_title same_title accept_all same_title
           wiki "Bar" "Foo" 1 true); reflexivity.
Defined.

(** The title of the page 3 of the scenario, as it is read. *)
Example fetch_page_title_new_york :
  Database.fetch_page_title accept_all dangling 3 = Ok "New York City".
Proof. reflexivity. Qed.

(** The redirect [Bar] of the scenario, asked for in capitals. *)
Example fetch_page_in_capitals :
  Database.fetch_page keep_title same_title lower wiki "BAR" = Ok (1, "Foo", true).
Proof. reflexivity. Qed.

End TitleProperties.

(** ** Further properties of the route *)

Module ResponseProperties.
Import Py Sql Database Invariants LineFacts ListFacts Scenarios.

(** X11. The IDs whose data the route asks for are the IDs of the pages of the
    paths, as text: each page of some path once, however many paths it is
    on, and nothing else. *)
Theorem page_ids_set_pages (paths : list (list Z)) :
  NoDup (Server.page_ids_set paths)
  ∧ (∀ text, text ∈ Server.page_ids_set paths
             ↔ ∃ path id, path ∈ paths ∧ id ∈ path ∧ text = str_int id)
  ∧ length (Server.page_ids_set paths) = length (remove_dups (concat paths)).
Proof.
  unfold Server.page_ids_set. split_and!.
  - apply NoDup_elements.
  - intros text. rewrite elem_of_elements, elem_of_list_to_set, list_elem_of_fmap.
    split.
    + intros (id & -> & (path & Hpath & Hid)%list_elem_of_In%in_concat).
      exists path, id. by rewrite !list_elem_of_In.
    + intros (path & id & Hpath & Hid & ->). exists id. split; [done|].
      apply list_elem_of_In, in_concat. exists path. by rewrite <- !list_elem_of_In.
  - assert ((list_to_set (str_int <$> concat paths) : gset string)
            = list_to_set (str_int <$> remove_dups (concat paths))) as ->.
    { apply set_eq. intros text. rewrite !elem_of_list_to_set, !list_elem_of_fmap.
      by setoid_rewrite elem_of_remove_dups. }
    rewrite elements_list_to_set.
    + by rewrite length_fmap.
    + apply (NoDup_fmap_2 _), NoDup_remove_dups.
Qed.

Section Route.
Context (get_sanitized_page_title : string → result string).
Context (get_readable_page_title : string → string).
Context (validate_page_id : Z → result unit).
Context (LOWER : string → string).
Context (sync : Bfs.search_state → bool).
Context (connection_execute : string → result unit).
Context (connection_commit : result unit).
Context (pages_info : Type).
Context (fetch_wikipedia_pages_info : list string → tables → result pages_info).
Context (database : tables).
Context (duration : string).

Local Abbreviation fetch_page :=
  (Database.fetch_page get_sanitized_page_title get_readable_page_title LOWER).
Local Abbreviation route :=
  (Server.shortest_paths_route get_sanitized_page_title get_readable_page_title
     validate_page_id LOWER sync connection_execute connection_commit
     pages_info fetch_wikipedia_pages_info database duration).

(** X12. Only a [ValueError] of the title resolution becomes an
    [InvalidRequest]: any other exception that [fetch_page] raises for the
    source, or for the target once the source is resolved, leaves the route
    as it is, and nothing is logged. *)
Theorem route_other_errors_propagate (request : Server.request_json) (e : exn) :
  (∀ msg, e ≠ ValueError msg) →
  (fetch_page database (Server.source request) = Raise e
   → route request = Some (Raise e, []))
  ∧ (∀ found,
       fetch_page database (Server.source request) = Ok found →
       fetch_page database (Server.target request) = Raise e →
       route request = Some (Raise e, [])).
Proof.
  intros He. unfold Server.shortest_paths_route. split.
  - intros ->. destruct e; try done. by destruct (He msg).
  - intros [[? ?] ?] -> ->. destruct e; try done. by destruct (He msg).
Qed.

(** X13. An ID that [validate_page_id] rejects stops the route with the error
    of the validation, which is not turned into an [InvalidRequest] even
    when it is a [ValueError]; nothing is logged, and the search is not
    recorded, whatever the writer does. *)
Theorem route_invalid_page_id (request : Server.request_json)
    (source_page_id target_page_id : Z) (source_page_title target_page_title : string)
    (is_source_redirected is_target_redirected : bool) (e : exn) :
  fetch_page database (Server.source request)
  = Ok (source_page_id, source_page_title, is_source_redirected) →
  fetch_page database (Server.target request)
  = Ok (target_page_id, target_page_title, is_target_redirected) →
  validate_page_id source_page_id = Raise e
  ∨ (validate_page_id source_page_id = Ok () ∧ validate_page_id target_page_id = Raise e) →
  ∀ other_execute other_commit,
    Server.shortest_paths_route get_sanitized_page_title get_readable_page_title
      validate_page_id LOWER sync other_execute other_commit
      pages_info fetch_wikipedia_pages_info database duration request
    = Some (Raise e, []).
Proof.
  intros Hs Ht Hvalid other_execute other_commit.
  unfold Server.shortest_paths_route, compute_shortest_paths. rewrite Hs, Ht.
  by destruct Hvalid as [->|[-> ->]].
Qed.

(** X14. When no path is found the response holds no path and no page, the
    search is logged as one without paths, and the data of the pages is not
    asked for: the response is the same whatever the service would
    answer. *)
Theorem route_no_paths (request : Server.request_json)
    (source_page_id target_page_id : Z) (source_page_title target_page_title : string)
    (is_source_redirected is_target_redirected : bool) :
  fetch_page database (Server.source request)
  = Ok (source_page_id, source_page_title, is_source_redirected) →
  fetch_page database (Server.target request)
  = Ok (target_page_id, target_page_title, is_target_redirected) →
  compute_shortest_paths validate_page_id sync database source_page_id target_page_id
  = Ok (Some []) →
  ∃ log,
    ∀ other_service,
      Server.shortest_paths_route get_sanitized_page_title get_readable_page_title
        validate_page_id LOWER sync connection_execute connection_commit
        pages_info other_service database duration request
      = Some (Ok {| Server.sourcePageTitle := source_page_title;
                    Server.targetPageTitle := target_page_title;
                    Server.isSourceRedirected := is_source_redirected;
                    Server.isTargetRedirected := is_target_redirected;
                    Server.paths := [];
                    Server.pages := Server.no_pages pages_info |},
              Server.info ("No paths found from " +:+ str_int source_page_id
                           +:+ " to " +:+ str_int target_page_id) :: log).
Proof.
  intros Hs Ht Hpaths. unfold Server.shortest_paths_route. rewrite Hs, Ht, Hpaths.
  unfold Server.respond.
  destruct (insert_result connection_execute connection_commit _) as [[]|e];
    eexists; intros other_service; reflexivity.
Qed.

(** X15. When the data of the pages cannot be fetched the route raises the
    error of the service, and the search is not recorded: the writer has no
    part in the result, and nothing is logged. *)
Theorem route_pages_info_failure (request : Server.request_json)
    (source_page_id target_page_id : Z) (source_page_title target_page_title : string)
    (is_source_redirected is_target_redirected : bool) (paths : list (list Z)) (e : exn) :
  fetch_page database (Server.source request)
  = Ok (source_page_id, source_page_title, is_source_redirected) →
  fetch_page database (Server.target request)
  = Ok (target_page_id, target_page_title, is_target_redirected) →
  compute_shortest_paths validate_page_id sync database source_page_id target_page_id
  = Ok (Some paths) →
  paths ≠ [] →
  fetch_wikipedia_pages_info (Server.page_ids_set paths) database = Raise e →
  ∀ other_execute other_commit,
    Server.shortest_paths_route get_sanitized_page_title get_readable_page_title
      validate_page_id LOWER sync other_execute other_commit
      pages_info fetch_wikipedia_pages_info database duration request
    = Some (Raise e, []).
Proof.
  intros Hs Ht Hpaths Hne Hinfo other_execute other_commit.
  unfold Server.shortest_paths_route. rewrite Hs, Ht, Hpaths.
  unfold Server.respond. destruct paths as [|path paths']; [done|].
  by rewrite Hinfo.
Qed.

End Route.

Lemma route_other_errors_propagate_witness :
  (Database.fetch_page broken_sanitizer same_title same_title wiki "Bar"
   = Raise (TypeError "expected string or bytes-like object")
   → Server.shortest_paths_route broken_sanitizer same_title accept_all same_title
       never_sync lost_connection (Ok ()) unit (λ _ _, Ok ()) wiki "0.25"
       {| Server.source := "Bar"; Server.target := "Foo" |}
     = Some (Raise (TypeError "expected string or bytes-like object"), []))
  ∧ (∀ found,
       Database.fetch_page broken_sanitizer same_title same_title wiki "Bar" = Ok found →
       Database.fetch_page broken_sanitizer same_title same_title wiki "Foo"
       = Raise (TypeError "expected string or bytes-like object") →
       Server.shortest_paths_route broken_sanitizer same_title accept_all same_title
         never_sync lost_connection (Ok ()) unit (λ _ _, Ok ()) wiki "0.25"
         {| Server.source := "Bar"; Server.target := "Foo" |}
       = Some (Raise (TypeError "expected string or bytes-like object"), [])).
Proof.
  apply (route_other_errors_propagate broken_sanitizer same_title accept_all same_title
           never_sync lost_connection (Ok ()) unit (λ _ _, Ok ()) wiki "0.25"
           {| Server.source := "Bar"; Server.target := "Foo" |}).
  discriminate.
Defined.

Lemma route_invalid_page_id_witness :
  Server.shortest_paths_route keep_title same_title reject_all same_title
    never_sync lost_connection (Ok ()) unit (λ _ _, Ok ()) wiki "0.25"
    {| Server.source := "Bar"; Server.target := "Foo" |}
  = Some (Raise (ValueError "Page ID must be a positive integer."), []).
Proof.
  apply (route_invalid_page_id keep_title same_title reject_all same_title
           never_sync unit (λ _ _, Ok ()) wiki "0.25"
           {| Server.source := "Bar"; Server.target := "Foo" |}
           1%Z 1%Z "Foo" "Foo" true false).
  - reflexivity.
  - reflexivity.
  - left. reflexivity.
Defined.

Lemma route_no_paths_witness :
  ∃ log,
    ∀ other_service,
      Server.shortest_paths_route keep_title same_title accept_all same_title
        never_sync lost_connection (Ok ()) unit other_service islands "0.25"
        {| Server.source := "Foo"; Server.target := "Baz" |}
      = Some (Ok {| Server.sourcePageTitle := "Foo";
                    Server.targetPageTitle := "Baz";
                    Server.isSourceRedirected := false;
                    Server.isTargetRedirected := false;
                    Server.paths := [];
                    Server.pages := Server.no_pages unit |},
              Server.info ("No paths found from " +:+ str_int 1
                           +:+ " to " +:+ str_int 3) :: log).
Proof.
  apply (route_no_paths keep_title same_title accept_all same_title
           never_sync lost_connection (Ok ()) unit islands "0.25"
           {| Server.source := "Foo"; Server.target := "Baz" |}
           1%Z 3%Z "Foo" "Baz" false false).
  - reflexivity.
  - reflexivity.
  - by vm_compute.
Defined.

Lemma route_pages_info_failure_witness :
  Server.shortest_paths_route keep_title same_title accept_all same_title
    never_sync lost_connection (Ok ()) unit unreachable_service wiki "0.25"
    {| Server.source := "Bar"; Server.target := "Foo" |}
  = Some (Raise (OperationalError "connection refused"), []).
Proof.
  apply (route_pages_info_failure keep_title same_title accept_all same_title
           never_sync unit unreachable_service wiki "0.25"
           {| Server.source := "Bar"; Server.target := "Foo" |}
           1%Z 1%Z "Foo" "Foo" true false [[1%Z]]).
  - reflexivity.
  - reflexivity.
  - reflexivity.
  - discriminate.
  - reflexivity.
Defined.

End ResponseProperties.

(** ** Facts about the pruning of the pages file *)

Module PruneFacts.
Import Py Invariants PrunePages LineFacts.

Lemma occurs_newline : occurs (ascii_of_nat 10) newline = true.
Proof. reflexivity. Qed.

(** The text printed for a line that has its fields is the line without
    its end. *)
Lemma join_fields (line : string) :
  join (String tab EmptyString) (fields line) = rstrip line newline.
Proof. apply join_split. Qed.

(** A printed line is read back as the line it was printed for. *)
Lemma fields_printed_line (line : string) :
  fields (printed_line (rstrip line newline)) = fields line.
Proof.
  unfold fields, printed_line, newline.
  by rewrite rstrip_append, rstrip_rstrip by apply occurs_newline.
Qed.

Lemma prune_lines_cons (REDIRECTS : gmap string bool) (line : string) (rest : list string)
    (page_id page_title is_redirect : string) :
  fields line = [page_id; page_title; is_redirect] →
  prune_lines REDIRECTS (line :: rest)
  = ((if kept REDIRECTS page_id is_redirect then [rstrip line newline] else [])
       ++ (prune_lines REDIRECTS rest).1,
     (prune_lines REDIRECTS rest).2).
Proof.
  intros Hf. pose proof (join_fields line) as Hjoin. rewrite Hf in Hjoin.
  unfold fields in Hf. simpl. rewrite Hf.
  destruct (prune_lines REDIRECTS rest) as [printed e].
  destruct (kept REDIRECTS page_id is_redirect); simpl; by rewrite <- ?Hjoin.
Qed.

Lemma prune_lines_malformed (REDIRECTS : gmap string bool) (line : string)
    (rest : list string) :
  length (fields line) ≠ 3 →
  prune_lines REDIRECTS (line :: rest) = ([], Some (unpack_error 3 (length (fields line)))).
Proof.
  unfold fields. simpl. intros Hlen.
  destruct (split (rstrip line newline) tab) as [|a [|b [|c [|d l]]]]; done.
Qed.

(** The three fields of a line, or the fact that it has not three. *)
Lemma fields_cases (line : string) :
  (∃ page_id page_title is_redirect, fields line = [page_id; page_title; is_redirect])
  ∨ length (fields line) ≠ 3.
Proof.
  destruct (fields line) as [|a [|b [|c [|d l]]]]; eauto; by right.
Qed.

(** The dictionary after the lines of the redirects file. *)
Lemma read_redirects_cons (line : string) (rest : list string) (REDIRECTS : gmap string bool)
    (source_page_id target_page_id : string) :
  fields line = [source_page_id; target_page_id] →
  read_redirects (line :: rest) REDIRECTS
  = read_redirects rest (<[source_page_id := true]> REDIRECTS).
Proof. unfold fields. simpl. by intros ->. Qed.

Lemma read_redirects_malformed (line : string) (rest : list string)
    (REDIRECTS : gmap string bool) :
  length (fields line) ≠ 2 →
  read_redirects (line :: rest) REDIRECTS = inr (unpack_error 2 (length (fields line))).
Proof.
  unfold fields. simpl. intros Hlen.
  destruct (split (rstrip line newline) tab) as [|a [|b [|c l]]]; done.
Qed.

Lemma pair_cases (line : string) :
  (∃ source_page_id target_page_id, fields line = [source_page_id; target_page_id])
  ∨ length (fields line) ≠ 2.
Proof.
  destruct (fields line) as [|a [|b [|c l]]]; eauto; by right.
Qed.

Lemma has_redirect_cons (line : string) (rest : list string) (page_id : string) :
  has_redirect (line :: rest) page_id
  = bool_decide (head (fields line) = Some page_id) || has_redirect rest page_id.
Proof. reflexivity. Qed.

Lemma read_redirects_keys (lines : list string) (REDIRECTS : gmap string bool) :
  Forall (λ line, length (fields line) = 2) lines →
  ∃ REDIRECTS',
    read_redirects lines REDIRECTS = inl REDIRECTS'
    ∧ ∀ page_id, is_Some (REDIRECTS' !! page_id)
                 ↔ is_Some (REDIRECTS !! page_id) ∨ has_redirect lines page_id = true.
Proof.
  revert REDIRECTS. induction lines as [|line rest IH]; intros REDIRECTS Hwf.
  - exists REDIRECTS. split; [done|]. intros page_id. simpl. naive_solver.
  - apply Forall_cons in Hwf as [Hline Hrest].
    destruct (pair_cases line) as [(s & t & Hf)|Hbad]; [|done].
    rewrite (read_redirects_cons _ _ _ _ _ Hf).
    destruct (IH (<[s := true]> REDIRECTS) Hrest) as (R' & -> & Hkeys).
    exists R'. split; [done|]. intros page_id.
    rewrite Hkeys, has_redirect_cons, Hf. simpl.
    rewrite orb_true_iff, bool_decide_eq_true.
    destruct (decide (s = page_id)) as [->|Hne].
    + rewrite lookup_insert_eq. naive_solver.
    + rewrite lookup_insert_ne by done. naive_solver.
Qed.

Lemma read_redirects_error (lines : list string) (REDIRECTS : gmap string bool) :
  Exists (λ line, length (fields line) ≠ 2) lines →
  ∃ got, got ≠ 2 ∧ read_redirects lines REDIRECTS = inr (unpack_error 2 got).
Proof.
  revert REDIRECTS. induction lines as [|line rest IH]; intros REDIRECTS Hbad.
  - by apply Exists_nil in Hbad.
  - destruct (pair_cases line) as [(s & t & Hf)|Hline].
    + rewrite (read_redirects_cons _ _ _ _ _ Hf). apply IH.
      apply Exists_cons in Hbad as [Hbad|Hbad]; [|done]. by rewrite Hf in Hbad.
    + exists (length (fields line)). split; [done|]. by apply read_redirects_malformed.
Qed.

Lemma read_redirects_well_formed (lines : list string) (REDIRECTS REDIRECTS' : gmap string bool) :
  read_redirects lines REDIRECTS = inl REDIRECTS' →
  Forall (λ line, length (fields line) = 2) lines.
Proof.
  revert REDIRECTS. induction lines as [|line rest IH]; intros REDIRECTS Hread; [done|].
  destruct (pair_cases line) as [(s & t & Hf)|Hbad].
  - rewrite (read_redirects_cons _ _ _ _ _ Hf) in Hread.
    constructor; [by rewrite Hf|by eapply IH].
  - by rewrite read_redirects_malformed in Hread.
Qed.

Lemma has_redirect_line (lines : list string) (page_id : string) :
  Forall (λ line, length (fields line) = 2) lines →
  has_redirect lines page_id = true →
  ∃ line target_page_id, line ∈ lines ∧ fields line = [page_id; target_page_id].
Proof.
  intros Hwf (line & Hin & Hhead%bool_decide_eq_true)%existsb_exists.
  apply list_elem_of_In in Hin. rewrite Forall_forall in Hwf.
  specialize (Hwf line Hin).
  destruct (fields line) as [|a [|b [|c l]]] eqn:Hf; try done.
  injection Hhead as ->. by exists line, b.
Qed.

(** What the dictionary of a redirects file holds. *)
Lemma load_redirects_keys (redirects_file : text_file) (REDIRECTS : gmap string bool) :
  load_redirects redirects_file = inl REDIRECTS →
  Forall (λ line, length (fields line) = 2) (file_lines redirects_file)
  ∧ file_error redirects_file = None
  ∧ ∀ page_id, is_Some (REDIRECTS !! page_id)
               ↔ has_redirect (file_lines redirects_file) page_id = true.
Proof.
  unfold load_redirects.
  destruct (read_redirects _ ∅) as [R|e] eqn:Hread; [|done].
  destruct (file_error redirects_file); [done|]. intros [= ->].
  pose proof (read_redirects_well_formed _ _ _ Hread) as Hwf.
  destruct (read_redirects_keys _ ∅ Hwf) as (R' & Hread' & Hkeys).
  rewrite Hread in Hread'. injection Hread' as <-.
  split_and!; [done|done|]. intros page_id. rewrite Hkeys, lookup_empty.
  split; [intros [[? [=]]|]|]; auto.
Qed.

Lemma load_redirects_well_formed (redirects_file : text_file) :
  Forall (λ line, length (fields line) = 2) (file_lines redirects_file) →
  file_error redirects_file = None →
  ∃ REDIRECTS, load_redirects redirects_file = inl REDIRECTS.
Proof.
  intros Hwf Herr. unfold load_redirects.
  destruct (read_redirects_keys _ ∅ Hwf) as (R & -> & _). rewrite Herr. by exists R.
Qed.

(** The lines printed for a pages file whose lines have three fields. *)
Lemma prune_lines_filter (REDIRECTS : gmap string bool) (redirect_lines lines : list string) :
  (∀ page_id, is_Some (REDIRECTS !! page_id) ↔ has_redirect redirect_lines page_id = true) →
  Forall (λ line, length (fields line) = 3) lines →
  prune_lines REDIRECTS lines
  = ((λ line, rstrip line newline) <$> List.filter (keeps redirect_lines) lines, None).
Proof.
  intros Hkeys. induction lines as [|line rest IH]; intros Hwf; [done|].
  apply Forall_cons in Hwf as [Hline Hrest].
  destruct (fields_cases line) as [(i & t & r & Hf)|Hbad]; [|done].
  rewrite (prune_lines_cons _ _ _ _ _ _ Hf), IH by done.
  cbn [fst snd List.filter]. unfold keeps at 2. rewrite Hf.
  assert (kept REDIRECTS i r = (String.eqb r "0" || has_redirect redirect_lines i)) as ->.
  { unfold kept. f_equal. destruct (has_redirect redirect_lines i) eqn:Hsource.
    - by apply bool_decide_eq_true_2, Hkeys.
    - apply bool_decide_eq_false_2. by rewrite Hkeys, Hsource. }
  by destruct (String.eqb r "0" || has_redirect redirect_lines i).
Qed.

(** Every printed line is a line of the file, and the order is kept. *)
Lemma prune_lines_sublist (REDIRECTS : gmap string bool) (lines : list string) :
  (prune_lines REDIRECTS lines).1 `sublist_of` ((λ line, rstrip line newline) <$> lines).
Proof.
  induction lines as [|line rest IH]; [done|].
  destruct (fields_cases line) as [(i & t & r & Hf)|Hbad].
  - rewrite (prune_lines_cons _ _ _ _ _ _ Hf). cbn [fst]. rewrite fmap_cons.
    destruct (kept REDIRECTS i r); cbn [app]; by constructor.
  - rewrite prune_lines_malformed by done. apply sublist_nil_l.
Qed.

(** Every printed line has three fields, and its page is kept. *)
Lemma prune_lines_kept (REDIRECTS : gmap string bool) (lines : list string) (out : string) :
  out ∈ (prune_lines REDIRECTS lines).1 →
  ∃ page_id page_title is_redirect,
    split out tab = [page_id; page_title; is_redirect]
    ∧ kept REDIRECTS page_id is_redirect = true.
Proof.
  induction lines as [|line rest IH]; [by intros ?%elem_of_nil|].
  destruct (fields_cases line) as [(i & t & r & Hf)|Hbad].
  - rewrite (prune_lines_cons _ _ _ _ _ _ Hf). cbn [fst].
    destruct (kept REDIRECTS i r) eqn:Hkept; cbn [app]; [|done].
    intros [->|Hin]%elem_of_cons; [|by apply IH].
    exists i, t, r. by split.
  - rewrite prune_lines_malformed by done. by intros ?%elem_of_nil.
Qed.

End PruneFacts.

(** ** Properties of the pruning of the pages file *)

Module PruneProperties.
Import Py Invariants PrunePages LineFacts PruneFacts Scenarios.

(** X16. What is printed for a pages file that continues is what is printed for
    its first part, followed, unless a line of the first part has not three
    fields, by what is printed for the rest: the output is produced line by
    line, and stops at the first line that cannot be unpacked. *)
Theorem prune_lines_app (REDIRECTS : gmap string bool) (lines more : list string) :
  prune_lines REDIRECTS (lines ++ more)
  = match prune_lines REDIRECTS lines with
    | (printed, None) =>
        (printed ++ (prune_lines REDIRECTS more).1, (prune_lines REDIRECTS more).2)
    | (printed, Some exception) => (printed, Some exception)
    end.
Proof.
  induction lines as [|line rest IH].
  - simpl. by destruct (prune_lines REDIRECTS more).
  - rewrite <- app_comm_cons.
    destruct (fields_cases line) as [(i & t & r & Hf)|Hbad].
    + rewrite !(prune_lines_cons _ _ _ _ _ _ Hf), IH.
      destruct (prune_lines REDIRECTS rest) as [printed [e|]]; simpl; [done|].
      by rewrite app_assoc.
    + by rewrite !prune_lines_malformed.
Qed.

(** X17. Pruning the printed lines again prints them all: the script is
    idempotent on its own output, whatever the pages file was. *)
Theorem prune_lines_idempotent (REDIRECTS : gmap string bool) (lines : list string) :
  prune_lines REDIRECTS (printed_line <$> (prune_lines REDIRECTS lines).1)
  = ((prune_lines REDIRECTS lines).1, None).
Proof.
  induction lines as [|line rest IH]; [done|].
  destruct (fields_cases line) as [(i & t & r & Hf)|Hbad].
  - rewrite (prune_lines_cons _ _ _ _ _ _ Hf). cbn [fst].
    destruct (kept REDIRECTS i r) eqn:Hkept; [|done].
    assert (fields (printed_line (rstrip line newline)) = [i; t; r]) as Hf'.
    { by rewrite fields_printed_line. }
    cbn [app]. rewrite fmap_cons.
    rewrite (prune_lines_cons _ _ _ _ _ _ Hf'), Hkept, IH. cbn [fst snd app].
    unfold printed_line, newline.
    by rewrite rstrip_append, rstrip_rstrip by apply occurs_newline.
  - by rewrite prune_lines_malformed.
Qed.

Section Script.
Context (gzip_open : string → text_file).

Local Abbreviation main := (PrunePages.main gzip_open).

(** X18. When the lines of the two files have their fields and both files are
    read to their end, the script prints the lines of the pages file, each
    without its end and otherwise unchanged, whose page is not a redirect or
    is the source of a line of the redirects file, in the order of the
    file, and nothing else. *)
Theorem main_keeps_pages (script PAGES_FILE REDIRECTS_FILE : string) (rest : list string) :
  endswith PAGES_FILE ".gz" = true →
  endswith REDIRECTS_FILE ".gz" = true →
  file_error (gzip_open REDIRECTS_FILE) = None →
  file_error (gzip_open PAGES_FILE) = None →
  Forall (λ line, length (fields line) = 2) (file_lines (gzip_open REDIRECTS_FILE)) →
  Forall (λ line, length (fields line) = 3) (file_lines (gzip_open PAGES_FILE)) →
  main script (PAGES_FILE :: REDIRECTS_FILE :: rest)
  = ((λ line, rstrip line newline)
       <$> List.filter (keeps (file_lines (gzip_open REDIRECTS_FILE)))
             (file_lines (gzip_open PAGES_FILE)),
     completed).
Proof.
  intros Hp Hr Hre Hpe Hrw Hpw. unfold PrunePages.main. rewrite Hp, Hr. cbn [negb].
  destruct (load_redirects_well_formed _ Hrw Hre) as [REDIRECTS Hload]. rewrite Hload.
  apply load_redirects_keys in Hload as (_ & _ & Hkeys).
  unfold prune_pages. by rewrite (prune_lines_filter _ _ _ Hkeys Hpw), Hpe.
Qed.

(** X19. Whatever the files hold, the script prints only lines of the pages
    file, without their ends, in the order of the file: it never changes,
    repeats, reorders or invents a line. *)
Theorem main_prints_lines_of_pages_file (script PAGES_FILE REDIRECTS_FILE : string)
    (rest : list string) :
  endswith PAGES_FILE ".gz" = true →
  endswith REDIRECTS_FILE ".gz" = true →
  (main script (PAGES_FILE :: REDIRECTS_FILE :: rest)).1
  `sublist_of` ((λ line, rstrip line newline) <$> file_lines (gzip_open PAGES_FILE)).
Proof.
  intros Hp Hr. unfold PrunePages.main. rewrite Hp, Hr. cbn [negb].
  destruct (load_redirects _) as [REDIRECTS|e]; [|apply sublist_nil_l].
  unfold prune_pages.
  pose proof (prune_lines_sublist REDIRECTS (file_lines (gzip_open PAGES_FILE))) as Hsub.
  by destruct (prune_lines _ _) as [printed [e|]].
Qed.

(** X20. Every line the script prints has three fields, and its page is not a
    redirect or is the source of a line of the redirects file: no page
    marked as a redirect is left without its redirect, whatever the files
    hold. *)
Theorem main_redirects_have_entry (script PAGES_FILE REDIRECTS_FILE : string)
    (rest : list string) (out : string) :
  endswith PAGES_FILE ".gz" = true →
  endswith REDIRECTS_FILE ".gz" = true →
  out ∈ (main script (PAGES_FILE :: REDIRECTS_FILE :: rest)).1 →
  ∃ page_id page_title is_redirect,
    split out tab = [page_id; page_title; is_redirect]
    ∧ (is_redirect = "0"
       ∨ ∃ line target_page_id,
           line ∈ file_lines (gzip_open REDIRECTS_FILE)
           ∧ fields line = [page_id; target_page_id]).
Proof.
  intros Hp Hr. unfold PrunePages.main. rewrite Hp, Hr. cbn [negb].
  destruct (load_redirects _) as [REDIRECTS|e] eqn:Hload; [|by intros ?%elem_of_nil].
  apply load_redirects_keys in Hload as (Hwf & _ & Hkeys).
  unfold prune_pages. intros Hout.
  assert (out ∈ (prune_lines REDIRECTS (file_lines (gzip_open PAGES_FILE))).1) as Hin.
  { by destruct (prune_lines _ _) as [printed [e|]]. }
  apply prune_lines_kept in Hin as (i & t & r & Hsplit & Hkept).
  exists i, t, r. split; [done|].
  apply orb_true_iff in Hkept as [Hzero%String.eqb_eq|Hkey%bool_decide_eq_true]; [by left|].
  right. apply Hkeys in Hkey. by apply has_redirect_line.
Qed.

(** X21. A line of the redirects file that has not two fields stops the script
    with a [ValueError] before anything is printed, whatever the pages file
    holds. *)
Theorem main_malformed_redirects (script PAGES_FILE REDIRECTS_FILE : string)
    (rest : list string) :
  endswith PAGES_FILE ".gz" = true →
  endswith REDIRECTS_FILE ".gz" = true →
  Exists (λ line, length (fields line) ≠ 2) (file_lines (gzip_open REDIRECTS_FILE)) →
  ∃ got, got ≠ 2
         ∧ main script (PAGES_FILE :: REDIRECTS_FILE :: rest)
           = ([], uncaught (unpack_error 2 got)).
Proof.
  intros Hp Hr Hbad. unfold PrunePages.main. rewrite Hp, Hr. cbn [negb].
  destruct (read_redirects_error _ ∅ Hbad) as (got & Hgot & Hread).
  exists got. split; [done|]. unfold load_redirects. by rewrite Hread.
Qed.

End Script.

(** X22. With fewer than two arguments, or a file name that does not end in
    [.gz], the script exits after printing one or two messages, and does so
    without reading any file. *)
Theorem main_checks_arguments (script : string) (args : list string)
    (gzip_open gzip_open' : string → text_file) :
  length args < 2
  ∨ (∃ PAGES_FILE REDIRECTS_FILE rest,
       args = PAGES_FILE :: REDIRECTS_FILE :: rest
       ∧ (endswith PAGES_FILE ".gz" = false ∨ endswith REDIRECTS_FILE ".gz" = false)) →
  (main gzip_open script args).2 = SystemExit
  ∧ 1 ≤ length (main gzip_open script args).1 ≤ 2
  ∧ main gzip_open script args = main gzip_open' script args.
Proof.
  intros [Hlen|(p & r & rest & -> & Hgz)].
  - destruct args as [|a [|b l]]; simpl in *; try lia; split_and!; done || lia.
  - unfold main. destruct (endswith p ".gz"); cbn [negb].
    + destruct Hgz as [[=]| ->]. cbn. split_and!; done || lia.
    + cbn. split_and!; done || lia.
Qed.

Lemma main_keeps_pages_witness :
  main directory "prune_pages_file.py" ["pages.txt.gz"; "redirects.txt.gz"]
  = ((λ line, rstrip line newline)
       <$> List.filter (keeps (file_lines (directory "redirects.txt.gz")))
             (file_lines (directory "pages.txt.gz")),
     completed).
Proof.
  apply (main_keeps_pages directory "prune_pages_file.py" "pages.txt.gz"
           "redirects.txt.gz" []); try reflexivity.
  - repeat constructor.
  - repeat constructor.
Defined.

Lemma main_prints_lines_of_pages_file_witness :
  (main directory "prune_pages_file.py" ["pages.txt.gz"; "redirects.txt.gz"]).1
  `sublist_of` ((λ line, rstrip line newline) <$> file_lines (directory "pages.txt.gz")).
Proof.
  apply (main_prints_lines_of_pages_file directory "prune_pages_file.py" "pages.txt.gz"
           "redirects.txt.gz" []); reflexivity.
Defined.

Lemma main_redirects_have_entry_witness :
  ∃ page_id page_title is_redirect,
    split (rstrip (line ["2"; "Bar"; "1"]) newline) tab = [page_id; page_title; is_redirect]
    ∧ (is_redirect = "0"
       ∨ ∃ line target_page_id,
           line ∈ file_lines (directory "redirects.txt.gz")
           ∧ fields line = [page_id; target_page_id]).
Proof.
  apply (main_redirects_have_entry directory "prune_pages_file.py" "pages.txt.gz"
           "redirects.txt.gz" []); try reflexivity.
  vm_compute. apply list_elem_of_further, list_elem_of_here.
Defined.

Lemma main_malformed_redirects_witness :
  ∃ got, got ≠ 2
         ∧ main directory "prune_pages_file.py" ["pages.txt.gz"; "pages.txt.gz"]
           = ([], uncaught (unpack_error 2 got)).
Proof.
  apply (main_malformed_redirects directory "prune_pages_file.py" "pages.txt.gz"
           "pages.txt.gz" []); try reflexivity.
  apply Exists_cons_hd. vm_compute. lia.
Defined.

Lemma main_checks_arguments_witness :
  (main directory "prune_pages_file.py" ["pages.txt"; "redirects.txt.gz"]).2 = SystemExit
  ∧ 1 ≤ length (main directory "prune_pages_file.py" ["pages.txt"; "redirects.txt.gz"]).1 ≤ 2
  ∧ main directory "prune_pages_file.py" ["pages.txt"; "redirects.txt.gz"]
    = main (λ _, {| file_lines := []; file_error := None |}) "prune_pages_file.py"
        ["pages.txt"; "redirects.txt.gz"].
Proof.
  apply main_checks_arguments. right.
  exists "pages.txt", "redirects.txt.gz", []. split; [reflexivity|]. left. reflexivity.
Defined.

(** The script on the scenario: the page 3, marked as a redirect without
    being the source of one, is dropped. *)
Example main_on_directory :
  main directory "prune_pages_file.py" ["pages.txt.gz"; "redirects.txt.gz"]
  = ([join (String tab EmptyString) ["1"; "Foo"; "0"];
      join (String tab EmptyString) ["2"; "Bar"; "1"]], completed).
Proof. by vm_compute. Qed.

End PruneProperties.
